(** * Battleships (sf_battleships): board geometry, shots and the match loop

    A shallow embedding of [main.py].  Python objects live in typed stores
    indexed by addresses, so that a ship placed on a board and the ship the
    caller still holds are one object; methods are computations in a
    state-and-exception monad over that world. *)

From Stdlib Require Import Ascii String.
From stdpp Require Import base decidable countable numbers option list sets gmap strings.

Open Scope Z_scope.

(** ** Exceptions and outcomes *)

(** The exception classes of [main.py], with the built-in ones the code
    raises or lets escape. *)
Inductive exn : Set :=
  | ValueError
  | NotImplementedError
  | EOFError
  | IndexError
  | BoardOutException
  | ShipDotsOverlap
  | DotAlreadyUsed.

Global Instance exn_eq_dec : EqDecision exn.
Proof. solve_decision. Defined.

(** A call that touches no object returns a value or raises. *)
Inductive result (A : Type) : Type :=
  | Ok (a : A)
  | Err (e : exn).
Arguments Ok {A} a.
Arguments Err {A} e.

Global Instance result_ret : MRet result := λ A a, Ok a.
Global Instance result_bind : MBind result := λ A B f m,
  match m with
  | Ok a => f a
  | Err e => Err e
  end.

(** [for x in xs: acc = body x acc], stopping at the first exception. *)
Fixpoint for_result {A S : Type} (xs : list A) (body : A → S → result S) (acc : S)
  : result S :=
  match xs with
  | [] => Ok acc
  | x :: xs' =>
      match body x acc with
      | Ok acc' => for_result xs' body acc'
      | Err e => Err e
      end
  end.

(** Python's [range(n)] and [range(a, b)]. *)
Definition range (n : Z) : list Z := seqZ 0 n.
Definition range2 (a b : Z) : list Z := seqZ a (b - a).

(** ** The objects

    One record per class, holding the instance attributes under their
    source names.  An object is referred to by its address in the store of
    its class. *)

Definition addr := nat.

Module Dot.
Record t : Set := mk { x : Z; y : Z }.

Global Instance eq_dec : EqDecision t.
Proof. solve_decision. Defined.

(** [__eq__] and [__hash__] are structural, so a Python set of [Dot]s is a
    finite set of records. *)
Global Instance countable : Countable t.
Proof.
  refine (inj_countable' (λ d, (x d, y d)) (λ p, mk p.1 p.2) _).
  by intros [].
Defined.

(** What the setters guarantee of every constructed [Dot]. *)
Definition valid (d : t) : Prop := 0 ≤ x d ∧ 0 ≤ y d.
End Dot.
Abbreviation Dot := Dot.t.

Module Ship.
Record t : Type := mk {
  origin : Dot;
  size : Z;
  orientation : Z;
  wreck : gset Dot
}.

(** What the setters guarantee of every constructed [Ship]. *)
Definition valid (s : t) : Prop :=
  Dot.valid (origin s) ∧ 1 ≤ size s ∧ (orientation s = 0 ∨ orientation s = 1).

(** Assignment to the one attribute that changes after construction. *)
Definition set_wreck (v : gset Dot) (s : t) : t :=
  mk (origin s) (size s) (orientation s) v.
End Ship.
Abbreviation Ship := Ship.t.

Module Board.
Record t : Type := mk {
  size : Z;
  unavailable_dots : gset Dot;
  used_dots : gset Dot;
  ships : list addr;
  hidden : bool
}.

Definition set_unavailable_dots (v : gset Dot) (b : t) : t :=
  mk (size b) v (used_dots b) (ships b) (hidden b).
Definition set_used_dots (v : gset Dot) (b : t) : t :=
  mk (size b) (unavailable_dots b) v (ships b) (hidden b).
Definition set_ships (v : list addr) (b : t) : t :=
  mk (size b) (unavailable_dots b) (used_dots b) v (hidden b).
End Board.
Abbreviation Board := Board.t.

Module User.
(** The class of the instance: the base class and its two subclasses. *)
Inductive cls : Set := Base | Human | Ai.

Record t : Type := mk {
  class : cls;
  own_board : addr;
  opponent_board : addr;
  last_target : option Dot
}.

Definition set_last_target (v : option Dot) (u : t) : t :=
  mk (class u) (own_board u) (opponent_board u) v.
End User.
Abbreviation User := User.t.

Module Game.
Record t : Set := mk { human : addr; ai : addr }.
End Game.
Abbreviation Game := Game.t.

(** The default arguments of the constructors give each store its value at
    an address that was never allocated. *)
Global Instance Dot_inhabited : Inhabited Dot := populate (Dot.mk 0 0).
Global Instance Ship_inhabited : Inhabited Ship :=
  populate (Ship.mk (Dot.mk 0 0) 1 1 ∅).
Global Instance Board_inhabited : Inhabited Board :=
  populate (Board.mk 10 ∅ ∅ [] false).
Global Instance User_inhabited : Inhabited User :=
  populate (User.mk User.Base 0%nat 0%nat None).

(** ** The world *)

(** What the program writes: [print] and [input] prompts by their text,
    the status line of [show] by its fields, and a board rendering by the
    address of the board rendered (the text of the grid is not modelled). *)
Inductive output : Type :=
  | Print (s : string)
  | Prompt (s : string)
  | Cls
  | Status (side : string) (live : Z) (last_shot : option Dot)
  | AiTurn (x y : Z)
  | Display (board : addr).

(** The stores, the console, and the generator behind [randint]: a tape of
    raw draws and the position of the next one. *)
Record World : Type := mkWorld {
  ship_store : gmap addr Ship;
  board_store : gmap addr Board;
  user_store : gmap addr User;
  stdin : list string;
  stdout : list output;
  tape : nat → Z;
  cursor : nat
}.

(** ** Computations *)

(** A call returns, raises, or is cut off when the bound on the unrolling
    of a [while True] loop is reached. *)
Inductive outcome (A : Type) : Type :=
  | Ret (a : A)
  | Raise (e : exn)
  | Fuel.
Arguments Ret {A} a.
Arguments Raise {A} e.
Arguments Fuel {A}.

Definition M (A : Type) : Type := World → outcome A * World.

Global Instance M_ret : MRet M := λ A a w, (Ret a, w).
Global Instance M_bind : MBind M := λ A B f m w,
  match m w with
  | (Ret a, w') => f a w'
  | (Raise e, w') => (Raise e, w')
  | (Fuel, w') => (Fuel, w')
  end.

Definition raise {A : Type} (e : exn) : M A := λ w, (Raise e, w).
Definition out_of_fuel {A : Type} : M A := λ w, (Fuel, w).
Definition gets {A : Type} (f : World → A) : M A := λ w, (Ret (f w), w).
Definition modify (f : World → World) : M unit := λ w, (Ret tt, f w).

(** A pure call inside a method. *)
Definition lift {A : Type} (r : result A) : M A :=
  match r with
  | Ok a => mret a
  | Err e => raise e
  end.

(** [try: body / except ...: handler / else: orelse].  [handlers e] is the
    clause that catches [e], if one does; it runs in the world the exception
    left behind. *)
Definition try_except {A B : Type} (body : M A) (handlers : exn → option (M B))
    (orelse : A → M B) : M B := λ w,
  match body w with
  | (Ret a, w') => orelse a w'
  | (Raise e, w') =>
      match handlers e with
      | Some handler => handler w'
      | None => (Raise e, w')
      end
  | (Fuel, w') => (Fuel, w')
  end.

(** [for x in xs: acc = body x acc] with effects. *)
Fixpoint for_M {A S : Type} (xs : list A) (body : A → S → M S) (acc : S) : M S :=
  match xs with
  | [] => mret acc
  | x :: xs' => acc' ← body x acc; for_M xs' body acc'
  end.

(** What one pass through the body of a [while True] loop asks for. *)
Inductive control (S R : Type) : Type :=
  | Continue (s : S)
  | Return (r : R).
Arguments Continue {S R} s.
Arguments Return {S R} r.

(** [while True: body], unrolled at most [fuel] times; [s] carries the local
    variables the body reassigns. *)
Fixpoint while_true {S R : Type} (fuel : nat) (body : S → M (control S R)) (s : S)
  : M R :=
  match fuel with
  | O => out_of_fuel
  | S fuel' =>
      c ← body s;
      match c with
      | Continue s' => while_true fuel' body s'
      | Return r => mret r
      end
  end.

(** Field updates of the world. *)
Definition on_ship_store (f : gmap addr Ship → gmap addr Ship) (w : World) : World :=
  mkWorld (f (ship_store w)) (board_store w) (user_store w)
    (stdin w) (stdout w) (tape w) (cursor w).
Definition on_board_store (f : gmap addr Board → gmap addr Board) (w : World) : World :=
  mkWorld (ship_store w) (f (board_store w)) (user_store w)
    (stdin w) (stdout w) (tape w) (cursor w).
Definition on_user_store (f : gmap addr User → gmap addr User) (w : World) : World :=
  mkWorld (ship_store w) (board_store w) (f (user_store w))
    (stdin w) (stdout w) (tape w) (cursor w).
Definition on_stdin (f : list string → list string) (w : World) : World :=
  mkWorld (ship_store w) (board_store w) (user_store w)
    (f (stdin w)) (stdout w) (tape w) (cursor w).
Definition on_stdout (f : list output → list output) (w : World) : World :=
  mkWorld (ship_store w) (board_store w) (user_store w)
    (stdin w) (f (stdout w)) (tape w) (cursor w).
Definition on_cursor (f : nat → nat) (w : World) : World :=
  mkWorld (ship_store w) (board_store w) (user_store w)
    (stdin w) (stdout w) (tape w) (f (cursor w)).

(** Reading and writing objects.  An address that was never allocated reads
    as the default object of its class. *)
Definition ship_at (w : World) (r : addr) : Ship := ship_store w !!! r.
Definition board_at (w : World) (b : addr) : Board := board_store w !!! b.
Definition user_at (w : World) (u : addr) : User := user_store w !!! u.

Definition get_ship (r : addr) : M Ship := gets (λ w, ship_store w !!! r).
Definition set_ship (r : addr) (s : Ship) : M unit :=
  modify (on_ship_store <[r := s]>).
Definition get_board (b : addr) : M Board := gets (λ w, board_store w !!! b).
Definition set_board (b : addr) (v : Board) : M unit :=
  modify (on_board_store <[b := v]>).
Definition get_user (u : addr) : M User := gets (λ w, user_store w !!! u).
Definition set_user (u : addr) (v : User) : M unit :=
  modify (on_user_store <[u := v]>).

(** Object creation: the new object gets an address no object of its class
    has. *)
Definition new_ship (s : Ship) : M addr := λ w,
  let r := fresh (dom (ship_store w)) in (Ret r, on_ship_store <[r := s]> w).
Definition new_board (v : Board) : M addr := λ w,
  let b := fresh (dom (board_store w)) in (Ret b, on_board_store <[b := v]> w).
Definition new_user (v : User) : M addr := λ w,
  let u := fresh (dom (user_store w)) in (Ret u, on_user_store <[u := v]> w).

(** The console. *)
Definition emit (o : output) : M unit := modify (on_stdout (λ l, l ++ [o])).
Definition print (s : string) : M unit := emit (Print s).

(** [input(prompt)]: the next line of standard input, [EOFError] at its end. *)
Definition input (prompt : string) : M string :=
  _ ← emit (Prompt prompt);
  l ← gets stdin;
  match l with
  | [] => raise EOFError
  | line :: rest => _ ← modify (on_stdin (λ _, rest)); mret line
  end.

(** [random.randint(a, b)]: an integer of [a..b], both ends included, chosen
    by the next raw draw; [ValueError] on an empty range. *)
Definition randint (a b : Z) : M Z :=
  if b <? a then raise ValueError
  else
    raw ← gets (λ w, tape w (cursor w));
    _ ← modify (on_cursor S);
    mret (a + raw `mod` (b - a + 1)).

(** ** class Dot *)

(** [__init__] runs the [x] setter, then the [y] setter; each raises
    [ValueError] on a negative component. *)
Definition Dot_init (x y : Z) : result Dot :=
  if x >=? 0 then
    if y >=? 0 then Ok (Dot.mk x y) else Err ValueError
  else Err ValueError.

(** ** class Ship *)

(** [__init__]: the setters validate size and orientation (the origin is a
    [Dot] by its type); the wreck starts empty. *)
Definition Ship_init (origin : Dot) (size orientation : Z) : result Ship :=
  if size >=? 1 then
    if (orientation =? 0) || (orientation =? 1)
    then Ok (Ship.mk origin size orientation ∅)
    else Err ValueError
  else Err ValueError.

(** The truth value of the integer [self.orientation]. *)
Definition truthy (n : Z) : bool := negb (n =? 0).

(** One pass of the loop of [dots]. *)
Definition dots_step (self : Ship) (i : Z) (ship_dots : gset Dot) : result (gset Dot) :=
  new_dot ← (if truthy (Ship.orientation self)
             then Dot_init (Dot.x (Ship.origin self)) (Dot.y (Ship.origin self) + i)
             else Dot_init (Dot.x (Ship.origin self) + i) (Dot.y (Ship.origin self)));
  Ok ({[ new_dot ]} ∪ ship_dots).

(** The [dots] property.  [cached_property] stores the set at the first
    access; origin, size and orientation are never reassigned by the code
    modelled here, so the stored set is the computed one. *)
Definition Ship_dots (self : Ship) : result (gset Dot) :=
  for_result (range (Ship.size self)) (dots_step self) ∅.

(** The list comprehension of [margins]: the square of side [2*size+1]
    around [d], as pairs of integers. *)
Definition square (d : Dot) (size : Z) : list (Z * Z) :=
  i ← range2 (- size) (size + 1);
  j ← range2 (- size) (size + 1);
  [(Dot.x d + i, Dot.y d + j)].

(** The [try] of [margins]: the [ValueError] of a [Dot] with a negative
    component is caught and the pair skipped. *)
Definition margins_step (c : Z * Z) (margin_dots : gset Dot) : result (gset Dot) :=
  match Dot_init c.1 c.2 with
  | Ok p => Ok ({[ p ]} ∪ margin_dots)
  | Err ValueError => Ok margin_dots
  | Err e => Err e
  end.

(** [margins(size)]; [lru_cache] is transparent for the same reason as
    [cached_property]. *)
Definition Ship_margins (self : Ship) (size : Z) : result (gset Dot) :=
  if size <? 1 then Err ValueError
  else
    ds ← Ship_dots self;
    for_result (elements ds)
      (λ d margin_dots, for_result (square d size) margins_step margin_dots)
      ∅.

(** [health]: the number of dots not in the wreck. *)
Definition Ship_health (self : Ship) : result Z :=
  ds ← Ship_dots self;
  Ok (Z.of_nat (size (ds ∖ Ship.wreck self))).

Definition Ship_isalive (self : Ship) : result bool :=
  h ← Ship_health self;
  Ok (h >? 0).

(** [hit]: the only method that changes a ship. *)
Definition Ship_hit (self : addr) (hit : Dot) : M bool :=
  s ← get_ship self;
  ds ← lift (Ship_dots s);
  if bool_decide (hit ∈ ds) then
    _ ← set_ship self (Ship.set_wreck ({[ hit ]} ∪ Ship.wreck s) s);
    mret true
  else mret false.

(** ** class Board *)

(** [__init__]: the size setter rejects a size below 10. *)
Definition Board_init (size : Z) (hidden : bool) : M addr :=
  if size <? 10 then raise ValueError
  else new_board (Board.mk size ∅ ∅ [] hidden).

Definition Board_out (self : Board) (dot : Dot) : bool :=
  negb (((0 <=? Dot.x dot) && (Dot.x dot <? Board.size self))
        && ((0 <=? Dot.y dot) && (Dot.y dot <? Board.size self))).

(** The truth value of a set: it is not empty. *)
Definition nonempty (X : gset Dot) : bool := negb (bool_decide (X = ∅)).

Definition Board_add_ship (self ship : addr) : M unit :=
  b ← get_board self;
  s ← get_ship ship;
  margin ← lift (Ship_margins s 1);
  if nonempty (Board.unavailable_dots b ∩ margin) then raise ShipDotsOverlap
  else
    ds ← lift (Ship_dots s);
    if existsb (Board_out b) (elements ds) then raise BoardOutException
    else
      _ ← set_board self (Board.set_ships (Board.ships b ++ [ship]) b);
      b ← get_board self;
      margin ← lift (Ship_margins s 1);
      set_board self (Board.set_unavailable_dots (Board.unavailable_dots b ∪ margin) b).

Definition Board_live_ships (self : addr) : M Z :=
  b ← get_board self;
  alive ← for_M (Board.ships b)
             (λ ship acc,
                s ← get_ship ship;
                a ← lift (Ship_isalive s);
                mret (if a : bool then acc ++ [ship] else acc))
             [];
  mret (Z.of_nat (length alive)).

Definition Board_shot (self : addr) (target : Dot) : M bool :=
  let result := false in
  b ← get_board self;
  if Board_out b target then raise BoardOutException
  else if bool_decide (target ∈ Board.used_dots b) then raise DotAlreadyUsed
  else
    result ← for_M (Board.ships b) (λ ship _, Ship_hit ship target) result;
    b ← get_board self;
    _ ← set_board self (Board.set_used_dots ({[ target ]} ∪ Board.used_dots b) b);
    mret result.

(** The four characters [display] writes into its grid [d]: ['_'], ['✸'],
    ['☐'] and ['☒']. *)
Inductive mark : Set := Blank | Shot | Hull | Wrecked.

Global Instance mark_eq_dec : EqDecision mark.
Proof. solve_decision. Defined.

Abbreviation grid := (list (list mark)).

(** The position an index stands for in a list of length [n]: [i] itself
    from [0] to [n-1], and [n+i] from [-n] to [-1]; any other index raises
    [IndexError]. *)
Definition list_index (n : nat) (i : Z) : result nat :=
  if (0 <=? i) && (i <? Z.of_nat n) then Ok (Z.to_nat i)
  else if (- Z.of_nat n <=? i) && (i <? 0) then Ok (Z.to_nat (Z.of_nat n + i))
  else Err IndexError.

(** [d[dot.y][dot.x] = c]: the row is looked up first, then the column. *)
Definition put (c : mark) (dot : Dot) (d : grid) : result grid :=
  r ← list_index (length d) (Dot.y dot);
  let row := d !!! r in
  k ← list_index (length row) (Dot.x dot);
  Ok (<[r := <[k := c]> row]> d).

(** The body of the loop over [ship.dots]. *)
Definition draw_dot (hidden : bool) (wreck : gset Dot) (dot : Dot) (d : grid)
  : result grid :=
  d ← (if negb hidden then put Hull dot d else Ok d);
  if bool_decide (dot ∈ wreck) then put Wrecked dot d else Ok d.

(** The body of the loop over [self.ships]. *)
Definition draw_ship (w : World) (hidden : bool) (ship : addr) (d : grid)
  : result grid :=
  let s := ship_at w ship in
  ds ← Ship_dots s;
  for_result (elements ds) (draw_dot hidden (Ship.wreck s)) d.

(** The grid [d] as the loops of [display] leave it, before the header row
    is put in front of it and the rows are joined into text.  [display]
    assigns no attribute of any object, so the grid is a function of the
    world. *)
Definition Board_display_grid (w : World) (self : addr) : result grid :=
  let b := board_at w self in
  let d := replicate (Z.to_nat (Board.size b))
             (replicate (Z.to_nat (Board.size b)) Blank) in
  d ← for_result (elements (Board.used_dots b)) (put Shot) d;
  for_result (Board.ships b) (draw_ship w (Board.hidden b)) d.

(** [display] fills the grid and prints it. *)
Definition Board_display (self : addr) : M unit :=
  d ← gets (λ w, Board_display_grid w self);
  _ ← lift d;
  emit (Display self).

(** ** Strings read from the console *)

(** A string is the sequence of its characters, a character being its code
    point; the characters modelled are those of the code points 0 to 255. *)

(** [c.isspace()], which is also what [str.split()] cuts at: the ASCII
    white space, the separators U+001C to U+001F, U+0085 and U+00A0. *)
Definition isspace (c : ascii) : bool :=
  let n := nat_of_ascii c in
  ((9 <=? n) && (n <=? 13) || (28 <=? n) && (n <=? 32)
   || (n =? 133) || (n =? 160))%nat.

Fixpoint split_from (word : list ascii) (cs : list ascii) : list (list ascii) :=
  match cs with
  | [] => match word with [] => [] | _ => [reverse word] end
  | c :: cs' =>
      if isspace c then
        match word with
        | [] => split_from [] cs'
        | _ => reverse word :: split_from [] cs'
        end
      else split_from (c :: word) cs'
  end.

Definition split (s : string) : list string :=
  string_of_list_ascii <$> split_from [] (list_ascii_of_string s).

(** The value of a decimal digit, ['0'] to ['9']. *)
Definition digit_value (c : ascii) : option Z :=
  let n := nat_of_ascii c in
  if ((48 <=? n) && (n <=? 57))%nat then Some (Z.of_nat n - 48) else None.

(** [c.isdigit()]: a decimal digit, or one of the superscripts U+00B2,
    U+00B3 and U+00B9, which are digits without being decimal. *)
Definition isdigit_char (c : ascii) : bool :=
  let n := nat_of_ascii c in
  ((48 <=? n) && (n <=? 57) || (n =? 178) || (n =? 179) || (n =? 185))%nat.

(** [s.isdigit()]: every character is a digit and there is at least one. *)
Definition isdigit (s : string) : bool :=
  match list_ascii_of_string s with
  | [] => false
  | cs => forallb isdigit_char cs
  end.

(** The white space [int] strips from both ends of its argument: ASCII
    white space, U+0085 and U+00A0, but not U+001C to U+001F. *)
Definition int_space (c : ascii) : bool :=
  let n := nat_of_ascii c in
  ((9 <=? n) && (n <=? 13) || (n =? 32) || (n =? 133) || (n =? 160))%nat.

Fixpoint lstrip (cs : list ascii) : list ascii :=
  match cs with
  | [] => []
  | c :: cs' => if int_space c then lstrip cs' else cs
  end.

(** The digits of a literal: decimal digits, with single underscores
    allowed between two of them.  [after_digit] tells whether the character
    before was a digit. *)
Fixpoint int_digits (after_digit : bool) (cs : list ascii) (acc : list Z)
  : option (list Z) :=
  match cs with
  | [] => if after_digit then Some acc else None
  | c :: cs' =>
      if Ascii.eqb c "_" then
        if after_digit then int_digits false cs' acc else None
      else
        match digit_value c with
        | Some d => int_digits true cs' (acc ++ [d])
        | None => None
        end
  end.

(** [int(s)]: [ValueError] unless [s] is, between white space, an optional
    sign and a decimal literal, and also when the literal has more than
    4300 digits (the default limit of the interpreter on the conversion). *)
Definition int (s : string) : result Z :=
  let cs := reverse (lstrip (reverse (lstrip (list_ascii_of_string s)))) in
  let '(sign, cs) :=
    match cs with
    | c :: cs' =>
        if Ascii.eqb c "+" then (1, cs')
        else if Ascii.eqb c "-" then (-1, cs')
        else (1, cs)
    | [] => (1, cs)
    end in
  match int_digits false cs [] with
  | Some ds =>
      if (4300 <? length ds)%nat then Err ValueError
      else Ok (sign * foldl (λ acc d, 10 * acc + d) 0 ds)
  | None => Err ValueError
  end.

(** ** class User and its subclasses *)

Definition User_init (class : User.cls) (own_board opponent_board : addr) : M addr :=
  new_user (User.mk class own_board opponent_board None).

Definition Human_ask (fuel : nat) (self : addr) : M Dot :=
  while_true fuel
    (λ _ : unit,
       line ← input "Enter X Y:";
       let human_input := split line in
       if negb (length human_input =? 2)%nat then
         _ ← print "Please enter two numbers separated by space";
         mret (Continue tt)
       else if negb (forallb isdigit human_input) then
         _ ← print "Cannot parse input";
         mret (Continue tt)
       else
         match human_input with
         | [x; y] =>
             x ← lift (int x);
             y ← lift (int y);
             match Dot_init (x - 1) (y - 1) with
             | Ok target => mret (Return target)
             | Err ValueError => _ ← print "Invalid coordinates"; mret (Continue tt)
             | Err e => raise e
             end
         | _ => raise ValueError
         end)
    tt.

Definition Ai_ask (self : addr) : M Dot :=
  u ← get_user self;
  b ← get_board (User.own_board u);
  vx ← randint 0 (Board.size b);
  b ← get_board (User.own_board u);
  vy ← randint 0 (Board.size b);
  target ← lift (Dot_init vx vy);
  _ ← emit (AiTurn (Dot.x target + 1) (Dot.y target + 1));
  mret target.

(** [self.ask()], resolved by the class of [self]. *)
Definition User_ask (fuel : nat) (self : addr) : M Dot :=
  u ← get_user self;
  match User.class u with
  | User.Base => raise NotImplementedError
  | User.Human => Human_ask fuel self
  | User.Ai => Ai_ask self
  end.

(** One pass of the [while True] of [move]: the [try] statement. *)
Definition move_pass (fuel : nat) (self : addr) : M (control unit bool) :=
  try_except
    (target ← User_ask fuel self;
     u ← get_user self;
     shot_result ← Board_shot (User.opponent_board u) target;
     mret (target, shot_result))
    (λ e, match e with
          | BoardOutException =>
              Some (_ ← print "Target outside board"; mret (Continue tt))
          | DotAlreadyUsed =>
              Some (_ ← print "Target already used"; mret (Continue tt))
          | _ => None
          end)
    (λ '(target, shot_result),
       u ← get_user self;
       _ ← set_user self (User.set_last_target (Some target) u);
       mret (Return shot_result)).

Definition User_move (fuel : nat) (self : addr) : M bool :=
  while_true fuel (λ _ : unit, move_pass fuel self) tt.

(** ** class Game *)

Definition ships_template (size : Z) : list Z :=
  replicate (Z.to_nat (size `div` 8)) 4 ++ replicate (Z.to_nat (size `div` 4)) 3
  ++ replicate (Z.to_nat (size `div` 3)) 2 ++ replicate (Z.to_nat (size `div` 2 - 1)) 1.

(** One pass of the [while True] of [_random_board] for the template [t],
    entered with the running [counter].  The loop is left by [break] or by
    [return None]; the pass hands back which ([true] for [break]) and the
    counter as it then is. *)
Definition place_pass (size : Z) (board : addr) (t : Z) (counter : Z)
  : M (control Z (bool * Z)) :=
  let counter := counter + 1 in
  if counter >? (size + 1) ^ 2 then mret (Return (false, counter))
  else
    b ← get_board board;
    vx ← randint 0 (Board.size b - 1);
    b ← get_board board;
    vy ← randint 0 (Board.size b - 1);
    origin ← lift (Dot_init vx vy);
    o ← randint 0 1;
    s ← lift (Ship_init origin t o);
    ship ← new_ship s;
    try_except (Board_add_ship board ship)
      (λ e, match e with
            | BoardOutException => Some (mret (Continue counter))
            | ShipDotsOverlap => Some (mret (Continue counter))
            | _ => None
            end)
      (λ _, mret (Return (true, counter))).

(** The [while True] itself.  The counter grows at every pass and ends the
    loop beyond [(size+1)**2], which bounds the unrolling. *)
Definition place (size : Z) (board : addr) (t : Z) (counter : Z) : M (bool * Z) :=
  while_true (Z.to_nat ((size + 1) ^ 2 + 1)) (place_pass size board t) counter.

(** [_random_board].  Once a template has ended in [return None] the
    remaining templates are skipped and [None] is the result. *)
Definition Game__random_board (size : Z) (hidden : bool) : M (option addr) :=
  board ← Board_init size hidden;
  let counter := 0 in
  st ← for_M (S := bool * Z) (ships_template size)
         (λ t '(placing, counter),
            if placing : bool then place size board t counter
            else mret (false, counter))
         (true, counter);
  if (st.1 : bool) then mret (Some board) else (mret None : M (option addr)).

Definition Game_random_board (fuel : nat) (size : Z) (hidden : bool) : M addr :=
  while_true fuel
    (λ _ : unit,
       board ← Game__random_board size hidden;
       match board with
       | None => mret (Continue tt)
       | Some b => mret (Return b)
       end)
    tt.

Definition Game_init (fuel : nat) : M Game :=
  human_board ← Game_random_board fuel 10 false;
  ai_board ← Game_random_board fuel 10 true;
  human ← User_init User.Human human_board ai_board;
  ai ← User_init User.Ai ai_board human_board;
  mret (Game.mk human ai).

Definition Game_show (self : Game) : M unit :=
  _ ← emit Cls;
  _ ← print (String.concat "" (replicate 80 "_"%string));
  h ← get_user (Game.human self);
  live ← Board_live_ships (User.own_board h);
  a ← get_user (Game.ai self);
  _ ← emit (Status "Human" live (User.last_target a));
  _ ← Board_display (User.own_board h);
  a ← get_user (Game.ai self);
  live ← Board_live_ships (User.own_board a);
  h ← get_user (Game.human self);
  _ ← emit (Status "AI" live (User.last_target h));
  Board_display (User.own_board a).

(** One pass of the [while True] of [loop], entered with [turn]. *)
Definition loop_pass (fuel : nat) (self : Game) (turn : Z) : M (control Z unit) :=
  _ ← Game_show self;
  _ ← (if truthy (turn `mod` 2)
       then User_move fuel (Game.ai self)
       else User_move fuel (Game.human self));
  let turn := turn + 1 in
  h ← get_user (Game.human self);
  live ← Board_live_ships (User.own_board h);
  if live =? 0 then
    _ ← print "AI Win";
    mret (Return tt)
  else
    a ← get_user (Game.ai self);
    live ← Board_live_ships (User.own_board a);
    if live =? 0 then
      _ ← print "Human Win";
      mret (Return tt)
    else mret (Continue turn).

Definition Game_loop (fuel : nat) (self : Game) : M unit :=
  let turn := 0 in
  while_true fuel (loop_pass fuel self) turn.

(** * Vocabulary of the statements *)

(** The [i]-th dot of a ship, counted from its origin. *)
Definition cell (s : Ship) (i : Z) : Dot :=
  if truthy (Ship.orientation s)
  then Dot.mk (Dot.x (Ship.origin s)) (Dot.y (Ship.origin s) + i)
  else Dot.mk (Dot.x (Ship.origin s) + i) (Dot.y (Ship.origin s)).

Definition cells (s : Ship) : gset Dot := list_to_set (cell s <$> range (Ship.size s)).

(** The board a successful [add_ship] leaves. *)
Definition placed (ship : addr) (margin : gset Dot) (b : Board) : Board :=
  Board.mk (Board.size b) (Board.unavailable_dots b ∪ margin) (Board.used_dots b)
    (Board.ships b ++ [ship]) (Board.hidden b).

(** [d in s.dots], false when [dots] raises. *)
Definition occupies (s : Ship) (d : Dot) : bool :=
  match Ship_dots s with
  | Ok ds => bool_decide (d ∈ ds)
  | Err _ => false
  end.

(** The same ship, possibly with more damage. *)
Definition damaged (s s' : Ship) : Prop :=
  Ship.origin s' = Ship.origin s ∧ Ship.size s' = Ship.size s
  ∧ Ship.orientation s' = Ship.orientation s ∧ Ship.wreck s ⊆ Ship.wreck s'.

(** The same world, except that ships may have more damage. *)
Definition hits_only (w w' : World) : Prop :=
  (∀ r, damaged (ship_at w r) (ship_at w' r))
  ∧ dom (ship_store w) ⊆ dom (ship_store w')
  ∧ w' = on_ship_store (λ _, ship_store w') w.

(** Every ship of the fleet has its dots. *)
Definition fleet_ok (w : World) (fleet : list addr) : Prop :=
  ∀ r, r ∈ fleet → ∃ ds, Ship_dots (ship_at w r) = Ok ds.

(** The board a successful [shot] leaves. *)
Definition fired (target : Dot) (b : Board) : Board :=
  Board.set_used_dots ({[ target ]} ∪ Board.used_dots b) b.

(** Every ship of the fleet satisfies what its constructor checks. *)
Definition fleet_valid (w : World) (fleet : list addr) : Prop :=
  ∀ r, r ∈ fleet → Ship.valid (ship_at w r).

(** The occupied coordinates as the specification words them: the [L]
    coordinates from the origin [O] along the row, or along the column. *)
Definition horizontal_line (O : Dot) (L : Z) (d : Dot) : Prop :=
  ∃ i, 0 ≤ i < L ∧ d = Dot.mk (Dot.x O + i) (Dot.y O).
Definition vertical_line (O : Dot) (L : Z) (d : Dot) : Prop :=
  ∃ i, 0 ≤ i < L ∧ d = Dot.mk (Dot.x O) (Dot.y O + i).

(** A world with no object, nothing to read, and a tape of zeros. *)
Definition empty_world : World := mkWorld ∅ ∅ ∅ [] [] (λ _, 0) 0%nat.

(** A board of size 10 with two ships of one dot placed on it, at (0,0)
    and then at (5,5). *)
Definition two_ships : M (addr * addr * addr) :=
  board ← Board_init 10 false;
  origin1 ← lift (Dot_init 0 0);
  s1 ← lift (Ship_init origin1 1 0);
  ship1 ← new_ship s1;
  origin2 ← lift (Dot_init 5 5);
  s2 ← lift (Ship_init origin2 1 0);
  ship2 ← new_ship s2;
  _ ← Board_add_ship board ship1;
  _ ← Board_add_ship board ship2;
  mret (board, ship1, ship2).

(** A board of size 10 at address 0 that was shot at (1,1), whose blocked
    dots include (9,0); ship 0, two dots long at (2,2), is on it; ship 1,
    four dots long at (8,0), is not. *)
Definition sample_world : World :=
  mkWorld
    {[ 0%nat := Ship.mk (Dot.mk 2 2) 2 0 ∅; 1%nat := Ship.mk (Dot.mk 8 0) 4 0 ∅ ]}
    {[ 0%nat := Board.mk 10 {[ Dot.mk 9 0 ]} {[ Dot.mk 1 1 ]} [0%nat] false;
       1%nat := Board.mk 10 ∅ ∅ [] false ]}
    ∅ [] [] (λ _, 0) 0%nat.

(** The worlds in which the board at [board] has been created and then
    used only through [add_ship] and [shot] calls that returned, ships
    being constructed along the way. *)
Inductive reachable (board : addr) : World → Prop :=
  | reach_init w0 size hidden w :
      Board_init size hidden w0 = (Ret board, w) →
      reachable board w
  | reach_new_ship w x y origin size orientation s ship w' :
      reachable board w →
      Dot_init x y = Ok origin →
      Ship_init origin size orientation = Ok s →
      new_ship s w = (Ret ship, w') →
      reachable board w'
  | reach_add_ship w ship w' :
      reachable board w →
      ship ∈ dom (ship_store w) →
      Board_add_ship board ship w = (Ret tt, w') →
      reachable board w'
  | reach_shot w target res w' :
      reachable board w →
      Board_shot board target w = (Ret res, w') →
      reachable board w'.

(** What placement maintains: every ship of the board is allocated, has
    its dots inside the board and its margins among the unavailable dots. *)
Definition ship_placed (w : World) (b : Board) (r : addr) : Prop :=
  r ∈ dom (ship_store w)
  ∧ ∃ ds margin,
      Ship_dots (ship_at w r) = Ok ds
      ∧ Ship_margins (ship_at w r) 1 = Ok margin
      ∧ (∀ d, d ∈ ds → Board_out b d = false)
      ∧ margin ⊆ Board.unavailable_dots b.

(** Ships at two different positions of the fleet have disjoint margins. *)
Definition margins_apart (w : World) (fleet : list addr) : Prop :=
  ∀ i j ri rj, i ≠ j → fleet !! i = Some ri → fleet !! j = Some rj →
    ∃ mi mj, Ship_margins (ship_at w ri) 1 = Ok mi
             ∧ Ship_margins (ship_at w rj) 1 = Ok mj
             ∧ mi ## mj.

Definition placement_inv (w : World) (board : addr) : Prop :=
  (∀ r, r ∈ Board.ships (board_at w board) → ship_placed w (board_at w board) r)
  ∧ margins_apart w (Board.ships (board_at w board)).

(** The same world with another tape behind [randint]. *)
Definition with_tape (tp : nat → Z) (w : World) : World :=
  mkWorld (ship_store w) (board_store w) (user_store w)
    (stdin w) (stdout w) tp (cursor w).

(** A world with an automated player at address 0 whose own board, at
    address 0, has size 10. *)
Definition ai_world : World :=
  mkWorld ∅ {[ 0%nat := Board.mk 10 ∅ ∅ [] true; 1%nat := Board.mk 10 ∅ ∅ [] false ]}
    {[ 0%nat := User.mk User.Ai 0%nat 1%nat None ]} [] [] (λ n, Z.of_nat n + 7) 0%nat.

(** The passes of the retry loop that each template took in a run of the
    [for] loop of [_random_board] entered with [counter]: the growth of the
    counter while that template was being placed. *)
Fixpoint passes (size : Z) (board : addr) (ts : list Z) (counter : Z) (w : World)
  : list Z :=
  match ts with
  | [] => []
  | t :: ts' =>
      match place size board t counter w with
      | (Ret (placing, counter'), w') =>
          (counter' - counter)
            :: (if placing : bool then passes size board ts' counter' w' else [])
      | _ => []
      end
  end.

Definition total (ns : list Z) : Z := foldr Z.add 0 ns.

(** The ships constructed between two worlds.  [_random_board] constructs
    one ship for each placement attempt, whether [add_ship] then accepts it
    or not, so this counts the attempts without looking at the counter. *)
Definition ships_built (w w' : World) : Z :=
  Z.of_nat (size (dom (ship_store w'))) - Z.of_nat (size (dom (ship_store w))).

(** What [live_ships] computes, as a function of the world. *)
Definition live_step (w : World) (ship : addr) (acc : list addr) : result (list addr) :=
  a ← Ship_isalive (ship_at w ship);
  Ok (if a : bool then acc ++ [ship] else acc).

Definition live_count (w : World) (b : addr) : result Z :=
  alive ← for_result (Board.ships (board_at w b)) (live_step w) [];
  Ok (Z.of_nat (length alive)).

(** The worlds a match can move to: ships keep their place and may take
    damage, boards keep their fleets, players keep their boards. *)
Definition wears (w w' : World) : Prop :=
  (∀ r, damaged (ship_at w r) (ship_at w' r))
  ∧ (∀ b, Board.ships (board_at w' b) = Board.ships (board_at w b))
  ∧ (∀ u, User.own_board (user_at w' u) = User.own_board (user_at w u)).

Definition preserves {A : Type} (m : M A) : Prop :=
  ∀ w o w', m w = (o, w') → wears w w'.


(** A match whose human side has no ship: the human player, at address 0,
    owns the empty board 0 and fires on board 1, which holds a ship of one
    dot at (5,5); the automated player, at address 1, owns board 1.  The
    console holds the line "1 1". *)
Definition lost_world : World :=
  mkWorld
    {[ 0%nat := Ship.mk (Dot.mk 5 5) 1 0 ∅ ]}
    {[ 0%nat := Board.mk 10 ∅ ∅ [] false;
       1%nat := Board.mk 10 ∅ ∅ [0%nat] true ]}
    {[ 0%nat := User.mk User.Human 0%nat 1%nat None;
       1%nat := User.mk User.Ai 1%nat 0%nat None ]}
    ["1 1"%string] [] (λ _, 0) 0%nat.

Definition lost_game : Game := Game.mk 0%nat 1%nat.

(** The world [two_ships] leaves: board 0 with ships 0 and 1 on it. *)
Definition two_ships_world : World := (two_ships empty_world).2.

(** A board as [_random_board] builds it: of the given size and display
    mode, never shot at, its ships constructed, undamaged, and of the sizes
    [ts] in the order of placement. *)
Definition fleet_intact (w : World) (board : addr) (size : Z) (hidden : bool)
    (ts : list Z) : Prop :=
  Board.size (board_at w board) = size
  ∧ Board.hidden (board_at w board) = hidden
  ∧ Board.used_dots (board_at w board) = ∅
  ∧ (λ r, Ship.size (ship_at w r)) <$> Board.ships (board_at w board) = ts
  ∧ ∀ r, r ∈ Board.ships (board_at w board) →
         Ship.valid (ship_at w r) ∧ Ship.wreck (ship_at w r) = ∅.

(** A world whose generator draws, ship after ship, an origin and an
    orientation that fit a board of size 10 at the first attempt, and then
    the same draws again. *)
Definition fleet_tape (n : nat) : Z :=
  nth (n `mod` 30)%nat
    [0; 0; 0;  6; 0; 0;  0; 3; 0;  5; 3; 0;  0; 6; 0;
     4; 6; 0;  9; 3; 0;  8; 6; 0;  0; 9; 0;  3; 9; 0] 0.

Definition fleet_world : World := with_tape fleet_tape empty_world.

(** A computation keeps [P] when every world it can end in, whatever the
    outcome, satisfies [P] if the world it started in did. *)
Definition invariant {A : Type} (P : World → Prop) (m : M A) : Prop :=
  ∀ w o w', P w → m w = (o, w') → P w'.

(** [w'] has every board and every ship of [w], unchanged. *)
Definition keeps (w w' : World) : Prop :=
  dom (board_store w) ⊆ dom (board_store w')
  ∧ dom (ship_store w) ⊆ dom (ship_store w')
  ∧ (∀ b, b ∈ dom (board_store w) → board_at w' b = board_at w b)
  ∧ (∀ r, r ∈ dom (ship_store w) → ship_at w' r = ship_at w r).

(** The same, for a world in which the board at [b0] has since been
    created. *)
Definition keeps_beside (w0 : World) (b0 : addr) (w : World) : Prop :=
  keeps w0 w ∧ b0 ∈ dom (board_store w).

(** A string of decimal digits only, and the number it writes. *)
Definition decimal (s : string) : bool :=
  forallb (λ c, bool_decide (is_Some (digit_value c))) (list_ascii_of_string s).
Definition number (s : string) : Z :=
  foldl (λ acc d, 10 * acc + d) 0
    ((λ c, default 0 (digit_value c)) <$> list_ascii_of_string s).

(** * The grid of [display] in the statements *)


(** The cell of a grid at a dot: row [y], column [x]. *)
Definition grid_at (d : grid) (dot : Dot) : option mark :=
  row ← d !! Z.to_nat (Dot.y dot); row !! Z.to_nat (Dot.x dot).

(** A ship of the fleet has [dot] among its dots, and has it in its wreck. *)
Definition fleet_occupies (w : World) (fleet : list addr) (dot : Dot) : bool :=
  existsb (λ r, occupies (ship_at w r) dot) fleet.
Definition fleet_wrecked (w : World) (fleet : list addr) (dot : Dot) : bool :=
  existsb (λ r, occupies (ship_at w r) dot
                && bool_decide (dot ∈ Ship.wreck (ship_at w r))) fleet.

(** What there is to see of a board at a dot: a wrecked dot of a ship; on
    a board that is not hidden, an intact dot of a ship; a shot that wrecked
    nothing shown; nothing. *)
Definition shown (w : World) (b : Board) (dot : Dot) : mark :=
  if fleet_wrecked w (Board.ships b) dot then Wrecked
  else if negb (Board.hidden b) && fleet_occupies w (Board.ships b) dot then Hull
  else if bool_decide (dot ∈ Board.used_dots b) then Shot
  else Blank.

(** A hidden board of size 10 at address 0: ship 0, two dots long at (2,2),
    is on it with (2,2) wrecked; (2,2) and (0,0) were shot. *)
Definition hidden_world : World :=
  mkWorld
    {[ 0%nat := Ship.mk (Dot.mk 2 2) 2 0 {[ Dot.mk 2 2 ]} ]}
    {[ 0%nat := Board.mk 10 ∅ {[ Dot.mk 2 2; Dot.mk 0 0 ]} [0%nat] true ]}
    ∅ [] [] (λ _, 0) 0%nat.

(** A grid of [n] rows of [n] cells. *)
Definition square_grid (n : nat) (d : grid) : Prop :=
  length d = n ∧ Forall (λ row, length row = n) d.

(** No intact dot of a ship is to be seen in the grid. *)
Definition no_hull (d : grid) : Prop := Forall (Forall (λ m, m ≠ Hull)) d.

(** No dot belongs to ships at two positions of the fleet. *)
Definition dots_apart (w : World) (fleet : list addr) : Prop :=
  ∀ i j ri rj dot, i ≠ j → fleet !! i = Some ri → fleet !! j = Some rj →
    occupies (ship_at w ri) dot = true → occupies (ship_at w rj) dot = false.

(** [two_ships_world] after a shot at (5,5), where the second ship is, and
    a shot at (3,0), where no ship is. *)
Definition shot_world : World :=
  (Board_shot 0%nat (Dot.mk 3 0) (Board_shot 0%nat (Dot.mk 5 5) two_ships_world).2).2.

(** * Lemmas *)

(** ** Running computations *)

Lemma run_bind {A B : Type} (m : M A) (f : A → M B) (w : World) :
  (m ≫= f) w =
  match m w with
  | (Ret a, w') => f a w'
  | (Raise e, w') => (Raise e, w')
  | (Fuel, w') => (Fuel, w')
  end.
Proof. reflexivity. Qed.

Lemma run_ret {A : Type} (a : A) (w : World) : (mret a : M A) w = (Ret a, w).
Proof. reflexivity. Qed.

Lemma run_raise {A : Type} (e : exn) (w : World) : (raise e : M A) w = (Raise e, w).
Proof. reflexivity. Qed.

Lemma run_gets {A : Type} (f : World → A) (w : World) : gets f w = (Ret (f w), w).
Proof. reflexivity. Qed.

Lemma run_modify (f : World → World) (w : World) : modify f w = (Ret tt, f w).
Proof. reflexivity. Qed.

Lemma run_get_ship r w : get_ship r w = (Ret (ship_at w r), w).
Proof. reflexivity. Qed.

Lemma run_get_board b w : get_board b w = (Ret (board_at w b), w).
Proof. reflexivity. Qed.

Lemma run_get_user u w : get_user u w = (Ret (user_at w u), w).
Proof. reflexivity. Qed.

Lemma run_set_ship r s w : set_ship r s w = (Ret tt, on_ship_store <[r := s]> w).
Proof. reflexivity. Qed.

Lemma run_set_board b v w : set_board b v w = (Ret tt, on_board_store <[b := v]> w).
Proof. reflexivity. Qed.

Lemma run_set_user u v w : set_user u v w = (Ret tt, on_user_store <[u := v]> w).
Proof. reflexivity. Qed.

Lemma run_lift_Ok {A : Type} (a : A) (w : World) : lift (Ok a) w = (Ret a, w).
Proof. reflexivity. Qed.

Lemma run_lift_Err {A : Type} (e : exn) (w : World) : lift (Err e : result A) w = (Raise e, w).
Proof. reflexivity. Qed.

Lemma run_emit o w : emit o w = (Ret tt, on_stdout (λ l, l ++ [o]) w).
Proof. reflexivity. Qed.

Create Rewrite HintDb run.
Hint Rewrite @run_bind @run_ret @run_raise @run_gets @run_modify
  run_get_ship run_get_board run_get_user run_set_ship run_set_board run_set_user
  @run_lift_Ok @run_lift_Err run_emit : run.

Ltac run := autorewrite with run; cbv beta iota.

(** Reading back what was written. *)
Lemma board_at_insert w b v : board_at (on_board_store <[b := v]> w) b = v.
Proof. unfold board_at. simpl. apply lookup_total_insert_eq. Qed.

Lemma board_at_insert_ne w b b' v :
  b ≠ b' → board_at (on_board_store <[b := v]> w) b' = board_at w b'.
Proof. intros. unfold board_at. simpl. by apply lookup_total_insert_ne. Qed.

Lemma ship_at_insert w r s : ship_at (on_ship_store <[r := s]> w) r = s.
Proof. unfold ship_at. simpl. apply lookup_total_insert_eq. Qed.

Lemma ship_at_insert_ne w r r' s :
  r ≠ r' → ship_at (on_ship_store <[r := s]> w) r' = ship_at w r'.
Proof. intros. unfold ship_at. simpl. by apply lookup_total_insert_ne. Qed.


Lemma board_at_on_ship_store f w b : board_at (on_ship_store f w) b = board_at w b.
Proof. reflexivity. Qed.

Lemma ship_at_on_board_store f w r : ship_at (on_board_store f w) r = ship_at w r.
Proof. reflexivity. Qed.

Lemma on_board_store_twice w b v v' :
  on_board_store <[b := v']> (on_board_store <[b := v]> w) = on_board_store <[b := v']> w.
Proof. unfold on_board_store. simpl. by rewrite insert_insert_eq. Qed.

(** ** Geometry of a ship *)

Lemma Dot_init_Ok x y : 0 ≤ x → 0 ≤ y → Dot_init x y = Ok (Dot.mk x y).
Proof.
  intros Hx Hy. unfold Dot_init.
  destruct (Z.geb_spec x 0); [|lia]. destruct (Z.geb_spec y 0); [done|lia].
Qed.

Lemma Dot_init_inv x y d : Dot_init x y = Ok d → d = Dot.mk x y ∧ 0 ≤ x ∧ 0 ≤ y.
Proof.
  unfold Dot_init.
  destruct (Z.geb_spec x 0); [|done]. destruct (Z.geb_spec y 0); [|done].
  intros [= <-]. split; [done|lia].
Qed.

Lemma Dot_init_Err x y e : Dot_init x y = Err e → e = ValueError ∧ (x < 0 ∨ y < 0).
Proof.
  unfold Dot_init.
  destruct (Z.geb_spec x 0); [|intros [= <-]; split; [done|lia]].
  destruct (Z.geb_spec y 0); [done|]. intros [= <-]. split; [done|lia].
Qed.

Lemma elem_of_range i n : i ∈ range n ↔ 0 ≤ i < n.
Proof. unfold range. rewrite elem_of_seqZ. lia. Qed.

Lemma elem_of_cells s d : d ∈ cells s ↔ ∃ i, 0 ≤ i < Ship.size s ∧ d = cell s i.
Proof.
  unfold cells. rewrite elem_of_list_to_set, list_elem_of_fmap.
  split; intros (i & H1 & H2); exists i.
  - by rewrite <- elem_of_range.
  - by rewrite elem_of_range.
Qed.

Lemma dots_step_Ok s i acc :
  Dot.valid (Ship.origin s) → 0 ≤ i → dots_step s i acc = Ok ({[ cell s i ]} ∪ acc).
Proof.
  intros [Hx Hy] Hi. unfold dots_step, cell.
  destruct (truthy _); rewrite Dot_init_Ok by lia; done.
Qed.

Lemma dots_loop s xs acc :
  Dot.valid (Ship.origin s) → (∀ i, i ∈ xs → 0 ≤ i) →
  for_result xs (dots_step s) acc = Ok (list_to_set (cell s <$> xs) ∪ acc).
Proof.
  intros Ho. revert acc. induction xs as [|i xs IH]; intros acc Hxs; simpl.
  - f_equal. set_solver.
  - rewrite dots_step_Ok by (done || apply Hxs; left).
    rewrite IH by (intros j Hj; apply Hxs; by right).
    f_equal. set_solver.
Qed.

(** A ship's [dots] never raises and is the set of its cells. *)
Lemma Ship_dots_cells s : Dot.valid (Ship.origin s) → Ship_dots s = Ok (cells s).
Proof.
  intros Ho. unfold Ship_dots. rewrite dots_loop.
  - unfold cells. f_equal. set_solver.
  - done.
  - intros i Hi. apply elem_of_range in Hi. lia.
Qed.

(** Neither [dots] nor [margins] reads the wreck. *)
Lemma Ship_dots_set_wreck v s : Ship_dots (Ship.set_wreck v s) = Ship_dots s.
Proof. reflexivity. Qed.

Lemma Ship_margins_set_wreck v s n :
  Ship_margins (Ship.set_wreck v s) n = Ship_margins s n.
Proof. reflexivity. Qed.

(** The loops of [margins] cannot raise: the only exception of their body
    is the [ValueError] it catches. *)
Lemma margins_inner_total (cs : list (Z * Z)) (acc : gset Dot) :
  ∃ r, for_result cs margins_step acc = Ok r.
Proof.
  revert acc. induction cs as [|c cs IH]; intros acc; simpl; [by eexists|].
  unfold margins_step at 1.
  destruct (Dot_init c.1 c.2) as [p|e] eqn:E; [apply IH|].
  apply Dot_init_Err in E as [-> _]. apply IH.
Qed.

Lemma margins_outer_total (ds : list Dot) (n : Z) (acc : gset Dot) :
  ∃ r, for_result ds
         (λ d margin_dots, for_result (square d n) margins_step margin_dots) acc = Ok r.
Proof.
  revert acc. induction ds as [|d ds IH]; intros acc; simpl; [by eexists|].
  destruct (margins_inner_total (square d n) acc) as [r ->]. apply IH.
Qed.

Lemma Ship_margins_total s n ds :
  1 ≤ n → Ship_dots s = Ok ds → ∃ margin, Ship_margins s n = Ok margin.
Proof.
  intros Hn Hds. unfold Ship_margins.
  destruct (Z.ltb_spec n 1); [lia|]. rewrite Hds. simpl.
  apply margins_outer_total.
Qed.

(** What the loops of [margins] collect. *)
Lemma elem_of_square d n c :
  c ∈ square d n ↔
  ∃ i j, (- n ≤ i ≤ n) ∧ (- n ≤ j ≤ n) ∧ c = (Dot.x d + i, Dot.y d + j).
Proof.
  unfold square, range2. rewrite list_elem_of_bind. split.
  - intros (i & Hj & Hi). apply list_elem_of_bind in Hj as (j & Hc & Hj).
    apply list_elem_of_singleton in Hc. apply elem_of_seqZ in Hi, Hj.
    exists i, j. repeat split; (done || lia).
  - intros (i & j & Hi & Hj & ->). exists i. split; [|apply elem_of_seqZ; lia].
    apply list_elem_of_bind. exists j. split; [by apply list_elem_of_singleton|].
    apply elem_of_seqZ. lia.
Qed.

Lemma margins_inner_elem (cs : list (Z * Z)) (acc r : gset Dot) p :
  for_result cs margins_step acc = Ok r →
  p ∈ r ↔ p ∈ acc ∨ ∃ c, c ∈ cs ∧ 0 ≤ c.1 ∧ 0 ≤ c.2 ∧ p = Dot.mk c.1 c.2.
Proof.
  revert acc. induction cs as [|c cs IH]; intros acc; simpl.
  - intros [= <-]. split; [by left|]. intros [H|(c & Hc & _)]; [done|].
    by apply not_elem_of_nil in Hc.
  - unfold margins_step at 1. destruct (Dot_init c.1 c.2) as [q|e] eqn:E.
    + apply Dot_init_inv in E as (-> & Hx & Hy). intros H. rewrite (IH _ H).
      rewrite elem_of_union, elem_of_singleton. split.
      * intros [[->|Hp]|(c' & Hc' & H')]; [right|by left|right].
        -- exists c. repeat split; (done || by left).
        -- exists c'. split; [by right|done].
      * intros [Hp|(c' & Hc' & Hx' & Hy' & ->)]; [by left; right|].
        apply elem_of_cons in Hc' as [->|Hc']; [by left; left|].
        right. by exists c'.
    + apply Dot_init_Err in E as (-> & Hneg). intros H. rewrite (IH _ H). split.
      * intros [Hp|(c' & Hc' & H')]; [by left|right].
        exists c'. split; [by right|done].
      * intros [Hp|(c' & Hc' & Hx' & Hy' & ->)]; [by left|].
        apply elem_of_cons in Hc' as [->|Hc']; [lia|].
        right. by exists c'.
Qed.

Lemma margins_outer_elem (ds : list Dot) (n : Z) (acc r : gset Dot) p :
  for_result ds (λ d margin_dots, for_result (square d n) margins_step margin_dots) acc
    = Ok r →
  p ∈ r ↔ p ∈ acc ∨ ∃ d c, d ∈ ds ∧ c ∈ square d n ∧ 0 ≤ c.1 ∧ 0 ≤ c.2
                          ∧ p = Dot.mk c.1 c.2.
Proof.
  revert acc. induction ds as [|d ds IH]; intros acc; simpl.
  - intros [= <-]. split; [by left|]. intros [H|(d & c & Hd & _)]; [done|].
    by apply not_elem_of_nil in Hd.
  - destruct (for_result (square d n) margins_step acc) as [acc'|e] eqn:E; [|done].
    intros H. rewrite (IH _ H). rewrite (margins_inner_elem _ _ _ p E). split.
    + intros [[Hp|(c & Hc & H')]|(d' & c & Hd' & H')]; [by left|right..].
      * exists d, c. split; [by left|done].
      * exists d', c. split; [by right|done].
    + intros [Hp|(d' & c & Hd' & Hc & H')]; [by left; left|].
      apply elem_of_cons in Hd' as [->|Hd'].
      * left. right. by exists c.
      * right. by exists d', c.
Qed.

(** The margins of a ship: the dots at distance at most [n] on both axes
    from one of its dots, with no negative component. *)
Lemma elem_of_margins s n ds margin p :
  Ship_dots s = Ok ds → Ship_margins s n = Ok margin →
  p ∈ margin ↔
  ∃ d i j, d ∈ ds ∧ (- n ≤ i ≤ n) ∧ (- n ≤ j ≤ n)
           ∧ 0 ≤ Dot.x d + i ∧ 0 ≤ Dot.y d + j
           ∧ p = Dot.mk (Dot.x d + i) (Dot.y d + j).
Proof.
  intros Hds. unfold Ship_margins. destruct (n <? 1); [done|].
  rewrite Hds. simpl. intros H. rewrite (margins_outer_elem _ _ _ _ p H). split.
  - intros [Hp|(d & c & Hd & Hc & Hx & Hy & ->)]; [done|].
    apply elem_of_square in Hc as (i & j & Hi & Hj & ->).
    exists d, i, j. by apply elem_of_elements in Hd.
  - intros (d & i & j & Hd & Hi & Hj & Hx & Hy & ->). right.
    exists d, (Dot.x d + i, Dot.y d + j). split; [by apply elem_of_elements|].
    split; [|done]. apply elem_of_square. by exists i, j.
Qed.

(** The dots of a constructed ship are among its margins. *)
Lemma cells_in_margins s n margin d :
  Ship.valid s → Ship_margins s n = Ok margin → 0 ≤ n → d ∈ cells s → d ∈ margin.
Proof.
  intros (Ho & _ & _) Hm Hn Hd.
  apply (elem_of_margins s n (cells s) margin d (Ship_dots_cells s Ho) Hm).
  exists d, 0, 0. split; [done|].
  apply elem_of_cells in Hd as (i & Hi & ->). destruct Ho as [Hx Hy].
  unfold cell. destruct (truthy _); simpl; repeat split; (lia || f_equal; lia).
Qed.

(** A constructed ship has its dots and its margins. *)
Lemma valid_ship_geometry s :
  Ship.valid s → ∃ margin, Ship_dots s = Ok (cells s) ∧ Ship_margins s 1 = Ok margin.
Proof.
  intros (Ho & _ & _).
  destruct (Ship_margins_total s 1 (cells s)) as [margin Hm];
    [lia | by apply Ship_dots_cells |].
  exists margin. split; [by apply Ship_dots_cells | done].
Qed.

Lemma Ship_init_valid origin size orientation s :
  Dot.valid origin → Ship_init origin size orientation = Ok s →
  Ship.valid s ∧ s = Ship.mk origin size orientation ∅.
Proof.
  intros Ho. unfold Ship_init.
  destruct (Z.geb_spec size 1); [|done].
  destruct (Z.eqb_spec orientation 0); simpl.
  - intros [= <-]. repeat split; simpl; [apply Ho..|lia|by left].
  - destruct (Z.eqb_spec orientation 1); [|done].
    intros [= <-]. repeat split; simpl; [apply Ho..|lia|by right].
Qed.

(** ** Placement *)

Lemma nonempty_true (X : gset Dot) : nonempty X = true ↔ X ≠ ∅.
Proof. unfold nonempty. rewrite negb_true_iff, bool_decide_eq_false. done. Qed.

Lemma nonempty_false (X : gset Dot) : nonempty X = false ↔ X = ∅.
Proof. unfold nonempty. rewrite negb_false_iff, bool_decide_eq_true. done. Qed.

Lemma existsb_out_true b (ds : gset Dot) :
  existsb (Board_out b) (elements ds) = true ↔ ∃ d, d ∈ ds ∧ Board_out b d = true.
Proof.
  rewrite existsb_exists. split; intros (d & H1 & H2); exists d.
  - split; [|done]. apply elem_of_elements. by apply list_elem_of_In.
  - split; [|done]. apply list_elem_of_In. by apply elem_of_elements.
Qed.

Lemma existsb_out_false b (ds : gset Dot) :
  existsb (Board_out b) (elements ds) = false ↔ ∀ d, d ∈ ds → Board_out b d = false.
Proof.
  rewrite <- not_true_iff_false, existsb_out_true. split.
  - intros H d Hd. apply not_true_iff_false. intros Ho. apply H. eauto.
  - intros H (d & Hd & Ho). rewrite (H d Hd) in Ho. done.
Qed.

Lemma Board_out_false b d :
  Board_out b d = false ↔
  (0 ≤ Dot.x d < Board.size b) ∧ (0 ≤ Dot.y d < Board.size b).
Proof.
  unfold Board_out. rewrite negb_false_iff, !andb_true_iff.
  rewrite !Z.leb_le, !Z.ltb_lt. lia.
Qed.

(** [add_ship] by cases, for a ship whose dots and margins are known. *)
Lemma add_ship_cases w self ship ds margin :
  Ship_dots (ship_at w ship) = Ok ds →
  Ship_margins (ship_at w ship) 1 = Ok margin →
  Board_add_ship self ship w =
    if nonempty (Board.unavailable_dots (board_at w self) ∩ margin)
    then (Raise ShipDotsOverlap, w)
    else if existsb (Board_out (board_at w self)) (elements ds)
    then (Raise BoardOutException, w)
    else (Ret tt, on_board_store <[self := placed ship margin (board_at w self)]> w).
Proof.
  intros Hds Hm. unfold Board_add_ship. run. rewrite Hm. run.
  destruct (nonempty _); run; [done|].
  rewrite Hds. run.
  destruct (existsb _ _); run; [done|].
  by rewrite board_at_insert, on_board_store_twice.
Qed.

(** A raising [add_ship] has written nothing. *)
Lemma add_ship_raise_unchanged w self ship e w' :
  Board_add_ship self ship w = (Raise e, w') → w' = w.
Proof.
  unfold Board_add_ship. run.
  destruct (Ship_margins (ship_at w ship) 1) as [margin|e1] eqn:Hm; run;
    [|by intros [= _ <-]].
  destruct (nonempty _); run; [by intros [= _ <-]|].
  destruct (Ship_dots (ship_at w ship)) as [ds|e2] eqn:Hds; run;
    [|by intros [= _ <-]].
  destruct (existsb _ _); run; [by intros [= _ <-]|done].
Qed.

(** ** Shots *)

Lemma damaged_refl s : damaged s s.
Proof. by repeat split. Qed.

Lemma damaged_trans s1 s2 s3 : damaged s1 s2 → damaged s2 s3 → damaged s1 s3.
Proof.
  intros (? & ? & ? & ?) (? & ? & ? & ?). repeat split; [congruence..|set_solver].
Qed.

Lemma damaged_dots s s' : damaged s s' → Ship_dots s' = Ship_dots s.
Proof.
  destruct s, s'. intros (? & ? & ? & _). simpl in *. subst. reflexivity.
Qed.

Lemma damaged_margins s s' n : damaged s s' → Ship_margins s' n = Ship_margins s n.
Proof.
  destruct s, s'. intros (? & ? & ? & _). simpl in *. subst. reflexivity.
Qed.

Lemma damaged_occupies s s' d : damaged s s' → occupies s' d = occupies s d.
Proof. intros H. unfold occupies. by rewrite (damaged_dots s s'). Qed.

Lemma damaged_valid s s' : damaged s s' → Ship.valid s → Ship.valid s'.
Proof.
  intros (H1 & H2 & H3 & _) Hv. unfold Ship.valid. by rewrite H1, H2, H3.
Qed.

Lemma hits_only_refl w : hits_only w w.
Proof. split; [intros; apply damaged_refl | split; [done | by destruct w]]. Qed.

Lemma hits_only_trans w1 w2 w3 : hits_only w1 w2 → hits_only w2 w3 → hits_only w1 w3.
Proof.
  intros (H1 & D1 & E1) (H2 & D2 & E2). split; [|split].
  - intros r. eapply damaged_trans; [apply H1 | apply H2].
  - set_solver.
  - rewrite E2 at 1. rewrite E1 at 1. reflexivity.
Qed.

Lemma hits_only_board w w' b : hits_only w w' → board_at w' b = board_at w b.
Proof. intros (_ & _ & ->). reflexivity. Qed.

(** [hit] by cases. *)
Lemma Ship_hit_cases self hit w :
  Ship_hit self hit w =
  match Ship_dots (ship_at w self) with
  | Ok ds =>
      if bool_decide (hit ∈ ds)
      then (Ret true,
            on_ship_store
              <[self := Ship.set_wreck ({[ hit ]} ∪ Ship.wreck (ship_at w self))
                          (ship_at w self)]> w)
      else (Ret false, w)
  | Err e => (Raise e, w)
  end.
Proof.
  unfold Ship_hit. run. destruct (Ship_dots _); run; [|done].
  destruct (bool_decide _); run; done.
Qed.

Lemma Ship_hit_frame self hit w o w' :
  Ship_hit self hit w = (o, w') → hits_only w w'.
Proof.
  rewrite Ship_hit_cases. destruct (Ship_dots _) as [ds|e].
  - destruct (bool_decide _); intros [= <- <-]; [|apply hits_only_refl].
    split; [|split; [simpl; set_solver|done]].
    intros r. destruct (decide (self = r)) as [->|Hne].
    + rewrite ship_at_insert. repeat split; simpl. set_solver.
    + rewrite ship_at_insert_ne by done. apply damaged_refl.
  - intros [= <- <-]. apply hits_only_refl.
Qed.

Lemma Ship_hit_result self hit w ds :
  Ship_dots (ship_at w self) = Ok ds →
  ∃ w', Ship_hit self hit w = (Ret (occupies (ship_at w self) hit), w').
Proof.
  intros Hds. rewrite Ship_hit_cases. unfold occupies. rewrite Hds.
  destruct (bool_decide _); eauto.
Qed.

(** The loop of [shot] over the fleet. *)
Lemma hits_loop_frame (fleet : list addr) target acc w o w' :
  for_M fleet (λ ship _, Ship_hit ship target) acc w = (o, w') → hits_only w w'.
Proof.
  revert acc w. induction fleet as [|r fleet IH]; intros acc w; simpl.
  - intros [= <- <-]. apply hits_only_refl.
  - run. destruct (Ship_hit r target w) as [[a| |] w1] eqn:E.
    + intros H. eapply hits_only_trans; [by eapply Ship_hit_frame | by eapply IH].
    + intros [= <- <-]. by eapply Ship_hit_frame.
    + intros [= <- <-]. by eapply Ship_hit_frame.
Qed.

Lemma fleet_ok_hits_only w w' fleet : hits_only w w' → fleet_ok w fleet → fleet_ok w' fleet.
Proof.
  intros (H & _) Hok r Hr. destruct (Hok r Hr) as [ds Hds]. exists ds.
  by rewrite (damaged_dots _ _ (H r)).
Qed.

(** The loop keeps the answer of the last ship of the fleet, and the
    initial [False] when the fleet is empty. *)
Lemma hits_loop_result (fleet : list addr) target acc w :
  fleet_ok w fleet →
  ∃ w', for_M fleet (λ ship _, Ship_hit ship target) acc w =
          (Ret (default acc ((λ r, occupies (ship_at w r) target) <$> last fleet)), w').
Proof.
  revert acc w. induction fleet as [|r fleet IH]; intros acc w Hok; simpl.
  - eexists. reflexivity.
  - run. destruct (Hok r) as [ds Hds]; [by left|].
    destruct (Ship_hit_result r target w ds Hds) as [w1 E]. rewrite E.
    assert (hits_only w w1) as Hw by (by eapply Ship_hit_frame).
    destruct (IH (occupies (ship_at w r) target) w1) as [w' E'].
    { eapply fleet_ok_hits_only; [done|]. intros r' Hr'. apply Hok. by right. }
    exists w'. rewrite E'. do 2 f_equal.
    destruct fleet as [|r' fleet']; [done|].
    change (last (r :: r' :: fleet')) with (last (r' :: fleet')).
    destruct (last (r' :: fleet')) as [rl|] eqn:El; simpl;
      [|by apply last_None in El].
    destruct Hw as (Hw & _). by rewrite (damaged_occupies _ _ _ (Hw rl)).
Qed.

(** The two refusals of [shot], in the order the code tests them. *)
Lemma shot_out w self target :
  Board_out (board_at w self) target = true →
  Board_shot self target w = (Raise BoardOutException, w).
Proof. intros H. unfold Board_shot. run. by rewrite H. Qed.

Lemma shot_used w self target :
  Board_out (board_at w self) target = false →
  target ∈ Board.used_dots (board_at w self) →
  Board_shot self target w = (Raise DotAlreadyUsed, w).
Proof.
  intros H1 H2. unfold Board_shot. run. rewrite H1.
  by rewrite bool_decide_eq_true_2.
Qed.

(** A [shot] that returns was in bounds and new, and its only write to the
    boards is the target added to the used dots. *)
Lemma shot_returns_inv w self target res w' :
  Board_shot self target w = (Ret res, w') →
  Board_out (board_at w self) target = false
  ∧ (target ∉ Board.used_dots (board_at w self))
  ∧ (∃ w1, hits_only w w1
           ∧ w' = on_board_store <[self := fired target (board_at w self)]> w1).
Proof.
  unfold Board_shot. run.
  destruct (Board_out _ _) eqn:Ho; run; [done|].
  destruct (bool_decide _) eqn:Hu; run; [done|].
  apply bool_decide_eq_false in Hu.
  destruct (for_M _ _ _ _) as [[r| |] w1] eqn:E; run; [|done..].
  apply hits_loop_frame in E. rewrite (hits_only_board _ _ _ E).
  intros [= <- <-]. eauto.
Qed.

(** An in-bounds, new shot on a board whose ships have their dots returns
    the answer of the last ship. *)
Lemma shot_returns w self target :
  fleet_ok w (Board.ships (board_at w self)) →
  Board_out (board_at w self) target = false →
  target ∉ Board.used_dots (board_at w self) →
  ∃ w1, hits_only w w1
        ∧ Board_shot self target w =
            (Ret (default false ((λ r, occupies (ship_at w r) target)
                                   <$> last (Board.ships (board_at w self)))),
             on_board_store <[self := fired target (board_at w self)]> w1).
Proof.
  intros Hok Ho Hu. unfold Board_shot. run. rewrite Ho.
  rewrite bool_decide_eq_false_2 by done.
  destruct (hits_loop_result _ target false w Hok) as [w1 E].
  exists w1. assert (hits_only w w1) as Hw by (by eapply hits_loop_frame).
  split; [done|]. run. rewrite E. run. by rewrite (hits_only_board _ _ _ Hw).
Qed.

Lemma fleet_valid_ok w fleet : fleet_valid w fleet → fleet_ok w fleet.
Proof.
  intros Hv r Hr. destruct (valid_ship_geometry _ (Hv r Hr)) as (_ & Hds & _). eauto.
Qed.

Lemma cell_horizontal s i :
  Ship.orientation s = 0 →
  cell s i = Dot.mk (Dot.x (Ship.origin s) + i) (Dot.y (Ship.origin s)).
Proof. intros H. unfold cell. by rewrite H. Qed.

Lemma cell_vertical s i :
  Ship.orientation s = 1 →
  cell s i = Dot.mk (Dot.x (Ship.origin s)) (Dot.y (Ship.origin s) + i).
Proof. intros H. unfold cell. by rewrite H. Qed.

(** ** The placement invariant *)

Lemma Board_init_inv size hidden w0 board w :
  Board_init size hidden w0 = (Ret board, w) →
  10 ≤ size
  ∧ board = fresh (dom (board_store w0))
  ∧ w = on_board_store <[board := Board.mk size ∅ ∅ [] hidden]> w0.
Proof.
  unfold Board_init. destruct (Z.ltb_spec size 10); [done|].
  unfold new_board. intros [= <- <-]. done.
Qed.

Lemma placement_inv_init size hidden w0 board w :
  Board_init size hidden w0 = (Ret board, w) → placement_inv w board.
Proof.
  intros H. apply Board_init_inv in H as (_ & _ & ->).
  unfold placement_inv. rewrite board_at_insert. simpl. split.
  - intros r Hr. by apply not_elem_of_nil in Hr.
  - intros i j ri rj _ Hi. by rewrite lookup_nil in Hi.
Qed.

Lemma placement_inv_new_ship s ship w w' board :
  new_ship s w = (Ret ship, w') → placement_inv w board → placement_inv w' board.
Proof.
  unfold new_ship. intros [= <- <-] [Ha Hb].
  set (r0 := fresh (dom (ship_store w))).
  assert (∀ r, r ∈ Board.ships (board_at w board) →
            ship_at (on_ship_store <[r0 := s]> w) r = ship_at w r) as Hsame.
  { intros r Hr. apply ship_at_insert_ne. intros <-.
    destruct (Ha _ Hr) as [Hdom _]. by apply is_fresh in Hdom. }
  split.
  - rewrite board_at_on_ship_store. intros r Hr.
    destruct (Ha r Hr) as (Hdom & ds & margin & H).
    split; [simpl; set_solver|]. exists ds, margin. by rewrite Hsame.
  - rewrite board_at_on_ship_store. intros i j ri rj Hne Hi Hj.
    destruct (Hb i j ri rj Hne Hi Hj) as (mi & mj & H).
    exists mi, mj. rewrite !Hsame; [done|by eapply list_elem_of_lookup_2..].
Qed.

Lemma placement_inv_add_ship board ship w w' :
  Board_add_ship board ship w = (Ret tt, w') → ship ∈ dom (ship_store w) →
  placement_inv w board → placement_inv w' board.
Proof.
  intros H Hdom [Ha Hb].
  destruct (Ship_margins (ship_at w ship) 1) as [margin|e] eqn:Hm;
    [|by unfold Board_add_ship in H; revert H; run; rewrite Hm; run].
  destruct (Ship_dots (ship_at w ship)) as [ds|e] eqn:Hds.
  2:{ revert Hm. unfold Ship_margins. destruct (1 <? 1); [done|]. by rewrite Hds. }
  rewrite (add_ship_cases _ _ _ _ _ Hds Hm) in H.
  destruct (nonempty _) eqn:Hov; [done|]. apply nonempty_false in Hov.
  destruct (existsb _ _) eqn:Hout; [done|].
  assert (∀ d, d ∈ ds → Board_out (board_at w board) d = false) as Hin
    by (by apply existsb_out_false).
  injection H as <-. unfold placement_inv.
  rewrite board_at_insert. simpl. split.
  - intros r Hr. apply elem_of_app in Hr as [Hr|Hr].
    + destruct (Ha r Hr) as (Hd & ds' & margin' & H1 & H2 & H3 & H4).
      split; [done|]. exists ds', margin'. rewrite ship_at_on_board_store.
      repeat split; [done..|set_solver].
    + apply list_elem_of_singleton in Hr as ->.
      split; [done|]. exists ds, margin. rewrite ship_at_on_board_store.
      repeat split; [done..|set_solver].
  - intros i j ri rj Hne Hi Hj. rewrite !ship_at_on_board_store.
    assert (∀ k rk, Board.ships (board_at w board) !! k = Some rk →
              ∃ mk, Ship_margins (ship_at w rk) 1 = Ok mk ∧ mk ## margin) as Hold.
    { intros k rk Hk. destruct (Ha rk) as (_ & _ & mk & _ & Hmk & _ & Hsub);
        [by eapply list_elem_of_lookup_2|]. exists mk. split; [done|set_solver]. }
    apply lookup_app_Some in Hi as [Hi|[Hli Hi]];
      apply lookup_app_Some in Hj as [Hj|[Hlj Hj]].
    + by apply (Hb i j).
    + apply list_lookup_singleton_Some in Hj as [_ <-].
      destruct (Hold i ri Hi) as (mi & Hmi & Hd). by exists mi, margin.
    + apply list_lookup_singleton_Some in Hi as [_ <-].
      destruct (Hold j rj Hj) as (mj & Hmj & Hd). by exists margin, mj.
    + apply list_lookup_singleton_Some in Hi as [Hi _].
      apply list_lookup_singleton_Some in Hj as [Hj _]. lia.
Qed.

Lemma placement_inv_shot board target res w w' :
  Board_shot board target w = (Ret res, w') →
  placement_inv w board → placement_inv w' board.
Proof.
  intros H [Ha Hb].
  apply shot_returns_inv in H as (_ & _ & w1 & (Hdam & Hdom & Hw1) & ->).
  assert (board_at w1 board = board_at w board) as Hb1 by (by rewrite Hw1).
  unfold placement_inv. rewrite board_at_insert. simpl. split.
  - intros r Hr. destruct (Ha r Hr) as (Hd & ds & margin & H1 & H2 & H3 & H4).
    split; [simpl; set_solver|]. exists ds, margin. rewrite ship_at_on_board_store.
    rewrite (damaged_dots _ _ (Hdam r)), (damaged_margins _ _ _ (Hdam r)). done.
  - intros i j ri rj Hne Hi Hj. rewrite !ship_at_on_board_store.
    rewrite (damaged_margins _ _ _ (Hdam ri)), (damaged_margins _ _ _ (Hdam rj)).
    by apply (Hb i j).
Qed.

Lemma reachable_placement_inv board w : reachable board w → placement_inv w board.
Proof.
  induction 1.
  - by eapply placement_inv_init.
  - by eapply placement_inv_new_ship.
  - by eapply placement_inv_add_ship.
  - by eapply placement_inv_shot.
Qed.

(** ** Random draws *)

Lemma run_randint a b w :
  a ≤ b →
  randint a b w = (Ret (a + tape w (cursor w) `mod` (b - a + 1)), on_cursor S w).
Proof. intros H. unfold randint. destruct (Z.ltb_spec b a); [lia|]. by run. Qed.

Lemma randint_range a b raw : a ≤ b → a ≤ a + raw `mod` (b - a + 1) ≤ b.
Proof. intros H. pose proof (Z.mod_pos_bound raw (b - a + 1)). lia. Qed.

Lemma mod_succ_range raw n : 0 ≤ n → 0 ≤ raw `mod` (n + 1) ≤ n.
Proof. intros H. pose proof (Z.mod_pos_bound raw (n + 1)). lia. Qed.

(** [Ai.ask] by its two draws. *)
Lemma Ai_ask_run self w :
  0 ≤ Board.size (board_at w (User.own_board (user_at w self))) →
  let size := Board.size (board_at w (User.own_board (user_at w self))) in
  let vx := tape w (cursor w) `mod` (size + 1) in
  let vy := tape w (S (cursor w)) `mod` (size + 1) in
  Ai_ask self w =
    (Ret (Dot.mk vx vy),
     on_stdout (λ l, l ++ [AiTurn (vx + 1) (vy + 1)]) (on_cursor S (on_cursor S w))).
Proof.
  intros Hs size vx vy. unfold Ai_ask. run.
  rewrite run_randint by done. run.
  change (board_at (on_cursor S w) ?b) with (board_at w b).
  rewrite run_randint by done. run.
  simpl. rewrite !Z.sub_0_r, !Z.add_0_l. fold size. fold vx. fold vy.
  rewrite Dot_init_Ok by (by apply mod_succ_range). run. done.
Qed.

(** ** Random construction of a board *)

Lemma run_try_except {A B : Type} (body : M A) handlers (orelse : A → M B) w :
  try_except body handlers orelse w =
  match body w with
  | (Ret a, w') => orelse a w'
  | (Raise e, w') =>
      match handlers e with
      | Some handler => handler w'
      | None => (Raise e, w')
      end
  | (Fuel, w') => (Fuel, w')
  end.
Proof. reflexivity. Qed.

Lemma run_new_ship s w :
  new_ship s w = (Ret (fresh (dom (ship_store w))),
                  on_ship_store <[fresh (dom (ship_store w)) := s]> w).
Proof. reflexivity. Qed.

Lemma elem_of_ships_template size t : t ∈ ships_template size → 1 ≤ t.
Proof.
  unfold ships_template. rewrite !elem_of_app.
  intros [H|[H|[H|H]]]; apply elem_of_replicate in H as [-> _]; lia.
Qed.

Lemma Ship_init_Ok origin size orientation :
  1 ≤ size → 0 ≤ orientation ≤ 1 →
  Ship_init origin size orientation = Ok (Ship.mk origin size orientation ∅).
Proof.
  intros Hs Ho. unfold Ship_init. destruct (Z.geb_spec size 1); [|lia].
  destruct (Z.eqb_spec orientation 0); [done|].
  destruct (Z.eqb_spec orientation 1); [done|lia].
Qed.

(** A pass beyond the bound returns; a pass within it draws a ship and
    either goes round again or leaves the loop with the ship placed.  The
    size of the board is not touched. *)
Lemma place_pass_spec size board t counter w :
  1 ≤ t → 1 ≤ Board.size (board_at w board) →
  if counter + 1 >? (size + 1) ^ 2
  then place_pass size board t counter w = (Ret (Return (false, counter + 1)), w)
  else ∃ w', Board.size (board_at w' board) = Board.size (board_at w board)
         ∧ (place_pass size board t counter w = (Ret (Continue (counter + 1)), w')
            ∨ place_pass size board t counter w
              = (Ret (Return (true, counter + 1)), w')).
Proof.
  intros Ht Hb. unfold place_pass. destruct (_ >? _); [done|]. run.
  rewrite run_randint by lia. run.
  change (board_at (on_cursor S w) board) with (board_at w board).
  rewrite run_randint by lia. run.
  set (vx := 0 + _). set (vy := 0 + _).
  assert (0 ≤ vx ∧ 0 ≤ vy) as [Hx Hy].
  { subst vx vy. split; apply randint_range; lia. }
  rewrite Dot_init_Ok by done. run.
  rewrite run_randint by lia. run.
  set (o := 0 + _). assert (0 ≤ o ≤ 1) as Ho by (subst o; apply randint_range; lia).
  rewrite Ship_init_Ok by done. run. rewrite run_new_ship. run.
  set (w3 := on_cursor S (on_cursor S (on_cursor S w))).
  set (r := fresh (dom (ship_store w3))).
  set (s := Ship.mk (Dot.mk vx vy) t o ∅).
  set (w4 := on_ship_store <[r := s]> w3).
  assert (Ship.valid (ship_at w4 r)) as Hv.
  { subst w4. rewrite ship_at_insert. repeat split; simpl; lia. }
  destruct (valid_ship_geometry _ Hv) as (margin & Hds & Hm).
  rewrite run_try_except, (add_ship_cases w4 board r _ margin Hds Hm).
  destruct (nonempty _); [by exists w4; split; [|left]|].
  destruct (existsb _ _); [by exists w4; split; [|left]|].
  eexists. split; [|by right]. by rewrite board_at_insert.
Qed.

(** The retry loop never runs out of unrollings: it leaves by [break] with
    the counter within the bound, or by [return None] with the counter just
    beyond it. *)
Lemma place_loop fuel size board t counter w :
  1 ≤ t → 1 ≤ Board.size (board_at w board) →
  0 ≤ counter ≤ (size + 1) ^ 2 →
  (size + 1) ^ 2 + 1 - counter ≤ Z.of_nat fuel →
  ∃ placing counter' w',
    while_true fuel (place_pass size board t) counter w = (Ret (placing, counter'), w')
    ∧ counter < counter'
    ∧ (if placing : bool then counter' ≤ (size + 1) ^ 2
       else counter' = (size + 1) ^ 2 + 1)
    ∧ Board.size (board_at w' board) = Board.size (board_at w board).
Proof.
  intros Ht. revert counter w.
  induction fuel as [|fuel IH]; intros counter w Hb Hc Hf; [lia|].
  simpl. run. pose proof (place_pass_spec size board t counter w Ht Hb) as Hp.
  destruct (Z.gtb_spec (counter + 1) ((size + 1) ^ 2)) as [Hgt|Hle].
  - rewrite Hp. exists false, (counter + 1), w. repeat split; lia.
  - destruct Hp as (w' & Hb' & [Hp|Hp]); rewrite Hp.
    + destruct (IH (counter + 1) w') as (placing & counter' & w'' & E & H1 & H2 & H3);
        [lia..|].
      exists placing, counter', w''. rewrite E.
      repeat split; [lia|done|congruence].
    + exists true, (counter + 1), w'. run. repeat split; [lia|lia|done].
Qed.

Lemma place_spec size board t counter w :
  1 ≤ t → 1 ≤ Board.size (board_at w board) →
  0 ≤ counter ≤ (size + 1) ^ 2 →
  ∃ placing counter' w',
    place size board t counter w = (Ret (placing, counter'), w')
    ∧ counter < counter'
    ∧ (if placing : bool then counter' ≤ (size + 1) ^ 2
       else counter' = (size + 1) ^ 2 + 1)
    ∧ Board.size (board_at w' board) = Board.size (board_at w board).
Proof. intros Ht Hb Hc. apply place_loop; [done..|lia]. Qed.

(** The [for] loop over the templates, once a template has returned. *)
Lemma templates_loop_stopped size board ts counter w :
  for_M (S := bool * Z) ts
    (λ t '(placing, counter),
       if placing : bool then place size board t counter else mret (false, counter))
    (false, counter) w = (Ret (false, counter), w).
Proof. induction ts as [|t ts IH]; simpl; [done|]. run. apply IH. Qed.

(** The [for] loop ends with the counter at the sum of the passes its
    templates took. *)
Lemma templates_loop size board ts counter w :
  (∀ t, t ∈ ts → 1 ≤ t) → 1 ≤ Board.size (board_at w board) →
  0 ≤ counter ≤ (size + 1) ^ 2 →
  ∃ placing counter' w',
    for_M (S := bool * Z) ts
      (λ t '(placing, counter),
         if placing : bool then place size board t counter else mret (false, counter))
      (true, counter) w = (Ret (placing, counter'), w')
    ∧ counter' = counter + total (passes size board ts counter w)
    ∧ (if placing : bool then counter' ≤ (size + 1) ^ 2
       else counter' = (size + 1) ^ 2 + 1).
Proof.
  revert counter w. induction ts as [|t ts IH]; intros counter w Hts Hb Hc; simpl.
  - exists true, counter, w. repeat split; [unfold total; simpl; lia|lia].
  - run. destruct (place_spec size board t counter w) as
      (placing & counter1 & w1 & E & H1 & H2 & H3); [apply Hts; by left|done..|].
    rewrite E. destruct placing.
    + destruct (IH counter1 w1) as (placing & counter' & w' & E' & H1' & H2');
        [intros t' Ht'; apply Hts; by right|lia|lia|].
      exists placing, counter', w'. rewrite E'. split; [done|]. split; [|done].
      unfold total in *. simpl. lia.
    + rewrite templates_loop_stopped. exists false, counter1, w1.
      split; [done|]. split; [unfold total; simpl; lia|done].
Qed.

(** ** Counting the placement attempts *)

Lemma ships_built_refl w : ships_built w w = 0.
Proof. unfold ships_built. lia. Qed.

Lemma ships_built_trans w1 w2 w3 :
  ships_built w1 w3 = ships_built w1 w2 + ships_built w2 w3.
Proof. unfold ships_built. lia. Qed.

Lemma size_dom_fresh (m : gmap addr Ship) s :
  size (dom (<[fresh (dom m) := s]> m)) = S (size (dom m)).
Proof.
  rewrite dom_insert_L, size_union, size_singleton; [done|].
  apply disjoint_singleton_l, is_fresh.
Qed.

(** A pass of the retry loop that does not abandon the board constructs
    one ship and takes three draws, whatever [add_ship] then answers; the
    pass that abandons it touches nothing. *)
Lemma place_pass_attempt size board t counter w o w' :
  1 ≤ t → 1 ≤ Board.size (board_at w board) →
  place_pass size board t counter w = (o, w') →
  if counter + 1 >? (size + 1) ^ 2 then w' = w
  else ships_built w w' = 1 ∧ cursor w' = S (S (S (cursor w))).
Proof.
  intros Ht Hb. unfold place_pass. destruct (_ >? _); [by intros [= _ <-]|]. run.
  rewrite run_randint by lia. run.
  change (board_at (on_cursor S w) board) with (board_at w board).
  rewrite run_randint by lia. run.
  set (vx := 0 + _). set (vy := 0 + _).
  assert (0 ≤ vx ∧ 0 ≤ vy) as [Hx Hy].
  { subst vx vy. split; apply randint_range; lia. }
  rewrite Dot_init_Ok by done. run.
  rewrite run_randint by lia. run.
  set (o' := 0 + _). assert (0 ≤ o' ≤ 1) as Ho by (subst o'; apply randint_range; lia).
  rewrite Ship_init_Ok by done. run. rewrite run_new_ship. run.
  set (w3 := on_cursor S (on_cursor S (on_cursor S w))).
  set (r := fresh (dom (ship_store w3))).
  set (s := Ship.mk (Dot.mk vx vy) t o' ∅).
  set (w4 := on_ship_store <[r := s]> w3).
  assert (ships_built w w4 = 1 ∧ cursor w4 = S (S (S (cursor w)))) as Hw4.
  { split; [|done]. unfold ships_built. subst w4 r. simpl.
    change (ship_store w3) with (ship_store w). rewrite size_dom_fresh. lia. }
  assert (Ship.valid (ship_at w4 r)) as Hv.
  { subst w4. rewrite ship_at_insert. repeat split; simpl; lia. }
  destruct (valid_ship_geometry _ Hv) as (margin & Hds & Hm).
  rewrite run_try_except, (add_ship_cases w4 board r _ margin Hds Hm).
  destruct (nonempty _); [by intros [= _ <-]|].
  destruct (existsb _ _); [by intros [= _ <-]|].
  by intros [= _ <-].
Qed.

(** The retry loop for one template makes as many attempts as its counter
    grows, less the pass that abandons the board if it ends so. *)
Lemma place_loop_attempts fuel size board t counter w placing counter' w' :
  1 ≤ t → 1 ≤ Board.size (board_at w board) →
  while_true fuel (place_pass size board t) counter w = (Ret (placing, counter'), w') →
  ships_built w w' = counter' - counter - (if placing : bool then 0 else 1)
  ∧ Z.of_nat (cursor w') = Z.of_nat (cursor w) + 3 * ships_built w w'
  ∧ Board.size (board_at w' board) = Board.size (board_at w board).
Proof.
  intros Ht. revert counter w.
  induction fuel as [|fuel IH]; intros counter w Hb; simpl; [done|]. run.
  pose proof (place_pass_spec size board t counter w Ht Hb) as Hp.
  pose proof (place_pass_attempt size board t counter w) as Ha.
  destruct (counter + 1 >? (size + 1) ^ 2).
  - rewrite Hp. run. intros [= <- <- <-]. rewrite ships_built_refl. lia.
  - destruct Hp as (w1 & Hb1 & [Hp|Hp]); rewrite Hp;
      destruct (Ha _ _ Ht Hb Hp) as [Ha1 Hc1].
    + intros E. assert (1 ≤ Board.size (board_at w1 board)) as Hb1' by lia.
      destruct (IH (counter + 1) w1 Hb1' E) as (H1 & H2 & H3).
      rewrite (ships_built_trans w w1 w'). rewrite H1, Ha1 in *.
      split; [lia|]. split; [lia|congruence].
    + run. intros [= <- <- <-]. split; [lia|]. split; [lia|done].
Qed.

(** The same over the templates of a board. *)
Lemma templates_loop_attempts size board ts counter w placing counter' w' :
  (∀ t, t ∈ ts → 1 ≤ t) → 1 ≤ Board.size (board_at w board) →
  for_M (S := bool * Z) ts
    (λ t '(placing, counter),
       if placing : bool then place size board t counter else mret (false, counter))
    (true, counter) w = (Ret (placing, counter'), w') →
  ships_built w w' = counter' - counter - (if placing : bool then 0 else 1)
  ∧ Z.of_nat (cursor w') = Z.of_nat (cursor w) + 3 * ships_built w w'.
Proof.
  revert counter w. induction ts as [|t ts IH]; intros counter w Hts Hb; simpl.
  - intros [= <- <- <-]. rewrite ships_built_refl. lia.
  - run. destruct (place size board t counter w) as [[[placing1 counter1]| |] w1] eqn:E;
      [|done..].
    destruct (place_loop_attempts _ _ _ _ _ _ _ _ _ (Hts t ltac:(by left)) Hb E)
      as (H1 & H2 & H3).
    destruct placing1.
    + intros E'.
      assert (∀ t', t' ∈ ts → 1 ≤ t') as Hts' by (intros t' Ht'; apply Hts; by right).
      assert (1 ≤ Board.size (board_at w1 board)) as Hb1 by lia.
      destruct (IH counter1 w1 Hts' Hb1 E') as (H1' & H2').
      rewrite (ships_built_trans w w1 w'). split; lia.
    + rewrite templates_loop_stopped. intros [= <- <- <-]. split; lia.
Qed.

(** When [_random_board] gives up, [random_board] calls it again, and the
    call starts with a new board. *)
Lemma random_board_restarts fuel size hidden w w' :
  Game__random_board size hidden w = (Ret None, w') →
  Game_random_board (S fuel) size hidden w = Game_random_board fuel size hidden w'.
Proof. intros H. unfold Game_random_board. simpl. run. rewrite H. by run. Qed.

(** ** The grid of [display] *)

Lemma list_index_inside n i :
  0 ≤ i < Z.of_nat n → list_index n i = Ok (Z.to_nat i).
Proof.
  intros H. unfold list_index.
  destruct (Z.leb_spec 0 i); [|lia]. destruct (Z.ltb_spec i (Z.of_nat n)); [done|lia].
Qed.

Lemma list_index_lt n i r : list_index n i = Ok r → (r < n)%nat.
Proof.
  unfold list_index.
  destruct (Z.leb_spec 0 i); destruct (Z.ltb_spec i (Z.of_nat n)); simpl;
    try (intros [= <-]; lia);
    destruct (Z.leb_spec (- Z.of_nat n) i); destruct (Z.ltb_spec i 0); simpl;
    try done; intros [= <-]; lia.
Qed.

(** An assignment inside the grid changes the cell assigned, and no other. *)
Lemma put_inside c dot g n :
  square_grid n g →
  0 ≤ Dot.x dot < Z.of_nat n → 0 ≤ Dot.y dot < Z.of_nat n →
  ∃ g', put c dot g = Ok g' ∧ square_grid n g'
        ∧ ∀ dot', Dot.valid dot' →
            grid_at g' dot' = if bool_decide (dot' = dot) then Some c else grid_at g dot'.
Proof.
  intros [Hl Hrows] Hx Hy. unfold put. rewrite Hl.
  rewrite (list_index_inside n _ Hy). cbn [mbind result_bind].
  assert (g !! Z.to_nat (Dot.y dot) = Some (g !!! Z.to_nat (Dot.y dot))) as Hrow
    by (apply list_lookup_lookup_total_lt; lia).
  set (row := g !!! Z.to_nat (Dot.y dot)) in *.
  assert (length row = n) as Hlr
    by (by eapply (proj1 (Forall_lookup _ _) Hrows)).
  rewrite Hlr, (list_index_inside n _ Hx). cbn [mbind result_bind].
  eexists. split; [done|]. split.
  - split; [by rewrite length_insert|].
    apply Forall_insert; [done|]. by rewrite length_insert.
  - intros dot' [Hx' Hy']. unfold grid_at. case_bool_decide as Hd.
    + subst dot'. rewrite list_lookup_insert_eq by lia. simpl.
      by rewrite list_lookup_insert_eq by lia.
    + destruct (decide (Z.to_nat (Dot.y dot') = Z.to_nat (Dot.y dot))) as [Ey|Ey].
      * rewrite Ey, list_lookup_insert_eq by lia. rewrite Hrow. simpl.
        apply list_lookup_insert_ne. intros Ex. apply Hd.
        destruct dot, dot'; simpl in *. f_equal; lia.
      * by rewrite list_lookup_insert_ne.
Qed.

(** A run of assignments of one character inside the grid. *)
Lemma puts_inside c dots g n :
  square_grid n g →
  (∀ dot, dot ∈ dots → 0 ≤ Dot.x dot < Z.of_nat n ∧ 0 ≤ Dot.y dot < Z.of_nat n) →
  ∃ g', for_result dots (put c) g = Ok g' ∧ square_grid n g'
        ∧ ∀ dot', Dot.valid dot' →
            grid_at g' dot' = if bool_decide (dot' ∈ dots) then Some c else grid_at g dot'.
Proof.
  revert g. induction dots as [|dot dots IH]; intros g Hg Hin.
  - exists g. split; [done|]. split; [done|]. intros dot' _.
    rewrite bool_decide_eq_false_2; [done|apply not_elem_of_nil].
  - destruct (put_inside c dot g n Hg) as (g1 & E1 & Hg1 & Hat1);
      [apply Hin; by left..|].
    destruct (IH g1 Hg1) as (g' & E' & Hg' & Hat');
      [intros d Hd; apply Hin; by right|].
    exists g'. simpl. rewrite E1. split; [done|]. split; [done|].
    intros dot' Hv. rewrite (Hat' dot' Hv), (Hat1 dot' Hv).
    repeat case_bool_decide; try done; set_solver.
Qed.

(** What the pass of [display] over one dot of a ship leaves in a cell. *)
Lemma draw_dot_inside hidden wreck dot g n :
  square_grid n g →
  0 ≤ Dot.x dot < Z.of_nat n → 0 ≤ Dot.y dot < Z.of_nat n →
  ∃ g', draw_dot hidden wreck dot g = Ok g' ∧ square_grid n g'
        ∧ ∀ dot', Dot.valid dot' →
            grid_at g' dot' =
              if bool_decide (dot' = dot) then
                if bool_decide (dot' ∈ wreck) then Some Wrecked
                else if hidden then grid_at g dot' else Some Hull
              else grid_at g dot'.
Proof.
  intros Hg Hx Hy. unfold draw_dot.
  assert (∃ g1, (if negb hidden then put Hull dot g else Ok g) = Ok g1
                ∧ square_grid n g1
                ∧ ∀ dot', Dot.valid dot' →
                    grid_at g1 dot' =
                      if bool_decide (dot' = dot) then
                        if hidden then grid_at g dot' else Some Hull
                      else grid_at g dot') as (g1 & -> & Hg1 & Hat1).
  { destruct hidden; simpl.
    - exists g. repeat split; try apply Hg. intros dot' _. by case_bool_decide.
    - by apply put_inside. }
  cbn [mbind result_bind]. case_bool_decide as Hw.
  - destruct (put_inside Wrecked dot g1 n Hg1 Hx Hy) as (g' & -> & Hg' & Hat').
    exists g'. split; [done|]. split; [done|]. intros dot' Hv.
    rewrite (Hat' dot' Hv), (Hat1 dot' Hv).
    case_bool_decide as Hd; [|done]. subst dot'. by rewrite bool_decide_eq_true_2.
  - exists g1. split; [done|]. split; [done|]. intros dot' Hv.
    rewrite (Hat1 dot' Hv).
    case_bool_decide as Hd; [|done]. subst dot'. by rewrite bool_decide_eq_false_2.
Qed.

Lemma draw_dots_inside hidden wreck dots g n :
  square_grid n g →
  (∀ dot, dot ∈ dots → 0 ≤ Dot.x dot < Z.of_nat n ∧ 0 ≤ Dot.y dot < Z.of_nat n) →
  ∃ g', for_result dots (draw_dot hidden wreck) g = Ok g' ∧ square_grid n g'
        ∧ ∀ dot', Dot.valid dot' →
            grid_at g' dot' =
              if bool_decide (dot' ∈ dots) then
                if bool_decide (dot' ∈ wreck) then Some Wrecked
                else if hidden then grid_at g dot' else Some Hull
              else grid_at g dot'.
Proof.
  revert g. induction dots as [|dot dots IH]; intros g Hg Hin.
  - exists g. split; [done|]. split; [done|]. intros dot' _.
    rewrite bool_decide_eq_false_2; [done|apply not_elem_of_nil].
  - destruct (draw_dot_inside hidden wreck dot g n Hg) as (g1 & E1 & Hg1 & Hat1);
      [apply Hin; by left..|].
    destruct (IH g1 Hg1) as (g' & E' & Hg' & Hat');
      [intros d Hd; apply Hin; by right|].
    exists g'. simpl. rewrite E1. split; [done|]. split; [done|].
    intros dot' Hv. rewrite (Hat' dot' Hv), (Hat1 dot' Hv).
    destruct (decide (dot' = dot)) as [->|Hne].
    + rewrite (bool_decide_eq_true_2 (dot = dot)) by done.
      rewrite (bool_decide_eq_true_2 (dot ∈ dot :: dots)) by (by left).
      repeat case_bool_decide; by destruct hidden.
    + rewrite (bool_decide_eq_false_2 (dot' = dot)) by done.
      destruct (decide (dot' ∈ dots)) as [Hd|Hd].
      * rewrite (bool_decide_eq_true_2 (dot' ∈ dots)) by done.
        by rewrite (bool_decide_eq_true_2 (dot' ∈ dot :: dots)) by (by right).
      * rewrite (bool_decide_eq_false_2 (dot' ∈ dots)) by done.
        rewrite (bool_decide_eq_false_2 (dot' ∈ dot :: dots)); [done|].
        by intros [?|?]%elem_of_cons.
Qed.

(** What the pass of [display] over one ship leaves in a cell. *)
Lemma draw_ship_inside w hidden ship ds g n :
  square_grid n g →
  Ship_dots (ship_at w ship) = Ok ds →
  (∀ dot, dot ∈ ds → 0 ≤ Dot.x dot < Z.of_nat n ∧ 0 ≤ Dot.y dot < Z.of_nat n) →
  ∃ g', draw_ship w hidden ship g = Ok g' ∧ square_grid n g'
        ∧ ∀ dot', Dot.valid dot' →
            grid_at g' dot' =
              if occupies (ship_at w ship) dot' then
                if bool_decide (dot' ∈ Ship.wreck (ship_at w ship)) then Some Wrecked
                else if hidden then grid_at g dot' else Some Hull
              else grid_at g dot'.
Proof.
  intros Hg Hds Hin. unfold draw_ship, occupies. rewrite Hds. simpl.
  destruct (draw_dots_inside hidden (Ship.wreck (ship_at w ship)) (elements ds) g n Hg)
    as (g' & E & Hg' & Hat); [intros dot Hd; apply Hin; set_solver|].
  exists g'. split; [done|]. split; [done|]. intros dot' Hv.
  rewrite (Hat dot' Hv).
  destruct (decide (dot' ∈ ds)) as [Hd|Hd].
  - rewrite (bool_decide_eq_true_2 (dot' ∈ ds)) by done.
    by rewrite (bool_decide_eq_true_2 (dot' ∈ elements ds)) by set_solver.
  - rewrite (bool_decide_eq_false_2 (dot' ∈ ds)) by done.
    by rewrite (bool_decide_eq_false_2 (dot' ∈ elements ds)) by set_solver.
Qed.

(** ** The match *)

Lemma wears_refl w : wears w w.
Proof. repeat split. apply damaged_refl. Qed.

Lemma wears_trans w1 w2 w3 : wears w1 w2 → wears w2 w3 → wears w1 w3.
Proof.
  intros (H1 & B1 & U1) (H2 & B2 & U2). split; [|split].
  - intros r. eapply damaged_trans; [apply H1 | apply H2].
  - intros b. by rewrite B2, B1.
  - intros u. by rewrite U2, U1.
Qed.

Lemma hits_only_wears w w' : hits_only w w' → wears w w'.
Proof. intros (H & _ & E). split; [done|]. rewrite E. done. Qed.











Lemma preserves_shot self target : preserves (Board_shot self target).
Proof.
  intros w o w'. unfold Board_shot. run.
  destruct (Board_out _ _); run; [intros [= <- <-]; apply wears_refl|].
  destruct (bool_decide _); run; [intros [= <- <-]; apply wears_refl|].
  destruct (for_M _ _ _ _) as [[r| |] w1] eqn:E; run;
    apply hits_loop_frame in E; pose proof (hits_only_wears _ _ E) as Hw.
  - intros [= <- <-]. eapply wears_trans; [exact Hw|].
    split; [|split]; [intros; apply damaged_refl| |done].
    intros b. destruct (decide (self = b)) as [->|Hne].
    + by rewrite board_at_insert.
    + by rewrite board_at_insert_ne.
  - by intros [= <- <-].
  - by intros [= <- <-].
Qed.







(** [live_ships] reads and does not write. *)
Lemma live_loop_pure w fleet acc :
  for_M fleet
    (λ ship acc,
       s ← get_ship ship;
       a ← lift (Ship_isalive s);
       mret (if a : bool then acc ++ [ship] else acc)) acc w
  = match for_result fleet (live_step w) acc with
    | Ok alive => (Ret alive, w)
    | Err e => (Raise e, w)
    end.
Proof.
  revert acc. induction fleet as [|r fleet IH]; intros acc; simpl; [done|].
  run. unfold live_step at 1.
  destruct (Ship_isalive (ship_at w r)) as [a|e]; simpl; run; [apply IH|done].
Qed.

Lemma Board_live_ships_pure self w :
  Board_live_ships self w
  = match live_count w self with
    | Ok n => (Ret n, w)
    | Err e => (Raise e, w)
    end.
Proof.
  unfold Board_live_ships, live_count. run. rewrite live_loop_pure.
  by destruct (for_result _ _ _).
Qed.

(** Damage does not revive a ship. *)
Lemma isalive_damaged s s' a :
  damaged s s' → Ship_isalive s = Ok a →
  ∃ a', Ship_isalive s' = Ok a' ∧ (a' = true → a = true).
Proof.
  intros Hd. unfold Ship_isalive, Ship_health. rewrite (damaged_dots _ _ Hd).
  destruct (Ship_dots s) as [ds|e]; simpl; [|done]. intros [= <-].
  eexists. split; [done|]. rewrite !Z.gtb_gt.
  destruct Hd as (_ & _ & _ & Hsub).
  assert (size (ds ∖ Ship.wreck s') ≤ size (ds ∖ Ship.wreck s))%nat
    by (apply subseteq_size; set_solver).
  lia.
Qed.

Lemma live_loop_wears w w' fleet acc acc' alive :
  wears w w' → (length acc' ≤ length acc)%nat →
  for_result fleet (live_step w) acc = Ok alive →
  ∃ alive', for_result fleet (live_step w') acc' = Ok alive'
            ∧ (length alive' ≤ length alive)%nat.
Proof.
  intros (Hd & _ & _). revert acc acc'.
  induction fleet as [|r fleet IH]; intros acc acc' Hl; simpl.
  - intros [= <-]. eauto.
  - unfold live_step at 1 3.
    destruct (Ship_isalive (ship_at w r)) as [a|e] eqn:E; simpl; [|done].
    destruct (isalive_damaged _ _ _ (Hd r) E) as (a' & -> & Ha). simpl.
    apply IH. destruct a', a; rewrite ?length_app; simpl; lia.
Qed.

(** Along a match the number of live ships of a board does not grow. *)
Lemma live_count_wears w w' b n :
  wears w w' → live_count w b = Ok n →
  ∃ n', live_count w' b = Ok n' ∧ 0 ≤ n' ≤ n.
Proof.
  intros Hw. unfold live_count. pose proof Hw as (_ & Hb & _). rewrite Hb.
  destruct (for_result _ (live_step w) _) as [alive|e] eqn:E; simpl; [|done].
  intros [= <-].
  destruct (live_loop_wears w w' _ [] [] alive Hw (le_n _) E) as (alive' & -> & Hl).
  simpl. eexists. split; [done|]. lia.
Qed.

(** A board whose live ships can be counted can be displayed. *)
Lemma live_loop_fleet_ok w fleet acc alive :
  for_result fleet (live_step w) acc = Ok alive → fleet_ok w fleet.
Proof.
  revert acc. induction fleet as [|r fleet IH]; intros acc; simpl.
  - intros _ r Hr. by apply not_elem_of_nil in Hr.
  - unfold live_step at 1. unfold Ship_isalive, Ship_health.
    destruct (Ship_dots (ship_at w r)) as [ds|e] eqn:E; simpl; [|done].
    intros H r' Hr'. apply elem_of_cons in Hr' as [->|Hr']; [eauto|].
    by eapply IH.
Qed.












Lemma while_true_S {S R : Type} fuel (body : S → M (control S R)) s :
  while_true (Datatypes.S fuel) body s =
  (c ← body s;
   match c with
   | Continue s' => while_true fuel body s'
   | Return r => mret r
   end).
Proof. reflexivity. Qed.

Lemma live_ships_count self w n :
  (Board_live_ships self w).1 = Ret n → live_count w self = Ok n.
Proof.
  rewrite Board_live_ships_pure. destruct (live_count w self); simpl; congruence.
Qed.

(** * The claims *)

(** C7.  For a constructed ship with origin [O] and size [L], [dots] returns
    a set, and that set is exactly {(O.x+i, O.y) : 0 <= i < L} when the ship
    is horizontal (orientation 0) and exactly {(O.x, O.y+i) : 0 <= i < L}
    when it is vertical (orientation 1). *)
Theorem dots_is_the_line (s : Ship) :
  Ship.valid s →
  ∃ ds, Ship_dots s = Ok ds
    ∧ (Ship.orientation s = 0 →
       ∀ d, d ∈ ds ↔ horizontal_line (Ship.origin s) (Ship.size s) d)
    ∧ (Ship.orientation s = 1 →
       ∀ d, d ∈ ds ↔ vertical_line (Ship.origin s) (Ship.size s) d).
Proof.
  intros (Ho & _ & _). exists (cells s). split; [by apply Ship_dots_cells|].
  split; intros Hor d; rewrite elem_of_cells.
  - unfold horizontal_line. by setoid_rewrite (cell_horizontal s _ Hor).
  - unfold vertical_line. by setoid_rewrite (cell_vertical s _ Hor).
Qed.

Lemma dots_is_the_line_witness :
  ∃ ds, Ship_dots (Ship.mk (Dot.mk 2 3) 4 0 ∅) = Ok ds
    ∧ (∀ d, d ∈ ds ↔ horizontal_line (Dot.mk 2 3) 4 d).
Proof.
  destruct (dots_is_the_line (Ship.mk (Dot.mk 2 3) 4 0 ∅)) as (ds & H1 & H2 & _).
  - repeat split; simpl; (lia || by left).
  - exists ds. split; [exact H1 | exact (H2 eq_refl)].
Defined.

(** C6.  For a constructed ship, [add_ship] raises [ShipDotsOverlap] when
    the margins of the ship meet the unavailable dots of the board, whether
    or not the ship is inside the board; with no such overlap it raises
    [BoardOutException] when some dot of the ship is outside the board; and
    otherwise it returns, having appended the ship to [ships] and united its
    margins into [unavailable_dots], and written nothing else. *)
Theorem add_ship_checks (w : World) (self ship : addr) :
  Ship.valid (ship_at w ship) →
  ∃ margin,
    Ship_margins (ship_at w ship) 1 = Ok margin
    ∧ Ship_dots (ship_at w ship) = Ok (cells (ship_at w ship))
    ∧ (Board.unavailable_dots (board_at w self) ∩ margin ≠ ∅ →
       Board_add_ship self ship w = (Raise ShipDotsOverlap, w))
    ∧ (Board.unavailable_dots (board_at w self) ∩ margin = ∅ →
       (∃ d, d ∈ cells (ship_at w ship) ∧ Board_out (board_at w self) d = true) →
       Board_add_ship self ship w = (Raise BoardOutException, w))
    ∧ (Board.unavailable_dots (board_at w self) ∩ margin = ∅ →
       (∀ d, d ∈ cells (ship_at w ship) → Board_out (board_at w self) d = false) →
       Board_add_ship self ship w =
         (Ret tt, on_board_store <[self := placed ship margin (board_at w self)]> w)).
Proof.
  intros Hv. destruct (valid_ship_geometry _ Hv) as (margin & Hds & Hm).
  exists margin. split; [done|]. split; [done|].
  rewrite (add_ship_cases w self ship _ margin Hds Hm).
  split; [|split].
  - intros H. apply nonempty_true in H. by rewrite H.
  - intros H1 H2. apply nonempty_false in H1. apply existsb_out_true in H2.
    by rewrite H1, H2.
  - intros H1 H2. apply nonempty_false in H1. apply existsb_out_false in H2.
    by rewrite H1, H2.
Qed.

(** Ship 1 of the sample world is both across the edge of board 0 and on
    a blocked dot of it: the overlap is what is reported. *)
Lemma add_ship_checks_witness :
  (∃ d, d ∈ cells (ship_at sample_world 1%nat)
        ∧ Board_out (board_at sample_world 0%nat) d = true)
  ∧ Board_add_ship 0%nat 1%nat sample_world = (Raise ShipDotsOverlap, sample_world).
Proof.
  assert (Ship.valid (ship_at sample_world 1%nat)) as Hv
    by (repeat split; vm_compute; (discriminate || by left)).
  split.
  - exists (Dot.mk 10 0). split; [|reflexivity].
    apply elem_of_cells. exists 2. split; [vm_compute; intuition discriminate | reflexivity].
  - destruct (add_ship_checks sample_world 0%nat 1%nat Hv) as (margin & Hm & _ & H & _).
    apply H. intros Hempty.
    assert (Dot.mk 9 0 ∈ margin) as Hin.
    { apply (cells_in_margins _ 1 margin _ Hv Hm); [lia|].
      apply elem_of_cells. exists 1. split; [vm_compute; intuition discriminate | reflexivity]. }
    assert (Dot.mk 9 0 ∈ Board.unavailable_dots (board_at sample_world 0%nat)) as Hun
      by (apply (bool_decide_unpack _); by vm_compute).
    set_solver.
Defined.

(** C9.  When [add_ship] raises, with [ShipDotsOverlap], with
    [BoardOutException] or with anything else, the world is the one it was
    called in: the ships of the board, its unavailable dots, its used dots
    and the wreck of the ship are what they were. *)
Theorem add_ship_failure_atomic (w w' : World) (self ship : addr) (e : exn) :
  Board_add_ship self ship w = (Raise e, w') →
  w' = w
  ∧ Board.ships (board_at w' self) = Board.ships (board_at w self)
  ∧ Board.unavailable_dots (board_at w' self) = Board.unavailable_dots (board_at w self)
  ∧ Board.used_dots (board_at w' self) = Board.used_dots (board_at w self)
  ∧ Ship.wreck (ship_at w' ship) = Ship.wreck (ship_at w ship).
Proof. intros H. apply add_ship_raise_unchanged in H. by subst. Qed.

Lemma add_ship_failure_atomic_witness :
  Board.ships (board_at sample_world 0%nat) = [0%nat]
  ∧ Ship.wreck (ship_at sample_world 1%nat) = ∅.
Proof.
  destruct (add_ship_failure_atomic sample_world sample_world 0%nat 1%nat ShipDotsOverlap)
    as (_ & H1 & _ & _ & H2).
  - vm_compute. reflexivity.
  - split; [exact H1 | exact H2].
Defined.

(** C3.  [shot] raises [BoardOutException] when the target is outside the
    board, used or not; it raises [DotAlreadyUsed] when the target is inside
    and among the used dots; both leave the world, and so the used dots, as
    they were.  A shot that returns has added the target, and only it, to the
    used dots, which grow by one; and on a board of constructed ships every
    shot inside the board at a dot not yet used returns. *)
Theorem shot_refusals_and_used_dots (w : World) (self : addr) (target : Dot) :
  (Board_out (board_at w self) target = true →
   Board_shot self target w = (Raise BoardOutException, w))
  ∧ (Board_out (board_at w self) target = false →
     target ∈ Board.used_dots (board_at w self) →
     Board_shot self target w = (Raise DotAlreadyUsed, w))
  ∧ (∀ res w', Board_shot self target w = (Ret res, w') →
     Board.used_dots (board_at w' self)
       = {[ target ]} ∪ Board.used_dots (board_at w self)
     ∧ size (Board.used_dots (board_at w' self))
       = S (size (Board.used_dots (board_at w self))))
  ∧ (fleet_valid w (Board.ships (board_at w self)) →
     Board_out (board_at w self) target = false →
     target ∉ Board.used_dots (board_at w self) →
     ∃ res w', Board_shot self target w = (Ret res, w')).
Proof.
  split; [apply shot_out|]. split; [apply shot_used|]. split.
  - intros res w' H. apply shot_returns_inv in H as (_ & Hu & w1 & Hw & ->).
    rewrite board_at_insert. simpl. split; [done|].
    rewrite size_union by set_solver. by rewrite size_singleton.
  - intros Hv Ho Hu.
    destruct (shot_returns w self target) as (w1 & _ & E); [by apply fleet_valid_ok|done..|].
    eauto.
Qed.

Lemma shot_refusals_and_used_dots_witness :
  Board_shot 0%nat (Dot.mk 10 1) sample_world = (Raise BoardOutException, sample_world)
  ∧ Board_shot 0%nat (Dot.mk 1 1) sample_world = (Raise DotAlreadyUsed, sample_world)
  ∧ ∃ res w', Board_shot 0%nat (Dot.mk 2 2) sample_world = (Ret res, w')
      ∧ size (Board.used_dots (board_at w' 0%nat)) = 2%nat.
Proof.
  destruct (shot_refusals_and_used_dots sample_world 0%nat (Dot.mk 10 1)) as (H1 & _).
  destruct (shot_refusals_and_used_dots sample_world 0%nat (Dot.mk 1 1)) as (_ & H2 & _).
  destruct (shot_refusals_and_used_dots sample_world 0%nat (Dot.mk 2 2)) as (_ & _ & H3 & H4).
  split; [apply H1; reflexivity|].
  split; [apply H2; [reflexivity | by vm_compute]|].
  destruct H4 as (res & w' & E).
  - intros r Hr. apply list_elem_of_singleton in Hr as ->.
    repeat split; vm_compute; (discriminate || by left).
  - reflexivity.
  - apply (bool_decide_unpack _). by vm_compute.
  - exists res, w'. split; [exact E|].
    destruct (H3 res w' E) as [_ ->]. reflexivity.
Defined.

(** C10.  On a board with no ship, [shot] at a dot inside the board and not
    yet used returns [False], and the target is then among the used dots. *)
Theorem shot_on_empty_fleet (w : World) (self : addr) (target : Dot) :
  Board.ships (board_at w self) = [] →
  Board_out (board_at w self) target = false →
  target ∉ Board.used_dots (board_at w self) →
  ∃ w', Board_shot self target w = (Ret false, w')
    ∧ w' = on_board_store <[self := fired target (board_at w self)]> w
    ∧ Board.used_dots (board_at w' self)
        = {[ target ]} ∪ Board.used_dots (board_at w self).
Proof.
  intros Hs Ho Hu. eexists. split; [|split; [reflexivity|]].
  - unfold Board_shot. run. rewrite Ho. rewrite bool_decide_eq_false_2 by done.
    rewrite Hs. simpl. run. reflexivity.
  - by rewrite board_at_insert.
Qed.

Lemma shot_on_empty_fleet_witness :
  ∃ w', Board_shot 1%nat (Dot.mk 3 4) sample_world = (Ret false, w')
    ∧ Board.used_dots (board_at w' 1%nat) = {[ Dot.mk 3 4 ]} ∪ ∅.
Proof.
  destruct (shot_on_empty_fleet sample_world 1%nat (Dot.mk 3 4)) as (w' & E & _ & Hu).
  - reflexivity.
  - reflexivity.
  - apply (bool_decide_unpack _). by vm_compute.
  - exists w'. split; [exact E | exact Hu].
Defined.

(** C1 (the code departs from its docstring).  On a board with two ships
    placed by [add_ship], whose dots are the disjoint sets {(0,0)} and
    {(5,5)}, a shot at (0,0) returns [False] although (0,0) is a dot of the
    first ship, which the shot has wrecked there: the loop keeps only the
    answer of the ship placed last. *)
Theorem shot_forgets_earlier_hit :
  ∃ board ship1 ship2 w w',
    two_ships empty_world = (Ret (board, ship1, ship2), w)
    ∧ Board.ships (board_at w board) = [ship1; ship2]
    ∧ Ship_dots (ship_at w ship1) = Ok {[ Dot.mk 0 0 ]}
    ∧ Ship_dots (ship_at w ship2) = Ok {[ Dot.mk 5 5 ]}
    ∧ Board_shot board (Dot.mk 0 0) w = (Ret false, w')
    ∧ Dot.mk 0 0 ∈ Ship.wreck (ship_at w' ship1).
Proof.
  do 5 eexists. split; [vm_compute; reflexivity|].
  split; [reflexivity|]. split; [vm_compute; reflexivity|].
  split; [vm_compute; reflexivity|]. split; [vm_compute; reflexivity|].
  apply (bool_decide_unpack _). by vm_compute.
Qed.

(** C2.  On a board created by [Board] and then used by any sequence of
    [add_ship] and [shot] calls that returned, every dot of every ship of
    the board lies in [0, size) on both axes, and the margins (of size 1) of
    the ships at any two different positions of [ships] are disjoint. *)
Theorem reachable_board_invariant (board : addr) (w : World) :
  reachable board w →
  (∀ r, r ∈ Board.ships (board_at w board) →
     ∃ ds, Ship_dots (ship_at w r) = Ok ds
       ∧ ∀ d, d ∈ ds →
           (0 ≤ Dot.x d < Board.size (board_at w board))
           ∧ (0 ≤ Dot.y d < Board.size (board_at w board)))
  ∧ (∀ i j ri rj, i ≠ j →
       Board.ships (board_at w board) !! i = Some ri →
       Board.ships (board_at w board) !! j = Some rj →
       ∃ mi mj, Ship_margins (ship_at w ri) 1 = Ok mi
                ∧ Ship_margins (ship_at w rj) 1 = Ok mj
                ∧ mi ## mj).
Proof.
  intros H. apply reachable_placement_inv in H as [Ha Hb]. split; [|exact Hb].
  intros r Hr. destruct (Ha r Hr) as (_ & ds & _ & Hds & _ & Hin & _).
  exists ds. split; [done|]. intros d Hd. by apply Board_out_false, Hin.
Qed.

Lemma reachable_board_invariant_witness :
  ∃ w, reachable 0%nat w
    ∧ Board.ships (board_at w 0%nat) = [0%nat; 1%nat]
    ∧ ∃ mi mj, Ship_margins (ship_at w 0%nat) 1 = Ok mi
               ∧ Ship_margins (ship_at w 1%nat) 1 = Ok mj
               ∧ mi ## mj.
Proof.
  pose (s1 := Ship.mk (Dot.mk 0 0) 1 0 ∅). pose (s2 := Ship.mk (Dot.mk 5 5) 1 0 ∅).
  pose (w1 := (Board_init 10 false empty_world).2).
  pose (w2 := (new_ship s1 w1).2). pose (w3 := (new_ship s2 w2).2).
  pose (w4 := (Board_add_ship 0%nat 0%nat w3).2).
  pose (w5 := (Board_add_ship 0%nat 1%nat w4).2).
  assert (reachable 0%nat w1) as R1
    by (apply (reach_init 0%nat empty_world 10 false); by vm_compute).
  assert (reachable 0%nat w2) as R2
    by (apply (reach_new_ship 0%nat w1 0 0 (Dot.mk 0 0) 1 0 s1 0%nat w2 R1); by vm_compute).
  assert (reachable 0%nat w3) as R3
    by (apply (reach_new_ship 0%nat w2 5 5 (Dot.mk 5 5) 1 0 s2 1%nat w3 R2); by vm_compute).
  assert (reachable 0%nat w4) as R4.
  { apply (reach_add_ship 0%nat w3 0%nat w4 R3); [|by vm_compute].
    apply (bool_decide_unpack _). by vm_compute. }
  assert (reachable 0%nat w5) as R5.
  { apply (reach_add_ship 0%nat w4 1%nat w5 R4); [|by vm_compute].
    apply (bool_decide_unpack _). by vm_compute. }
  assert (Board.ships (board_at w5 0%nat) = [0%nat; 1%nat]) as Hs by (by vm_compute).
  exists w5. split; [exact R5|]. split; [exact Hs|].
  destruct (reachable_board_invariant 0%nat w5 R5) as [_ H].
  apply (H 0%nat 1%nat); [lia|by rewrite Hs..].
Defined.

(** C8.  [Ai.ask] draws the two components of its target one after the
    other, each from [0, size] with both ends included, [size] being the
    size of the player's own board: the target returned is made of the next
    two draws of the generator, each reduced to that range, so both
    components lie in it; every pair of values of that range is the target
    for some draws; and among them is (size, size), which is outside the
    board. *)
Theorem Ai_ask_range (w : World) (self : addr) :
  0 ≤ Board.size (board_at w (User.own_board (user_at w self))) →
  (∃ target w', Ai_ask self w = (Ret target, w')
     ∧ target = Dot.mk
         (tape w (cursor w)
            `mod` (Board.size (board_at w (User.own_board (user_at w self))) + 1))
         (tape w (S (cursor w))
            `mod` (Board.size (board_at w (User.own_board (user_at w self))) + 1))
     ∧ cursor w' = S (S (cursor w))
     ∧ (0 ≤ Dot.x target ≤ Board.size (board_at w (User.own_board (user_at w self))))
     ∧ (0 ≤ Dot.y target ≤ Board.size (board_at w (User.own_board (user_at w self)))))
  ∧ (∀ x y,
       0 ≤ x ≤ Board.size (board_at w (User.own_board (user_at w self))) →
       0 ≤ y ≤ Board.size (board_at w (User.own_board (user_at w self))) →
       ∃ tp w', Ai_ask self (with_tape tp w) = (Ret (Dot.mk x y), w'))
  ∧ (∃ tp target w', Ai_ask self (with_tape tp w) = (Ret target, w')
     ∧ Dot.x target = Board.size (board_at w (User.own_board (user_at w self)))
     ∧ Dot.y target = Board.size (board_at w (User.own_board (user_at w self)))
     ∧ Board_out (board_at w (User.own_board (user_at w self))) target = true).
Proof.
  intros Hs. set (size := Board.size _) in *. split; [|split].
  - do 2 eexists. split; [by apply Ai_ask_run|]. fold size.
    split; [done|]. split; [done|]. simpl. split; by apply mod_succ_range.
  - intros x y Hx Hy.
    exists (λ n, if decide (n = cursor w) then x else y). eexists.
    rewrite Ai_ask_run by done.
    change (board_at (with_tape ?tp w) ?b) with (board_at w b).
    change (user_at (with_tape ?tp w) ?u) with (user_at w u).
    change (cursor (with_tape ?tp w)) with (cursor w).
    change (tape (with_tape ?tp w)) with tp.
    fold size. cbv beta.
    rewrite decide_True by done. rewrite decide_False by lia.
    rewrite !Z.mod_small by lia. done.
  - exists (λ _, size). do 2 eexists. split; [by apply Ai_ask_run|].
    simpl.
    change (board_at (with_tape ?tp w) ?b) with (board_at w b).
    change (user_at (with_tape ?tp w) ?u) with (user_at w u).
    fold size. rewrite Z.mod_small by lia. repeat split.
    unfold Board_out. fold size. simpl.
    rewrite (proj2 (Z.ltb_ge size size)) by lia. by rewrite andb_false_r.
Qed.

Lemma Ai_ask_range_witness :
  (∃ target w', Ai_ask 0%nat ai_world = (Ret target, w')
     ∧ target = Dot.mk (tape ai_world (cursor ai_world) `mod` (10 + 1))
                       (tape ai_world (S (cursor ai_world)) `mod` (10 + 1))
     ∧ cursor w' = S (S (cursor ai_world))
     ∧ (0 ≤ Dot.x target ≤ 10) ∧ (0 ≤ Dot.y target ≤ 10))
  ∧ (∀ x y, 0 ≤ x ≤ 10 → 0 ≤ y ≤ 10 →
       ∃ tp w', Ai_ask 0%nat (with_tape tp ai_world) = (Ret (Dot.mk x y), w'))
  ∧ (∃ tp target w', Ai_ask 0%nat (with_tape tp ai_world) = (Ret target, w')
     ∧ Dot.x target = 10 ∧ Dot.y target = 10
     ∧ Board_out (board_at ai_world 0%nat) target = true).
Proof. apply (Ai_ask_range ai_world 0%nat). vm_compute. discriminate. Defined.

(** C4, as the code has it.  [_random_board] always returns, and it gives
    up (returns [None], after which [random_board] starts again with a new
    board) exactly when the passes of the retry loop, summed over all the
    templates of the board, exceed [(size+1)**2]: the counter is set to zero
    once and runs on from one template to the next.  Every pass but the one
    that gives up is a placement attempt, which constructs a ship and takes
    three draws: a board is given up after exactly [(size+1)**2] attempts,
    and a board that is returned took no more. *)
Theorem random_board_gives_up_on_total (size : Z) (hidden : bool) (w : World) :
  10 ≤ size →
  ∃ board w1 r w',
    Board_init size hidden w = (Ret board, w1)
    ∧ Game__random_board size hidden w = (Ret r, w')
    ∧ (r = None ↔ (size + 1) ^ 2 < total (passes size board (ships_template size) 0 w1))
    ∧ (r ≠ None → r = Some board)
    ∧ (r = None → ∀ fuel,
         Game_random_board (S fuel) size hidden w = Game_random_board fuel size hidden w')
    ∧ total (passes size board (ships_template size) 0 w1)
      = ships_built w w' + (if r is None then 1 else 0)
    ∧ Z.of_nat (cursor w') = Z.of_nat (cursor w) + 3 * ships_built w w'
    ∧ (r = None → ships_built w w' = (size + 1) ^ 2)
    ∧ (r ≠ None → ships_built w w' ≤ (size + 1) ^ 2).
Proof.
  intros Hs.
  set (board := fresh (dom (board_store w))).
  set (w1 := on_board_store <[board := Board.mk size ∅ ∅ [] hidden]> w).
  assert (Board_init size hidden w = (Ret board, w1)) as Hinit.
  { unfold Board_init. by destruct (Z.ltb_spec size 10); [lia|]. }
  assert (1 ≤ Board.size (board_at w1 board)) as Hb1
    by (subst w1; rewrite board_at_insert; simpl; lia).
  destruct (templates_loop size board (ships_template size) 0 w1)
    as (placing & counter' & w' & E & H1 & H2).
  { apply elem_of_ships_template. }
  { done. }
  { lia. }
  destruct (templates_loop_attempts _ _ _ _ _ _ _ _ (elem_of_ships_template size) Hb1 E)
    as [Hbuilt Hdraws].
  change (ships_built w1 w') with (ships_built w w') in *.
  change (cursor w1) with (cursor w) in Hdraws.
  assert (Game__random_board size hidden w
          = (Ret (if placing then Some board else None), w')) as Hrb.
  { unfold Game__random_board. rewrite run_bind, Hinit. cbv beta iota zeta.
    rewrite run_bind, E. by destruct placing. }
  exists board, w1, (if placing then Some board else None), w'.
  split; [done|]. split; [done|]. destruct placing.
  - split; [split; [done|lia]|]. split; [done|]. split; [done|].
    split; [lia|]. split; [done|]. split; [done|]. intros _. lia.
  - split; [split; [lia|done]|]. split; [done|].
    split; [intros _ fuel; by apply random_board_restarts|].
    split; [lia|]. split; [done|]. split; [intros _; lia|done].
Qed.

Lemma random_board_gives_up_on_total_witness :
  ∃ board w1 r w',
    Board_init 10 false empty_world = (Ret board, w1)
    ∧ Game__random_board 10 false empty_world = (Ret r, w')
    ∧ (r = None ↔ (10 + 1) ^ 2 < total (passes 10 board (ships_template 10) 0 w1))
    ∧ (r ≠ None → r = Some board)
    ∧ (r = None → ∀ fuel,
         Game_random_board (S fuel) 10 false empty_world
         = Game_random_board fuel 10 false w')
    ∧ total (passes 10 board (ships_template 10) 0 w1)
      = ships_built empty_world w' + (if r is None then 1 else 0)
    ∧ Z.of_nat (cursor w') = Z.of_nat (cursor empty_world) + 3 * ships_built empty_world w'
    ∧ (r = None → ships_built empty_world w' = (10 + 1) ^ 2)
    ∧ (r ≠ None → ships_built empty_world w' ≤ (10 + 1) ^ 2).
Proof. apply (random_board_gives_up_on_total 10 false empty_world). lia. Defined.

(** C4 as stated fails.  With a generator that always draws zero, on a
    board of size 10 the first template is placed at the first pass and the
    second never fits: [_random_board] gives up at the 121st pass for the
    second template, although no template took more than [(10+1)**2 = 121]
    passes. *)
Lemma per_template_count_refuted :
  ∃ board w1 w',
    Board_init 10 false empty_world = (Ret board, w1)
    ∧ Game__random_board 10 false empty_world = (Ret None, w')
    ∧ passes 10 board (ships_template 10) 0 w1 = [1; 121]
    ∧ Forall (λ p, p ≤ (10 + 1) ^ 2) (passes 10 board (ships_template 10) 0 w1).
Proof.
  do 3 eexists. split; [vm_compute; reflexivity|].
  split; [vm_compute; reflexivity|].
  split; [vm_compute; reflexivity|].
  match goal with
  | |- Forall _ ?l => replace l with [1; 121] by (vm_compute; reflexivity)
  end.
  repeat constructor; lia.
Qed.




(** * Further properties *)

(** ** Ships *)

Lemma dots_loop_valid s xs acc r :
  for_result xs (dots_step s) acc = Ok r →
  (∀ d, d ∈ acc → Dot.valid d) → ∀ d, d ∈ r → Dot.valid d.
Proof.
  revert acc. induction xs as [|i xs IH]; intros acc; simpl.
  - by intros [= <-].
  - destruct (dots_step s i acc) as [acc'|e] eqn:E; [|done].
    intros H Hacc. apply (IH _ H). intros d Hd.
    unfold dots_step in E.
    destruct (if truthy (Ship.orientation s) then _ else _) as [p|e] eqn:Ep;
      simpl in E; [|done].
    injection E as <-. apply elem_of_union in Hd as [Hd|Hd]; [|by apply Hacc].
    apply elem_of_singleton in Hd as ->.
    destruct (truthy _); apply Dot_init_inv in Ep as (-> & Hx & Hy); by split.
Qed.

Lemma margins_ok_dots_ok s n margin :
  Ship_margins s n = Ok margin → ∃ ds, Ship_dots s = Ok ds.
Proof.
  unfold Ship_margins. destruct (n <? 1); [done|].
  destruct (Ship_dots s) as [ds|e]; [eauto|done].
Qed.

(** Whatever ship the records describe, the sets [dots] and [margins]
    return hold only dots with no negative component. *)
Theorem dots_and_margins_are_valid_dots (s : Ship) (n : Z) :
  (∀ ds d, Ship_dots s = Ok ds → d ∈ ds → Dot.valid d)
  ∧ (∀ margin d, Ship_margins s n = Ok margin → d ∈ margin → Dot.valid d).
Proof.
  split.
  - intros ds d Hds. apply (dots_loop_valid _ _ _ _ Hds). set_solver.
  - intros margin d Hm Hd. destruct (margins_ok_dots_ok _ _ _ Hm) as [ds Hds].
    destruct (proj1 (elem_of_margins s n ds margin d Hds Hm) Hd)
      as (d0 & i & j & _ & _ & _ & Hx & Hy & ->).
    by split.
Qed.

Lemma dots_and_margins_are_valid_dots_witness :
  ∃ margin, Ship_margins (Ship.mk (Dot.mk 0 0) 2 1 ∅) 1 = Ok margin
    ∧ Dot.mk 1 2 ∈ margin ∧ Dot.valid (Dot.mk 1 2).
Proof.
  destruct (Ship_margins (Ship.mk (Dot.mk 0 0) 2 1 ∅) 1) as [margin|e] eqn:E;
    [|by vm_compute in E].
  exists margin. split; [done|].
  assert (Dot.mk 1 2 ∈ margin) as Hin.
  { assert (Some margin = Some (default ∅ (match Ship_margins (Ship.mk (Dot.mk 0 0) 2 1 ∅) 1
                                            with Ok m => Some m | Err _ => None end)))
      as [= ->] by (by rewrite E).
    apply (bool_decide_unpack _). by vm_compute. }
  split; [exact Hin|].
  exact (proj2 (dots_and_margins_are_valid_dots (Ship.mk (Dot.mk 0 0) 2 1 ∅) 1)
           margin (Dot.mk 1 2) E Hin).
Defined.

(** [margins(size)] of a constructed ship raises [ValueError] for a size
    below 1; otherwise it returns the dots that lie within [size] of a dot
    of the ship on both axes and have no negative component, the dots of the
    ship among them. *)
Theorem margins_is_the_clipped_band (s : Ship) (n : Z) :
  Ship.valid s →
  (n < 1 → Ship_margins s n = Err ValueError)
  ∧ (1 ≤ n →
     ∃ ds margin,
       Ship_dots s = Ok ds ∧ Ship_margins s n = Ok margin
       ∧ ds ⊆ margin
       ∧ ∀ p, p ∈ margin ↔
              ∃ d, d ∈ ds
                   ∧ (Dot.x d - n ≤ Dot.x p ≤ Dot.x d + n)
                   ∧ (Dot.y d - n ≤ Dot.y p ≤ Dot.y d + n)
                   ∧ Dot.valid p).
Proof.
  intros Hv. split.
  - intros Hn. unfold Ship_margins. by destruct (Z.ltb_spec n 1); [|lia].
  - intros Hn. pose proof Hv as (Ho & _ & _).
    pose proof (Ship_dots_cells s Ho) as Hds.
    destruct (Ship_margins_total s n _ Hn Hds) as [margin Hm].
    exists (cells s), margin. split; [done|]. split; [done|]. split.
    + intros d Hd. apply (cells_in_margins s n margin d Hv Hm); [lia|done].
    + intros p. rewrite (elem_of_margins s n _ margin p Hds Hm). split.
      * intros (d & i & j & Hd & Hi & Hj & Hx & Hy & ->). exists d. simpl.
        split; [done|]. unfold Dot.valid. simpl. lia.
      * intros (d & Hd & Hx & Hy & [Hpx Hpy]).
        exists d, (Dot.x p - Dot.x d), (Dot.y p - Dot.y d).
        split; [done|]. destruct p as [px py]. simpl in *.
        repeat split; try lia. f_equal; lia.
Qed.

Lemma margins_is_the_clipped_band_witness :
  Ship_margins (Ship.mk (Dot.mk 0 0) 2 1 ∅) 0 = Err ValueError
  ∧ ∃ ds margin,
      Ship_dots (Ship.mk (Dot.mk 0 0) 2 1 ∅) = Ok ds
      ∧ Ship_margins (Ship.mk (Dot.mk 0 0) 2 1 ∅) 1 = Ok margin
      ∧ ds ⊆ margin.
Proof.
  assert (Ship.valid (Ship.mk (Dot.mk 0 0) 2 1 ∅)) as Hv
    by (repeat split; simpl; (lia || by right)).
  destruct (margins_is_the_clipped_band _ 0 Hv) as [H0 _].
  destruct (margins_is_the_clipped_band _ 1 Hv) as [_ H1].
  split; [apply H0; lia|].
  destruct H1 as (ds & margin & Hds & Hm & Hsub & _); [lia|].
  by exists ds, margin.
Defined.

Lemma cell_inj s i j : cell s i = cell s j → i = j.
Proof. unfold cell. destruct (truthy _); intros [= H]; lia. Qed.

Lemma size_cells s : Z.of_nat (size (cells s)) = Z.max 0 (Ship.size s).
Proof.
  unfold cells. rewrite size_list_to_set.
  - rewrite length_fmap. unfold range. rewrite length_seqZ. lia.
  - apply NoDup_fmap_2_strong; [|apply NoDup_seqZ].
    intros i j _ _. apply cell_inj.
Qed.

(** A constructed ship has as many dots as its size; its health is its size
    less the dots of it that are in the wreck, so a ship with an empty wreck
    has its full size as health and is alive. *)
Theorem health_counts_intact_dots (s : Ship) :
  Ship.valid s →
  ∃ ds, Ship_dots s = Ok ds
    ∧ Z.of_nat (size ds) = Ship.size s
    ∧ Ship_health s = Ok (Ship.size s - Z.of_nat (size (ds ∩ Ship.wreck s)))
    ∧ (Ship.wreck s = ∅ → Ship_health s = Ok (Ship.size s) ∧ Ship_isalive s = Ok true).
Proof.
  intros (Ho & Hs & _). exists (cells s).
  pose proof (Ship_dots_cells s Ho) as Hds. pose proof (size_cells s) as Hsz.
  assert (Ship_health s = Ok (Ship.size s - Z.of_nat (size (cells s ∩ Ship.wreck s))))
    as Hh.
  { unfold Ship_health. rewrite Hds. simpl. f_equal.
    rewrite size_difference_alt.
    assert (size (cells s ∩ Ship.wreck s) ≤ size (cells s))%nat
      by (apply subseteq_size; set_solver).
    lia. }
  split; [done|]. split; [lia|]. split; [done|].
  intros Hw. rewrite Hw in Hh.
  replace (cells s ∩ ∅) with (∅ : gset Dot) in Hh by set_solver.
  rewrite size_empty, Z.sub_0_r in Hh. split; [done|].
  unfold Ship_isalive. rewrite Hh. simpl. f_equal. apply Z.gtb_gt. lia.
Qed.

Lemma health_counts_intact_dots_witness :
  ∃ ds, Ship_dots (Ship.mk (Dot.mk 1 1) 3 0 {[ Dot.mk 2 1 ]}) = Ok ds
    ∧ Z.of_nat (size ds) = 3
    ∧ Ship_health (Ship.mk (Dot.mk 1 1) 3 0 {[ Dot.mk 2 1 ]})
      = Ok (3 - Z.of_nat (size (ds ∩ {[ Dot.mk 2 1 ]}))).
Proof.
  destruct (health_counts_intact_dots (Ship.mk (Dot.mk 1 1) 3 0 {[ Dot.mk 2 1 ]}))
    as (ds & H1 & H2 & H3 & _).
  - repeat split; simpl; (lia || by left).
  - by exists ds.
Defined.

(** A constructed ship is alive exactly as long as some dot of it is not in
    the wreck. *)
Theorem isalive_until_all_dots_wrecked (s : Ship) :
  Ship.valid s →
  ∃ ds, Ship_dots s = Ok ds
    ∧ Ship_isalive s = Ok (negb (bool_decide (ds ⊆ Ship.wreck s))).
Proof.
  intros (Ho & _ & _). exists (cells s).
  pose proof (Ship_dots_cells s Ho) as Hds. split; [done|].
  unfold Ship_isalive, Ship_health. rewrite Hds. simpl. f_equal.
  destruct (decide (cells s ⊆ Ship.wreck s)) as [Hsub|Hnsub].
  - rewrite bool_decide_eq_true_2 by done. simpl.
    replace (cells s ∖ Ship.wreck s) with (∅ : gset Dot) by set_solver.
    by rewrite size_empty.
  - rewrite bool_decide_eq_false_2 by done. simpl. apply Z.gtb_gt.
    assert (size (cells s ∖ Ship.wreck s) ≠ 0)%nat; [|lia].
    apply size_non_empty_iff. intros Hempty. apply Hnsub.
    intros d Hd. destruct (decide (d ∈ Ship.wreck s)); [done|].
    assert (d ∈ cells s ∖ Ship.wreck s) as Hin by set_solver.
    rewrite Hempty in Hin. set_solver.
Qed.

Lemma isalive_until_all_dots_wrecked_witness :
  Ship_isalive (Ship.mk (Dot.mk 1 1) 2 0 {[ Dot.mk 1 1; Dot.mk 2 1 ]}) = Ok false.
Proof.
  destruct (isalive_until_all_dots_wrecked
              (Ship.mk (Dot.mk 1 1) 2 0 {[ Dot.mk 1 1; Dot.mk 2 1 ]}))
    as (ds & Hds & Ha).
  - repeat split; simpl; (lia || by left).
  - rewrite Ha. assert (Some ds = Some {[ Dot.mk 1 1; Dot.mk 2 1 ]}) as [= ->]; [|done].
    assert (Ship_dots (Ship.mk (Dot.mk 1 1) 2 0 {[ Dot.mk 1 1; Dot.mk 2 1 ]})
            = Ok {[ Dot.mk 1 1; Dot.mk 2 1 ]}) as E by (by vm_compute).
    rewrite E in Hds. by injection Hds as <-.
Defined.

Lemma rehit_difference (C W : gset Dot) (d : Dot) :
  d ∈ W → C ∖ ({[ d ]} ∪ W) = C ∖ W.
Proof. set_solver. Qed.

Lemma first_hit_difference (C W : gset Dot) (d : Dot) :
  d ∈ C → d ∉ W → size (C ∖ W) = S (size (C ∖ ({[ d ]} ∪ W))).
Proof.
  intros HC HW.
  replace (C ∖ W) with ({[ d ]} ∪ C ∖ ({[ d ]} ∪ W)).
  - rewrite size_union by set_solver. by rewrite size_singleton.
  - apply set_eq. intros p. rewrite elem_of_union, !elem_of_difference,
      elem_of_union, elem_of_singleton.
    destruct (decide (p = d)) as [->|]; naive_solver.
Qed.

(** [hit] on a constructed ship: a dot that is not of the ship is a miss
    and changes nothing; a dot of the ship is a hit, joins the wreck of that
    ship and of no other, and takes one off its health unless it was in the
    wreck already, in which case the health stays. *)
Theorem hit_wrecks_one_dot (w : World) (self : addr) (d : Dot) :
  Ship.valid (ship_at w self) →
  ∃ h, Ship_health (ship_at w self) = Ok h
    ∧ (occupies (ship_at w self) d = false → Ship_hit self d w = (Ret false, w))
    ∧ (occupies (ship_at w self) d = true →
       ∃ w', Ship_hit self d w = (Ret true, w')
         ∧ Ship.wreck (ship_at w' self) = {[ d ]} ∪ Ship.wreck (ship_at w self)
         ∧ Ship_health (ship_at w' self)
           = Ok (if bool_decide (d ∈ Ship.wreck (ship_at w self)) then h else h - 1)
         ∧ (∀ r, r ≠ self → ship_at w' r = ship_at w r)
         ∧ board_store w' = board_store w).
Proof.
  intros Hv. pose proof Hv as (Ho & _ & _).
  pose proof (Ship_dots_cells _ Ho) as Hds.
  set (s := ship_at w self) in *.
  exists (Z.of_nat (size (cells s ∖ Ship.wreck s))).
  split; [by unfold Ship_health; rewrite Hds|].
  rewrite Ship_hit_cases. fold s. unfold occupies. rewrite Hds. clearbody s.
  split; [by intros ->|]. intros Hocc. rewrite Hocc.
  apply bool_decide_eq_true in Hocc.
  eexists. split; [done|]. rewrite ship_at_insert. simpl.
  split; [done|]. split; [|split; [|done]].
  - unfold Ship_health. rewrite Ship_dots_set_wreck, Hds. simpl. f_equal.
    case_bool_decide as Hin.
    + by rewrite rehit_difference.
    + rewrite (first_hit_difference (cells s) (Ship.wreck s) d) by done. lia.
  - intros r Hr. by apply ship_at_insert_ne.
Qed.

Lemma hit_wrecks_one_dot_witness :
  ∃ w', Ship_hit 0%nat (Dot.mk 3 2) sample_world = (Ret true, w')
    ∧ Ship_health (ship_at w' 0%nat) = Ok 1.
Proof.
  destruct (hit_wrecks_one_dot sample_world 0%nat (Dot.mk 3 2)) as (h & Hh & _ & H).
  - repeat split; vm_compute; (discriminate || by left).
  - destruct H as (w' & E & _ & Hh' & _); [by vm_compute|].
    exists w'. split; [exact E|]. rewrite Hh'.
    assert (h = 2) as -> by (vm_compute in Hh; by injection Hh as <-).
    reflexivity.
Defined.

(** ** Boards *)

Lemma Ship_dots_valid s ds d : Ship_dots s = Ok ds → d ∈ ds → Dot.valid d.
Proof. intros Hds. apply (dots_loop_valid _ _ _ _ Hds). set_solver. Qed.

Lemma two_ships_world_reachable : reachable 0%nat two_ships_world.
Proof.
  pose (s1 := Ship.mk (Dot.mk 0 0) 1 0 ∅). pose (s2 := Ship.mk (Dot.mk 5 5) 1 0 ∅).
  pose (w1 := (Board_init 10 false empty_world).2).
  pose (w2 := (new_ship s1 w1).2). pose (w3 := (new_ship s2 w2).2).
  pose (w4 := (Board_add_ship 0%nat 0%nat w3).2).
  assert (reachable 0%nat w1) as R1
    by (apply (reach_init 0%nat empty_world 10 false); by vm_compute).
  assert (reachable 0%nat w2) as R2
    by (apply (reach_new_ship 0%nat w1 0 0 (Dot.mk 0 0) 1 0 s1 0%nat w2 R1); by vm_compute).
  assert (reachable 0%nat w3) as R3
    by (apply (reach_new_ship 0%nat w2 5 5 (Dot.mk 5 5) 1 0 s2 1%nat w3 R2); by vm_compute).
  assert (reachable 0%nat w4) as R4.
  { apply (reach_add_ship 0%nat w3 0%nat w4 R3); [|by vm_compute].
    apply (bool_decide_unpack _). by vm_compute. }
  apply (reach_add_ship 0%nat w4 1%nat two_ships_world R4); [|by vm_compute].
  apply (bool_decide_unpack _). by vm_compute.
Qed.

(** What one [hit] and the loop of [shot] do to the wrecks. *)
Lemma Ship_hit_wrecks self target w ds :
  Ship_dots (ship_at w self) = Ok ds →
  ∃ b w', Ship_hit self target w = (Ret b, w')
    ∧ ∀ r, Ship.wreck (ship_at w' r)
           = if bool_decide (r = self) && occupies (ship_at w r) target
             then {[ target ]} ∪ Ship.wreck (ship_at w r)
             else Ship.wreck (ship_at w r).
Proof.
  intros Hds. rewrite Ship_hit_cases, Hds.
  destruct (bool_decide (target ∈ ds)) eqn:Hocc; do 2 eexists; (split; [done|]).
  - intros r. destruct (decide (r = self)) as [->|Hne].
    + rewrite bool_decide_eq_true_2 by done. rewrite ship_at_insert.
      unfold occupies. by rewrite Hds, Hocc.
    + rewrite bool_decide_eq_false_2 by done. by rewrite ship_at_insert_ne.
  - intros r. destruct (decide (r = self)) as [->|Hne].
    + unfold occupies. by rewrite Hds, Hocc, andb_false_r.
    + by rewrite bool_decide_eq_false_2 by done.
Qed.

Lemma hits_loop_wrecks (fleet : list addr) target acc w :
  fleet_ok w fleet →
  ∃ b w', for_M fleet (λ ship _, Ship_hit ship target) acc w = (Ret b, w')
    ∧ ∀ r, Ship.wreck (ship_at w' r)
           = if bool_decide (r ∈ fleet) && occupies (ship_at w r) target
             then {[ target ]} ∪ Ship.wreck (ship_at w r)
             else Ship.wreck (ship_at w r).
Proof.
  revert acc w. induction fleet as [|r0 fleet IH]; intros acc w Hok; cbn [for_M].
  - exists acc, w. split; [done|]. intros r.
    by rewrite bool_decide_eq_false_2 by apply not_elem_of_nil.
  - run. destruct (Hok r0) as [ds Hds]; [by left|].
    destruct (Ship_hit_wrecks r0 target w ds Hds) as (b1 & w1 & E1 & H1).
    rewrite E1. assert (hits_only w w1) as Hw by (by eapply Ship_hit_frame).
    destruct (IH b1 w1) as (b & w' & E & H).
    { eapply fleet_ok_hits_only; [done|]. intros r Hr. apply Hok. by right. }
    exists b, w'. split; [done|]. intros r. rewrite H, H1.
    destruct Hw as (Hd & _). rewrite (damaged_occupies _ _ _ (Hd r)).
    destruct (occupies (ship_at w r) target); rewrite ?andb_false_r; [|done].
    rewrite !andb_true_r.
    destruct (decide (r = r0)) as [->|Hne].
    + rewrite (bool_decide_eq_true_2 (r0 = r0)) by done.
      rewrite (bool_decide_eq_true_2 (r0 ∈ r0 :: fleet)) by (by left).
      destruct (bool_decide (r0 ∈ fleet)); set_solver.
    + rewrite (bool_decide_eq_false_2 (r = r0)) by done.
      destruct (decide (r ∈ fleet)) as [Hin|Hnin].
      * rewrite (bool_decide_eq_true_2 (r ∈ fleet)) by done.
        by rewrite (bool_decide_eq_true_2 (r ∈ r0 :: fleet)) by (by right).
      * rewrite (bool_decide_eq_false_2 (r ∈ fleet)) by done.
        by rewrite (bool_decide_eq_false_2 (r ∈ r0 :: fleet)) by set_solver.
Qed.

(** An accepted [shot] on a board of constructed ships reaches every ship:
    the target joins the wreck of each ship of the board that has it among
    its dots, and no other wreck changes, although the value returned is
    the answer of the last ship only. *)
Theorem shot_wrecks_every_occupant (w : World) (self : addr) (target : Dot) :
  fleet_valid w (Board.ships (board_at w self)) →
  Board_out (board_at w self) target = false →
  target ∉ Board.used_dots (board_at w self) →
  ∃ w', Board_shot self target w
        = (Ret (default false ((λ r, occupies (ship_at w r) target)
                                 <$> last (Board.ships (board_at w self)))), w')
    ∧ ∀ r, Ship.wreck (ship_at w' r)
           = if bool_decide (r ∈ Board.ships (board_at w self))
                && occupies (ship_at w r) target
             then {[ target ]} ∪ Ship.wreck (ship_at w r)
             else Ship.wreck (ship_at w r).
Proof.
  intros Hv Ho Hu. apply fleet_valid_ok in Hv.
  destruct (shot_returns w self target Hv Ho Hu) as (w1 & _ & E).
  eexists. split; [exact E|]. intros r. rewrite ship_at_on_board_store.
  destruct (hits_loop_wrecks _ target false w Hv) as (b & w1' & E' & H).
  revert E. unfold Board_shot. run. rewrite Ho.
  rewrite bool_decide_eq_false_2 by done. run. rewrite E'. run.
  intros [= _ Hw1]. rewrite <- H. f_equal.
  unfold ship_at. by rewrite Hw1.
Qed.

Lemma shot_wrecks_every_occupant_witness :
  ∃ w', Board_shot 0%nat (Dot.mk 0 0) two_ships_world = (Ret false, w')
    ∧ Ship.wreck (ship_at w' 0%nat) = {[ Dot.mk 0 0 ]} ∪ ∅
    ∧ Ship.wreck (ship_at w' 1%nat) = ∅.
Proof.
  destruct (shot_wrecks_every_occupant two_ships_world 0%nat (Dot.mk 0 0))
    as (w' & E & H).
  - intros r Hr. assert (r = 0%nat ∨ r = 1%nat) as [-> | ->].
    { change (r ∈ [0%nat; 1%nat]) in Hr. set_solver. }
    all: repeat split; vm_compute; (discriminate || by left).
  - reflexivity.
  - apply (bool_decide_unpack _). by vm_compute.
  - exists w'. split; [exact E|]. split; [exact (H 0%nat) | exact (H 1%nat)].
Defined.

(** Whatever a [shot] does (return, refuse, or fail), no board has more
    live ships after it than before. *)
Theorem shot_never_revives (w w' : World) (self b : addr) (target : Dot)
    (o : outcome bool) (n : Z) :
  Board_shot self target w = (o, w') →
  (Board_live_ships b w).1 = Ret n →
  ∃ n', (Board_live_ships b w').1 = Ret n' ∧ 0 ≤ n' ≤ n.
Proof.
  intros Hs Hn. apply preserves_shot in Hs. apply live_ships_count in Hn.
  destruct (live_count_wears _ _ _ _ Hs Hn) as (n' & Hn' & Hle).
  exists n'. split; [|done]. by rewrite Board_live_ships_pure, Hn'.
Qed.

Lemma shot_never_revives_witness :
  ∃ n', (Board_live_ships 0%nat
           (Board_shot 0%nat (Dot.mk 5 5) two_ships_world).2).1 = Ret n'
        ∧ 0 ≤ n' ≤ 2.
Proof.
  apply (shot_never_revives two_ships_world _ 0%nat 0%nat (Dot.mk 5 5)
           (Board_shot 0%nat (Dot.mk 5 5) two_ships_world).1).
  - by destruct (Board_shot 0%nat (Dot.mk 5 5) two_ships_world).
  - by vm_compute.
Defined.

(** On a board used only through [add_ship] and [shot], a constructed ship
    that is on the board cannot be placed on it a second time: [add_ship]
    raises [ShipDotsOverlap] and writes nothing. *)
Theorem placed_ship_is_refused (board : addr) (w : World) (ship : addr) :
  reachable board w →
  ship ∈ Board.ships (board_at w board) →
  Ship.valid (ship_at w ship) →
  Board_add_ship board ship w = (Raise ShipDotsOverlap, w).
Proof.
  intros Hr Hin Hv. apply reachable_placement_inv in Hr as [Ha _].
  destruct (Ha ship Hin) as (_ & ds & margin & Hds & Hm & _ & Hsub).
  rewrite (add_ship_cases w board ship ds margin Hds Hm).
  assert (cell (ship_at w ship) 0 ∈ margin) as Hc.
  { apply (cells_in_margins _ 1 margin _ Hv Hm); [lia|].
    apply elem_of_cells. exists 0. destruct Hv as (_ & Hs & _). split; [lia|done]. }
  assert (nonempty (Board.unavailable_dots (board_at w board) ∩ margin) = true) as ->;
    [|done].
  apply nonempty_true. set_solver.
Qed.

Lemma placed_ship_is_refused_witness :
  Board_add_ship 0%nat 1%nat two_ships_world = (Raise ShipDotsOverlap, two_ships_world).
Proof.
  apply (placed_ship_is_refused 0%nat two_ships_world 1%nat two_ships_world_reachable).
  - apply (bool_decide_unpack _). by vm_compute.
  - repeat split; vm_compute; (discriminate || by left).
Defined.

(** On a board used only through [add_ship] and [shot], dots of ships at
    two different positions of the fleet are at least three apart on some
    axis: between two ships there are always two free rows or columns. *)
Theorem placed_ships_keep_apart (board : addr) (w : World)
    (i j : nat) (ri rj : addr) (di dj : gset Dot) (a b : Dot) :
  reachable board w →
  i ≠ j →
  Board.ships (board_at w board) !! i = Some ri →
  Board.ships (board_at w board) !! j = Some rj →
  Ship_dots (ship_at w ri) = Ok di →
  Ship_dots (ship_at w rj) = Ok dj →
  a ∈ di → b ∈ dj →
  3 ≤ Z.abs (Dot.x a - Dot.x b) ∨ 3 ≤ Z.abs (Dot.y a - Dot.y b).
Proof.
  intros Hr Hne Hi Hj Hdi Hdj Ha Hb.
  apply reachable_placement_inv in Hr as [_ Hapart].
  destruct (Hapart i j ri rj Hne Hi Hj) as (mi & mj & Hmi & Hmj & Hdisj).
  destruct (Ship_dots_valid _ _ _ Hdi Ha) as [Hax Hay].
  destruct (Ship_dots_valid _ _ _ Hdj Hb) as [Hbx Hby].
  destruct (decide (3 ≤ Z.abs (Dot.x a - Dot.x b))) as [|Hx]; [by left|].
  destruct (decide (3 ≤ Z.abs (Dot.y a - Dot.y b))) as [|Hy]; [by right|].
  exfalso.
  assert (∃ px, 0 ≤ px ∧ (-1 ≤ px - Dot.x a ≤ 1) ∧ (-1 ≤ px - Dot.x b ≤ 1))
    as (px & Hpx & Hpxa & Hpxb).
  { destruct (decide (Dot.x a ≤ Dot.x b)).
    - exists (if decide (Dot.x b - Dot.x a = 2) then Dot.x a + 1 else Dot.x b).
      case_decide; lia.
    - exists (if decide (Dot.x a - Dot.x b = 2) then Dot.x b + 1 else Dot.x a).
      case_decide; lia. }
  assert (∃ py, 0 ≤ py ∧ (-1 ≤ py - Dot.y a ≤ 1) ∧ (-1 ≤ py - Dot.y b ≤ 1))
    as (py & Hpy & Hpya & Hpyb).
  { destruct (decide (Dot.y a ≤ Dot.y b)).
    - exists (if decide (Dot.y b - Dot.y a = 2) then Dot.y a + 1 else Dot.y b).
      case_decide; lia.
    - exists (if decide (Dot.y a - Dot.y b = 2) then Dot.y b + 1 else Dot.y a).
      case_decide; lia. }
  apply (Hdisj (Dot.mk px py)).
  - apply (elem_of_margins _ 1 di mi _ Hdi Hmi).
    exists a, (px - Dot.x a), (py - Dot.y a).
    split; [done|]. repeat split; try lia. f_equal; lia.
  - apply (elem_of_margins _ 1 dj mj _ Hdj Hmj).
    exists b, (px - Dot.x b), (py - Dot.y b).
    split; [done|]. repeat split; try lia. f_equal; lia.
Qed.

Lemma placed_ships_keep_apart_witness :
  3 ≤ Z.abs (Dot.x (Dot.mk 0 0) - Dot.x (Dot.mk 5 5))
  ∨ 3 ≤ Z.abs (Dot.y (Dot.mk 0 0) - Dot.y (Dot.mk 5 5)).
Proof.
  apply (placed_ships_keep_apart 0%nat two_ships_world 0%nat 1%nat 0%nat 1%nat
           {[ Dot.mk 0 0 ]} {[ Dot.mk 5 5 ]} (Dot.mk 0 0) (Dot.mk 5 5)
           two_ships_world_reachable).
  - lia.
  - by vm_compute.
  - by vm_compute.
  - by vm_compute.
  - by vm_compute.
  - by apply elem_of_singleton.
  - by apply elem_of_singleton.
Defined.

(** ** Boards built at random *)

Lemma fleet_intact_new_ship s ship w w' board size hidden ts :
  new_ship s w = (Ret ship, w') →
  placement_inv w board → fleet_intact w board size hidden ts →
  fleet_intact w' board size hidden ts.
Proof.
  unfold new_ship. intros [= <- <-] [Ha _] (Hs & Hh & Hu & Hts & Hv).
  set (r0 := fresh (dom (ship_store w))).
  assert (∀ r, r ∈ Board.ships (board_at w board) →
            ship_at (on_ship_store <[r0 := s]> w) r = ship_at w r) as Hsame.
  { intros r Hr. apply ship_at_insert_ne. intros <-.
    destruct (Ha _ Hr) as [Hdom _]. by apply is_fresh in Hdom. }
  unfold fleet_intact. rewrite board_at_on_ship_store.
  split; [done|]. split; [done|]. split; [done|]. split.
  - rewrite <- Hts. apply list_fmap_ext. intros i r Hr.
    f_equal. apply Hsame. by eapply list_elem_of_lookup_2.
  - intros r Hr. rewrite (Hsame r Hr). by apply Hv.
Qed.

Lemma fleet_intact_add_ship board ship w w' size hidden ts :
  Board_add_ship board ship w = (Ret tt, w') →
  Ship.valid (ship_at w ship) → Ship.wreck (ship_at w ship) = ∅ →
  fleet_intact w board size hidden ts →
  fleet_intact w' board size hidden (ts ++ [Ship.size (ship_at w ship)]).
Proof.
  intros H Hv Hw (Hs & Hh & Hu & Hts & Hfleet).
  destruct (valid_ship_geometry _ Hv) as (margin & Hds & Hm).
  rewrite (add_ship_cases _ _ _ _ _ Hds Hm) in H.
  destruct (nonempty _); [done|]. destruct (existsb _ _); [done|].
  injection H as <-. unfold fleet_intact.
  rewrite board_at_insert. simpl.
  split; [done|]. split; [done|]. split; [done|]. split.
  - rewrite fmap_app. simpl. by rewrite <- Hts.
  - intros r Hr. rewrite ship_at_on_board_store.
    apply elem_of_app in Hr as [Hr|Hr]; [by apply Hfleet|].
    apply list_elem_of_singleton in Hr as ->. done.
Qed.

(** One pass of the retry loop keeps the board as built so far, with the
    ship of the template added when the pass leaves the loop by [break]. *)
Lemma place_pass_built size hidden board t counter w ts c w' :
  1 ≤ t → 1 ≤ size →
  placement_inv w board → fleet_intact w board size hidden ts →
  place_pass size board t counter w = (Ret c, w') →
  match c with
  | Continue _ => placement_inv w' board ∧ fleet_intact w' board size hidden ts
  | Return (true, _) =>
      placement_inv w' board ∧ fleet_intact w' board size hidden (ts ++ [t])
  | Return (false, _) => True
  end.
Proof.
  intros Ht Hsz Hinv Hfl. pose proof Hfl as (Hb & _).
  unfold place_pass. destruct (_ >? _); [by intros [= <- <-]|]. run.
  rewrite Hb. rewrite run_randint by lia. run.
  change (board_at (on_cursor S w) board) with (board_at w board). rewrite Hb.
  rewrite run_randint by lia. run.
  set (vx := 0 + _). set (vy := 0 + _).
  assert (0 ≤ vx ∧ 0 ≤ vy) as [Hx Hy].
  { subst vx vy. split; apply randint_range; lia. }
  rewrite Dot_init_Ok by done. run.
  rewrite run_randint by lia. run.
  set (o := 0 + _). assert (0 ≤ o ≤ 1) as Ho by (subst o; apply randint_range; lia).
  rewrite Ship_init_Ok by done. run.
  set (w3 := on_cursor S (on_cursor S (on_cursor S w))).
  set (s := Ship.mk (Dot.mk vx vy) t o ∅).
  destruct (new_ship s w3) as [o4 w4] eqn:Enew.
  assert (o4 = Ret (fresh (dom (ship_store w3)))) as -> by (by injection Enew as <- _).
  set (r := fresh (dom (ship_store w3))) in *.
  assert (placement_inv w4 board) as Hinv4
    by (by apply (placement_inv_new_ship s r w3 w4 board Enew)).
  assert (fleet_intact w4 board size hidden ts) as Hfl4
    by (by apply (fleet_intact_new_ship s r w3 w4 board size hidden ts Enew)).
  assert (ship_at w4 r = s) as Hr.
  { injection Enew as <-. apply ship_at_insert. }
  assert (r ∈ dom (ship_store w4)) as Hdom.
  { injection Enew as <-. simpl. set_solver. }
  assert (Ship.valid (ship_at w4 r)) as Hv.
  { rewrite Hr. repeat split; simpl; lia. }
  rewrite run_try_except.
  destruct (Board_add_ship board r w4) as [[[]|e|] w5] eqn:Eadd.
  - run. intros [= <- <-]. split.
    + by apply (placement_inv_add_ship board r w4 w5 Eadd).
    + replace t with (Ship.size (ship_at w4 r)) by (by rewrite Hr).
      apply (fleet_intact_add_ship board r w4 w5 size hidden ts Eadd); [done| |done].
      by rewrite Hr.
  - pose proof (add_ship_raise_unchanged _ _ _ _ _ Eadd) as ->.
    destruct e; run; try done; by intros [= <- <-].
  - done.
Qed.

Lemma place_loop_built fuel size hidden board t counter w ts placing counter' w' :
  1 ≤ t → 1 ≤ size →
  placement_inv w board → fleet_intact w board size hidden ts →
  while_true fuel (place_pass size board t) counter w = (Ret (placing, counter'), w') →
  placing = true →
  placement_inv w' board ∧ fleet_intact w' board size hidden (ts ++ [t]).
Proof.
  intros Ht Hsz. revert counter w.
  induction fuel as [|fuel IH]; intros counter w Hinv Hfl; simpl; [done|]. run.
  destruct (place_pass size board t counter w) as [[c| |] w1] eqn:E; [|done..].
  pose proof (place_pass_built _ _ _ _ _ _ _ _ _ Ht Hsz Hinv Hfl E) as Hc.
  destruct c as [counter1|[[] counter1]].
  - destruct Hc as [Hinv1 Hfl1]. by apply IH.
  - run. by intros [= <- <- <-] _.
  - run. by intros [= <- <- <-].
Qed.

Lemma templates_loop_built size hidden board ts counter w ts0 counter' w' :
  (∀ t, t ∈ ts → 1 ≤ t) → 1 ≤ size →
  placement_inv w board → fleet_intact w board size hidden ts0 →
  for_M (S := bool * Z) ts
    (λ t '(placing, counter),
       if placing : bool then place size board t counter else mret (false, counter))
    (true, counter) w = (Ret (true, counter'), w') →
  placement_inv w' board ∧ fleet_intact w' board size hidden (ts0 ++ ts).
Proof.
  intros Hts Hsz. revert counter w ts0.
  induction ts as [|t ts IH]; intros counter w ts0 Hinv Hfl; simpl.
  - intros [= <- <-]. by rewrite app_nil_r.
  - run. destruct (place size board t counter w) as [[[placing c1]| |] w1] eqn:E;
      [|done..].
    destruct placing.
    + intros H.
      destruct (place_loop_built _ _ _ _ _ _ _ _ _ _ _
                  (Hts t ltac:(by left)) Hsz Hinv Hfl E eq_refl) as [Hinv1 Hfl1].
      rewrite (assoc_L (++) ts0 [t] ts : ts0 ++ t :: ts = (ts0 ++ [t]) ++ ts).
      apply (IH (λ t' Ht', Hts t' ltac:(by right)) c1 w1); done.
    + by rewrite templates_loop_stopped.
Qed.

(** Every ship of a board is alive when none has a dot in its wreck. *)
Lemma live_loop_all_alive w fleet acc :
  (∀ r, r ∈ fleet → Ship.valid (ship_at w r) ∧ Ship.wreck (ship_at w r) = ∅) →
  for_result fleet (live_step w) acc = Ok (acc ++ fleet).
Proof.
  revert acc. induction fleet as [|r fleet IH]; intros acc Hf; simpl.
  - by rewrite app_nil_r.
  - destruct (Hf r) as [Hv Hw]; [by left|].
    unfold live_step at 1. destruct Hv as (Ho & Hs & Hor).
    unfold Ship_isalive, Ship_health. rewrite Ship_dots_cells by done. simpl.
    rewrite Hw, difference_empty_L.
    pose proof (size_cells (ship_at w r)) as Hsz.
    assert ((Z.of_nat (size (cells (ship_at w r))) >? 0) = true) as ->
      by (apply Z.gtb_gt; lia).
    rewrite IH by (intros r' Hr'; apply Hf; by right).
    by rewrite <- app_assoc.
Qed.

(** A board that [_random_board] returns (size at least 10) carries one
    ship for each entry of the template, of that size and in that order,
    constructed and undamaged; it was never shot at; its ships lie inside
    it with pairwise disjoint margins; and [live_ships] counts them all. *)
Theorem random_board_is_a_full_fleet
    (size : Z) (hidden : bool) (w w' : World) (board : addr) :
  10 ≤ size →
  Game__random_board size hidden w = (Ret (Some board), w') →
  Board.size (board_at w' board) = size
  ∧ Board.hidden (board_at w' board) = hidden
  ∧ Board.used_dots (board_at w' board) = ∅
  ∧ (λ r, Ship.size (ship_at w' r)) <$> Board.ships (board_at w' board)
    = ships_template size
  ∧ (∀ r, r ∈ Board.ships (board_at w' board) →
       Ship.valid (ship_at w' r) ∧ Ship.wreck (ship_at w' r) = ∅
       ∧ ∀ d, d ∈ cells (ship_at w' r) → Board_out (board_at w' board) d = false)
  ∧ margins_apart w' (Board.ships (board_at w' board))
  ∧ (Board_live_ships board w').1 = Ret (Z.of_nat (length (ships_template size))).
Proof.
  intros Hs. unfold Game__random_board. rewrite run_bind.
  destruct (Board_init size hidden w) as [[b| |] w1] eqn:Einit; [|done..].
  pose proof (placement_inv_init _ _ _ _ _ Einit) as Hinv1.
  assert (fleet_intact w1 b size hidden []) as Hfl1.
  { apply Board_init_inv in Einit as (_ & _ & ->). unfold fleet_intact.
    rewrite board_at_insert. simpl.
    split; [done|]. split; [done|]. split; [done|]. split; [done|].
    intros r Hr. by apply not_elem_of_nil in Hr. }
  cbv beta iota zeta. rewrite run_bind.
  destruct (for_M _ _ _ w1) as [[[placing c]| |] w2] eqn:E; [|done..].
  destruct placing; simpl; [|done]. intros [= <- <-].
  destruct (templates_loop_built size hidden b (ships_template size) 0 w1 [] c w2)
    as [[Ha Hb] (H1 & H2 & H3 & H4 & H5)]; [apply elem_of_ships_template|lia|done..|].
  simpl in H4.
  split; [done|]. split; [done|]. split; [done|]. split; [done|]. split; [|split].
  - intros r Hr. destruct (H5 r Hr) as [Hv Hw]. split; [done|]. split; [done|].
    destruct (Ha r Hr) as (_ & ds & _ & Hds & _ & Hin & _).
    destruct Hv as (Ho & _). rewrite (Ship_dots_cells _ Ho) in Hds.
    by injection Hds as <-.
  - done.
  - rewrite Board_live_ships_pure. unfold live_count.
    rewrite live_loop_all_alive by done. simpl.
    by rewrite <- H4, length_fmap.
Qed.

Lemma random_board_is_a_full_fleet_witness :
  ∃ w', Game__random_board 10 false fleet_world = (Ret (Some 0%nat), w')
    ∧ (λ r, Ship.size (ship_at w' r)) <$> Board.ships (board_at w' 0%nat)
      = [4; 3; 3; 2; 2; 2; 1; 1; 1; 1]
    ∧ (Board_live_ships 0%nat w').1 = Ret 10.
Proof.
  exists (Game__random_board 10 false fleet_world).2.
  assert (Game__random_board 10 false fleet_world
          = (Ret (Some 0%nat), (Game__random_board 10 false fleet_world).2)) as E
    by (by vm_compute).
  split; [exact E|].
  destruct (random_board_is_a_full_fleet 10 false fleet_world _ 0%nat ltac:(lia) E)
    as (_ & _ & _ & H4 & _ & _ & H7).
  split; [exact H4 | exact H7].
Defined.

(** ** Players *)

Lemma move_pass_contains fuel self w o w' :
  move_pass fuel self w = (o, w') →
  o ≠ Raise BoardOutException ∧ o ≠ Raise DotAlreadyUsed.
Proof.
  unfold move_pass.
  match goal with |- try_except ?b _ _ _ = _ → _ => set (body := b) end.
  rewrite run_try_except.
  destruct (body w) as [[[target shot_result]|e|] w1].
  - run. by intros [= <- _].
  - destruct e; unfold print; run; by intros [= <- _].
  - by intros [= <- _].
Qed.

(** [move] lets neither [BoardOutException] nor [DotAlreadyUsed] escape,
    whoever raised it inside the [try]. *)
Theorem move_contains_refusals (fuel : nat) (self : addr) (w w' : World)
    (o : outcome bool) :
  User_move fuel self w = (o, w') →
  o ≠ Raise BoardOutException ∧ o ≠ Raise DotAlreadyUsed.
Proof.
  unfold User_move. generalize fuel at 2. intros k. revert w.
  induction fuel as [|fuel IH]; intros w; simpl.
  - by intros [= <- _].
  - run. destruct (move_pass k self w) as [[c|e|] w1] eqn:E.
    + destruct c as [[]|r]; [apply IH|]. run. by intros [= <- _].
    + apply move_pass_contains in E as [H1 H2]. intros [= <- _].
      split; congruence.
    + by intros [= <- _].
Qed.

Lemma move_contains_refusals_witness :
  (User_move 3 1%nat lost_world).1 ≠ Raise BoardOutException
  ∧ (User_move 3 1%nat lost_world).1 ≠ Raise DotAlreadyUsed.
Proof.
  apply (move_contains_refusals 3 1%nat lost_world (User_move 3 1%nat lost_world).2).
  by destruct (User_move 3 1%nat lost_world).
Defined.

(** A target that [shot] refuses costs a message and nothing else: the
    pass of [move] ends in the world [ask] left, with the message printed,
    and the loop goes round again. *)
Theorem refused_target_is_asked_again (fuel : nat) (self : addr) (w wa : World)
    (target : Dot) :
  User_ask fuel self w = (Ret target, wa) →
  (Board_out (board_at wa (User.opponent_board (user_at wa self))) target = true →
   move_pass fuel self w
   = (Ret (Continue tt), on_stdout (λ l, l ++ [Print "Target outside board"]) wa))
  ∧ (Board_out (board_at wa (User.opponent_board (user_at wa self))) target = false →
     target ∈ Board.used_dots (board_at wa (User.opponent_board (user_at wa self))) →
     move_pass fuel self w
     = (Ret (Continue tt), on_stdout (λ l, l ++ [Print "Target already used"]) wa)).
Proof.
  intros Hask. split.
  - intros Ho. unfold move_pass. rewrite run_try_except. run. rewrite Hask. run.
    rewrite shot_out by done. unfold print. by run.
  - intros Ho Hu. unfold move_pass. rewrite run_try_except. run. rewrite Hask. run.
    rewrite shot_used by done. unfold print. by run.
Qed.

Lemma refused_target_is_asked_again_witness :
  ∃ wa, move_pass 1 0%nat (on_stdin (λ _, ["11 1"%string]) lost_world)
        = (Ret (Continue tt), on_stdout (λ l, l ++ [Print "Target outside board"]) wa).
Proof.
  exists (User_ask 1 0%nat (on_stdin (λ _, ["11 1"%string]) lost_world)).2.
  apply (refused_target_is_asked_again 1 0%nat _ _ (Dot.mk 10 0)).
  - by vm_compute.
  - by vm_compute.
Defined.

Lemma run_input prompt w :
  input prompt w =
  match stdin w with
  | [] => (Raise EOFError, on_stdout (λ l, l ++ [Prompt prompt]) w)
  | line :: rest =>
      (Ret line, on_stdin (λ _, rest) (on_stdout (λ l, l ++ [Prompt prompt]) w))
  end.
Proof.
  unfold input. run. simpl. destruct (stdin w); by run.
Qed.

(** A digit is neither white space, nor a sign, nor an underscore. *)
Lemma isdigit_char_plain c :
  isdigit_char c = true →
  int_space c = false ∧ Ascii.eqb c "+" = false ∧ Ascii.eqb c "-" = false
  ∧ Ascii.eqb c "_" = false.
Proof. destruct c as [[] [] [] [] [] [] [] []]; by vm_compute. Qed.

Lemma strip_digits cs :
  forallb isdigit_char cs = true → reverse (lstrip (reverse (lstrip cs))) = cs.
Proof.
  intros H. assert (∀ c, c ∈ cs → int_space c = false) as Hplain.
  { intros c Hc. apply isdigit_char_plain.
    by apply (proj1 (forallb_forall _ _) H), list_elem_of_In. }
  assert (∀ l, (∀ c, c ∈ l → int_space c = false) → lstrip l = l) as Hl.
  { intros [|c l] Hc; [done|]. simpl. rewrite (Hc c); [done|]. apply list_elem_of_here. }
  rewrite (Hl cs Hplain), Hl; [apply reverse_involutive|].
  intros c Hc. rewrite elem_of_reverse in Hc. by apply Hplain.
Qed.

Lemma int_digits_plain cs after_digit acc :
  forallb isdigit_char cs = true →
  int_digits after_digit cs acc =
    if forallb (λ c, bool_decide (is_Some (digit_value c))) cs then
      match cs with
      | [] => if after_digit then Some acc else None
      | _ => Some (acc ++ ((λ c, default 0 (digit_value c)) <$> cs))
      end
    else None.
Proof.
  revert after_digit acc.
  induction cs as [|c cs IH]; intros after_digit acc H; simpl; [done|].
  apply andb_true_iff in H as [Hc Hcs].
  destruct (isdigit_char_plain c Hc) as (_ & _ & _ & ->).
  destruct (digit_value c) as [d|] eqn:Ed.
  - rewrite bool_decide_eq_true_2 by eauto. cbn [andb default].
    rewrite IH by done.
    destruct (forallb (λ c0, bool_decide (is_Some (digit_value c0))) cs); [|done].
    destruct cs; simpl; [done|]. by rewrite <- app_assoc.
  - rewrite bool_decide_eq_false_2; [done|]. by intros [? ?].
Qed.

(** [int] on a string that passed [isdigit()]: the number written, unless a
    character is not a decimal digit or there are more than 4300. *)
Lemma int_digit_string s :
  isdigit s = true →
  int s = if decimal s && (length (list_ascii_of_string s) <=? 4300)%nat
          then Ok (number s) else Err ValueError.
Proof.
  unfold isdigit, int, decimal, number.
  destruct (list_ascii_of_string s) as [|c cs] eqn:E; [done|]. intros H.
  rewrite strip_digits by done.
  pose proof H as Hc. simpl in Hc. apply andb_true_iff in Hc as [Hc _].
  destruct (isdigit_char_plain c Hc) as (_ & -> & -> & _).
  rewrite int_digits_plain by done.
  destruct (forallb (λ c0, bool_decide (is_Some (digit_value c0))) (c :: cs)); [|done].
  cbn [app andb]. rewrite length_fmap.
  destruct (Nat.ltb_spec 4300 (length (c :: cs))), (Nat.leb_spec (length (c :: cs)) 4300);
    try lia; [done|]. f_equal. lia.
Qed.

Lemma number_nonneg s : 0 ≤ number s.
Proof.
  unfold number. generalize (list_ascii_of_string s). intros cs.
  assert (∀ acc, 0 ≤ acc →
            0 ≤ foldl (λ acc d, 10 * acc + d) acc
                  ((λ c, default 0 (digit_value c)) <$> cs)) as H; [|by apply H].
  induction cs as [|c cs IH]; intros acc Hacc; simpl; [done|].
  apply IH. unfold digit_value.
  destruct ((48 <=? nat_of_ascii c)%nat && (nat_of_ascii c <=? 57)%nat) eqn:E; simpl; [|lia].
  apply andb_true_iff in E as [E1 E2]. apply Nat.leb_le in E1. lia.
Qed.

Lemma int_raises s e : int s = Err e → e = ValueError.
Proof.
  unfold int. destruct (reverse _) as [|c cs]; simpl.
  - by intros [= <-].
  - destruct (Ascii.eqb c "+"); [|destruct (Ascii.eqb c "-")];
      destruct (int_digits _ _ _); try (by intros [= <-]);
      destruct (_ <? _)%nat; by intros [= <-].
Qed.

Lemma int_digit_string_Ok s x :
  isdigit s = true → int s = Ok x →
  x = number s ∧ 0 ≤ x ∧ decimal s = true
  ∧ (length (list_ascii_of_string s) ≤ 4300)%nat.
Proof.
  intros Hd. rewrite (int_digit_string s Hd).
  destruct (decimal s); [|done].
  destruct (Nat.leb_spec (length (list_ascii_of_string s)) 4300); [|done].
  intros [= <-]. split; [done|]. split; [apply number_nonneg|done].
Qed.

Lemma Human_ask_S fuel self w :
  Human_ask (S fuel) self w =
  (c ← (line ← input "Enter X Y:";
        let human_input := split line in
        if negb (length human_input =? 2)%nat then
          _ ← print "Please enter two numbers separated by space";
          mret (Continue tt)
        else if negb (forallb isdigit human_input) then
          _ ← print "Cannot parse input";
          mret (Continue tt)
        else
          match human_input with
          | [x; y] =>
              x ← lift (int x);
              y ← lift (int y);
              match Dot_init (x - 1) (y - 1) with
              | Ok target => mret (Return target)
              | Err ValueError => _ ← print "Invalid coordinates"; mret (Continue tt)
              | Err e => raise e
              end
          | _ => raise ValueError
          end);
   match c with
   | Continue _ => Human_ask fuel self
   | Return r => mret r
   end) w.
Proof.
  unfold Human_ask. rewrite while_true_S, !run_bind.
  destruct (input _ w) as [[line| |] w1]; [|done..].
  match goal with |- context [?m w1] => destruct (m w1) as [[[[]|r]| |] w2] end; done.
Qed.

(** What [Human.ask] does with the next line of input. *)
Lemma Human_ask_line fuel self w line rest :
  stdin w = line :: rest →
  Human_ask (S fuel) self w =
  let w1 := on_stdin (λ _, rest) (on_stdout (λ l, l ++ [Prompt "Enter X Y:"]) w) in
  match split line with
  | [a; b] =>
      if isdigit a && isdigit b then
        match int a with
        | Ok x =>
            match int b with
            | Ok y =>
                if (1 <=? x) && (1 <=? y)
                then (Ret (Dot.mk (x - 1) (y - 1)), w1)
                else Human_ask fuel self
                       (on_stdout (λ l, l ++ [Print "Invalid coordinates"]) w1)
            | Err e => (Raise e, w1)
            end
        | Err e => (Raise e, w1)
        end
      else Human_ask fuel self (on_stdout (λ l, l ++ [Print "Cannot parse input"]) w1)
  | _ => Human_ask fuel self
           (on_stdout
              (λ l, l ++ [Print "Please enter two numbers separated by space"]) w1)
  end.
Proof.
  intros Hin. rewrite Human_ask_S. run. rewrite run_input, Hin. cbv zeta.
  unfold print.
  destruct (split line) as [|a [|b [|c l]]]; simpl; run; try done.
  rewrite andb_true_r.
  destruct (isdigit a && isdigit b); simpl; run; [|done].
  destruct (int a) as [x|e]; run; [|done].
  destruct (int b) as [y|e]; run; [|done].
  destruct (Z.leb_spec 1 x), (Z.leb_spec 1 y); simpl.
  - rewrite Dot_init_Ok by lia. by run.
  - destruct (Dot_init (x - 1) (y - 1)) as [d|e] eqn:E.
    + apply Dot_init_inv in E. lia.
    + apply Dot_init_Err in E as [-> _]. by run.
  - destruct (Dot_init (x - 1) (y - 1)) as [d|e] eqn:E.
    + apply Dot_init_inv in E. lia.
    + apply Dot_init_Err in E as [-> _]. by run.
  - destruct (Dot_init (x - 1) (y - 1)) as [d|e] eqn:E.
    + apply Dot_init_inv in E. lia.
    + apply Dot_init_Err in E as [-> _]. by run.
Qed.

(** [Human.ask] on a line of two tokens that pass [isdigit()].  [int]
    accepts such a token exactly when all its characters are decimal digits
    and there are at most 4300 of them, and then gives the number written,
    which is not negative.  When both tokens are accepted they are taken as
    1-based coordinates: [ask] returns the dot one less on each axis and
    consumes the line; a zero is refused with "Invalid coordinates" and the
    next line is read.  When [int] rejects a token (a superscript digit, or
    too many digits), its [ValueError] is raised outside the [try] and ends
    [ask]. *)
Theorem Human_ask_is_one_based (fuel : nat) (self : addr) (w : World)
    (line : string) (rest : list string) (a b : string) :
  stdin w = line :: rest →
  split line = [a; b] →
  isdigit a = true → isdigit b = true →
  (∀ s, s = a ∨ s = b →
     int s = if decimal s && (length (list_ascii_of_string s) <=? 4300)%nat
             then Ok (number s) else Err ValueError)
  ∧ 0 ≤ number a ∧ 0 ≤ number b
  ∧ (∀ x y, int a = Ok x → int b = Ok y →
       (1 ≤ x → 1 ≤ y →
        Human_ask (S fuel) self w
        = (Ret (Dot.mk (x - 1) (y - 1)),
           on_stdin (λ _, rest) (on_stdout (λ l, l ++ [Prompt "Enter X Y:"]) w)))
       ∧ (x = 0 ∨ y = 0 →
          Human_ask (S fuel) self w
          = Human_ask fuel self
              (on_stdout (λ l, l ++ [Print "Invalid coordinates"])
                 (on_stdin (λ _, rest)
                    (on_stdout (λ l, l ++ [Prompt "Enter X Y:"]) w)))))
  ∧ (∀ e, int a = Err e ∨ int b = Err e →
       Human_ask (S fuel) self w
       = (Raise ValueError,
          on_stdin (λ _, rest) (on_stdout (λ l, l ++ [Prompt "Enter X Y:"]) w))).
Proof.
  intros Hin Hsplit Ha Hb. split; [|split; [|split; [|split]]].
  - intros s [->| ->]; by apply int_digit_string.
  - apply number_nonneg.
  - apply number_nonneg.
  - intros x y Hx Hy.
    rewrite (Human_ask_line fuel self w line rest Hin), Hsplit, Ha, Hb, Hx, Hy.
    simpl. split.
    + intros H1 H2. destruct (Z.leb_spec 1 x), (Z.leb_spec 1 y); (done || lia).
    + intros H. destruct (Z.leb_spec 1 x), (Z.leb_spec 1 y); (done || lia).
  - intros e He.
    rewrite (Human_ask_line fuel self w line rest Hin), Hsplit, Ha, Hb. simpl.
    destruct (int a) as [x|ea] eqn:Ea.
    + destruct He as [He|He]; [done|]. rewrite He.
      by rewrite (int_raises b e He).
    + by rewrite (int_raises a ea Ea).
Qed.

Lemma Human_ask_is_one_based_witness :
  Human_ask 1 0%nat (on_stdin (λ _, [" 3  10"%string; "x"%string]) lost_world)
  = (Ret (Dot.mk (3 - 1) (10 - 1)),
     on_stdin (λ _, ["x"%string])
       (on_stdout (λ l, l ++ [Prompt "Enter X Y:"])
          (on_stdin (λ _, [" 3  10"%string; "x"%string]) lost_world))).
Proof.
  refine (proj1 (proj1 (proj2 (proj2 (proj2
            (Human_ask_is_one_based 0 0%nat
               (on_stdin (λ _, [" 3  10"%string; "x"%string]) lost_world)
               " 3  10" ["x"%string] "3" "10" _ _ _ _))))
            3 10 _ _) _ _);
    (reflexivity || lia || by vm_compute).
Defined.

(** [Human.ask] cannot go on for more passes than there are lines of
    input.  It returns a dot with no negative component, having consumed at
    least one line; or it ends in [EOFError] with the input exhausted; or it
    ends in [ValueError], on a line of the input made of two tokens that
    pass [isdigit()] and of which [int] rejects one. *)
Theorem Human_ask_ends (fuel : nat) (self : addr) (w : World) :
  (length (stdin w) < fuel)%nat →
  (∃ target w', Human_ask fuel self w = (Ret target, w')
     ∧ Dot.valid target
     ∧ (length (stdin w') < length (stdin w))%nat)
  ∨ (∃ w', Human_ask fuel self w = (Raise EOFError, w') ∧ stdin w' = [])
  ∨ (∃ w' line a b,
       Human_ask fuel self w = (Raise ValueError, w')
       ∧ (length (stdin w') < length (stdin w))%nat
       ∧ line ∈ stdin w ∧ split line = [a; b]
       ∧ isdigit a = true ∧ isdigit b = true
       ∧ (int a = Err ValueError ∨ int b = Err ValueError)).
Proof.
  revert w. induction fuel as [|fuel IH]; intros w Hlen; [lia|].
  destruct (stdin w) as [|line rest] eqn:Hin.
  - right. left. rewrite Human_ask_S. run. rewrite run_input, Hin. eauto.
  - assert (∀ msg,
      let w1 := on_stdout (λ l, l ++ [Print msg])
                  (on_stdin (λ _, rest)
                     (on_stdout (λ l, l ++ [Prompt "Enter X Y:"]) w)) in
      (∃ target w', Human_ask fuel self w1 = (Ret target, w')
         ∧ Dot.valid target ∧ (length (stdin w') < length (line :: rest))%nat)
      ∨ (∃ w', Human_ask fuel self w1 = (Raise EOFError, w') ∧ stdin w' = [])
      ∨ (∃ w' line' a b,
           Human_ask fuel self w1 = (Raise ValueError, w')
           ∧ (length (stdin w') < length (line :: rest))%nat
           ∧ line' ∈ line :: rest ∧ split line' = [a; b]
           ∧ isdigit a = true ∧ isdigit b = true
           ∧ (int a = Err ValueError ∨ int b = Err ValueError)))
      as Hnext.
    { intros msg w1.
      destruct (IH w1) as [(target & w' & E & Hv & Hl)|[H|(w' & l' & a & b & E & Hl & Hl' & H)]].
      - simpl in *. lia.
      - left. exists target, w'. simpl in *. split; [done|]. split; [done|lia].
      - right. by left.
      - right. right. exists w', l', a, b. simpl in *.
        split; [done|]. split; [lia|]. split; [by right|done]. }
    rewrite (Human_ask_line fuel self w line rest Hin). cbv zeta.
    destruct (split line) as [|a [|b [|c l]]] eqn:Hsplit; try apply Hnext.
    destruct (isdigit a && isdigit b) eqn:Hd; [|apply Hnext].
    apply andb_true_iff in Hd as [Ha Hb].
    destruct (int a) as [x|ea] eqn:Ea.
    + destruct (int b) as [y|eb] eqn:Eb.
      * destruct (Z.leb_spec 1 x), (Z.leb_spec 1 y); simpl; try apply Hnext.
        left. do 2 eexists. split; [done|]. split; [split; simpl; lia|simpl; lia].
      * right. right. pose proof (int_raises b eb Eb) as ->.
        exists (on_stdin (λ _, rest) (on_stdout (λ l, l ++ [Prompt "Enter X Y:"]) w)),
               line, a, b.
        split; [done|]. split; [simpl; lia|]. split; [by left|]. split; [done|].
        split; [done|]. split; [done|by right].
    + right. right. pose proof (int_raises a ea Ea) as ->.
      exists (on_stdin (λ _, rest) (on_stdout (λ l, l ++ [Prompt "Enter X Y:"]) w)),
             line, a, b.
      split; [done|]. split; [simpl; lia|]. split; [by left|]. split; [done|].
      split; [done|]. split; [done|by left].
Qed.

Lemma Human_ask_ends_witness :
  (∃ target w', Human_ask 2 0%nat lost_world = (Ret target, w')
     ∧ Dot.valid target
     ∧ (length (stdin w') < length (stdin lost_world))%nat)
  ∨ (∃ w', Human_ask 2 0%nat lost_world = (Raise EOFError, w') ∧ stdin w' = [])
  ∨ (∃ w' line a b,
       Human_ask 2 0%nat lost_world = (Raise ValueError, w')
       ∧ (length (stdin w') < length (stdin lost_world))%nat
       ∧ line ∈ stdin lost_world ∧ split line = [a; b]
       ∧ isdigit a = true ∧ isdigit b = true
       ∧ (int a = Err ValueError ∨ int b = Err ValueError)).
Proof. apply (Human_ask_ends 2 0%nat lost_world). simpl. lia. Defined.

(** ** The match *)

Lemma loop_pass_return fuel g turn w w' :
  loop_pass fuel g turn w = (Ret (Return tt), w') →
  ∃ w2 msg,
    w' = on_stdout (λ l, l ++ [Print msg]) w2
    ∧ ((msg = "AI Win"%string
        ∧ (Board_live_ships (User.own_board (user_at w2 (Game.human g))) w2).1 = Ret 0)
       ∨ (msg = "Human Win"%string
          ∧ (Board_live_ships (User.own_board (user_at w2 (Game.ai g))) w2).1 = Ret 0
          ∧ (Board_live_ships (User.own_board (user_at w2 (Game.human g))) w2).1
            ≠ Ret 0)).
Proof.
  unfold loop_pass. rewrite run_bind.
  destruct (Game_show g w) as [[[]| |] w1]; [|done..].
  rewrite run_bind.
  match goal with
  | |- context [(if truthy (turn `mod` 2) then ?m1 else ?m2) w1] =>
      destruct ((if truthy (turn `mod` 2) then m1 else m2) w1) as [[r| |] w2]
  end; [|done..].
  cbv zeta. run. rewrite !Board_live_ships_pure.
  destruct (live_count w2 (User.own_board (user_at w2 (Game.human g))))
    as [nh|e] eqn:Eh; [|done].
  destruct (Z.eqb_spec nh 0) as [->|Hnh].
  - unfold print. run. intros [= <-]. exists w2, "AI Win"%string.
    split; [done|]. left. split; [done|]. by rewrite Board_live_ships_pure, Eh.
  - run. rewrite Board_live_ships_pure.
    destruct (live_count w2 (User.own_board (user_at w2 (Game.ai g))))
      as [na|e] eqn:Ea; [|done].
    destruct (Z.eqb_spec na 0) as [->|Hna]; [|done].
    unfold print. run. intros [= <-]. exists w2, "Human Win"%string.
    split; [done|]. right. split; [done|].
    rewrite !Board_live_ships_pure, Eh, Ea. simpl. split; congruence.
Qed.

(** [loop] returns only on a win: its last output is then "AI Win", the
    human fleet having no live ship, or "Human Win", the automated fleet
    having none while the human fleet has some. *)
Theorem loop_returns_only_on_a_sunk_fleet (fuel : nat) (g : Game) (w w' : World) :
  Game_loop fuel g w = (Ret tt, w') →
  ∃ w2 msg,
    w' = on_stdout (λ l, l ++ [Print msg]) w2
    ∧ ((msg = "AI Win"%string
        ∧ (Board_live_ships (User.own_board (user_at w2 (Game.human g))) w2).1 = Ret 0)
       ∨ (msg = "Human Win"%string
          ∧ (Board_live_ships (User.own_board (user_at w2 (Game.ai g))) w2).1 = Ret 0
          ∧ (Board_live_ships (User.own_board (user_at w2 (Game.human g))) w2).1
            ≠ Ret 0)).
Proof.
  unfold Game_loop. cbv zeta. generalize fuel at 2. intros k. generalize 0 at 1 as turn.
  revert w. induction fuel as [|fuel IH]; intros w turn; simpl; [done|]. run.
  destruct (loop_pass k g turn w) as [[[turn'|[]]| |] w1] eqn:E; [|run|done..].
  - apply IH.
  - intros [= <-]. by eapply loop_pass_return.
Qed.

Lemma loop_returns_only_on_a_sunk_fleet_witness :
  ∃ w2 msg,
    (Game_loop 1 lost_game lost_world).2 = on_stdout (λ l, l ++ [Print msg]) w2
    ∧ ((msg = "AI Win"%string
        ∧ (Board_live_ships (User.own_board (user_at w2 0%nat)) w2).1 = Ret 0)
       ∨ (msg = "Human Win"%string
          ∧ (Board_live_ships (User.own_board (user_at w2 1%nat)) w2).1 = Ret 0
          ∧ (Board_live_ships (User.own_board (user_at w2 0%nat)) w2).1 ≠ Ret 0)).
Proof.
  apply (loop_returns_only_on_a_sunk_fleet 1 lost_game lost_world). by vm_compute.
Defined.

(** ** Construction of the match *)

Lemma invariant_ret {A : Type} P (a : A) : invariant P (mret a : M A).
Proof. by intros w o w' HP [= _ <-]. Qed.

Lemma invariant_raise {A : Type} P (e : exn) : invariant P (raise e : M A).
Proof. by intros w o w' HP [= _ <-]. Qed.

Lemma invariant_gets {A : Type} P (f : World → A) : invariant P (gets f).
Proof. by intros w o w' HP [= _ <-]. Qed.

Lemma invariant_lift {A : Type} P (r : result A) : invariant P (lift r).
Proof. destruct r; [apply invariant_ret | apply invariant_raise]. Qed.

Lemma invariant_bind {A B : Type} P (m : M A) (f : A → M B) :
  invariant P m → (∀ a, invariant P (f a)) → invariant P (m ≫= f).
Proof.
  intros Hm Hf w o w' HP. rewrite run_bind.
  destruct (m w) as [[a|e|] w1] eqn:E.
  - apply (Hf a). by eapply Hm.
  - intros [= <- <-]. by eapply Hm.
  - intros [= <- <-]. by eapply Hm.
Qed.

Lemma invariant_try_except {A B : Type} P (body : M A) handlers (orelse : A → M B) :
  invariant P body →
  (∀ e handler, handlers e = Some handler → invariant P handler) →
  (∀ a, invariant P (orelse a)) →
  invariant P (try_except body handlers orelse).
Proof.
  intros Hb Hh Ho w o w' HP. rewrite run_try_except.
  destruct (body w) as [[a|e|] w1] eqn:E.
  - apply (Ho a). by eapply Hb.
  - destruct (handlers e) as [handler|] eqn:Eh.
    + apply (Hh e handler Eh). by eapply Hb.
    + intros [= <- <-]. by eapply Hb.
  - intros [= <- <-]. by eapply Hb.
Qed.

Lemma invariant_while_true {S R : Type} P fuel (body : S → M (control S R)) s :
  (∀ s, invariant P (body s)) → invariant P (while_true fuel body s).
Proof.
  intros Hb. revert s. induction fuel as [|fuel IH]; intros s; simpl.
  - by intros w o w' HP [= _ <-].
  - apply invariant_bind; [done|]. intros [s'|r]; [apply IH | apply invariant_ret].
Qed.

Lemma invariant_for_M {A S : Type} P (xs : list A) (body : A → S → M S) acc :
  (∀ x acc, invariant P (body x acc)) → invariant P (for_M xs body acc).
Proof.
  intros Hb. revert acc. induction xs as [|x xs IH]; intros acc; simpl.
  - apply invariant_ret.
  - apply invariant_bind; [done|]. intros acc'. apply IH.
Qed.

Lemma keeps_refl w : keeps w w.
Proof. by repeat split. Qed.

Lemma keeps_trans w1 w2 w3 : keeps w1 w2 → keeps w2 w3 → keeps w1 w3.
Proof.
  intros (B1 & S1 & Hb1 & Hs1) (B2 & S2 & Hb2 & Hs2). split; [|split; [|split]].
  - set_solver.
  - set_solver.
  - intros b Hb. rewrite Hb2 by set_solver. by apply Hb1.
  - intros r Hr. rewrite Hs2 by set_solver. by apply Hs1.
Qed.

Lemma add_ship_returns_board self ship w w' :
  Board_add_ship self ship w = (Ret tt, w') →
  ∃ v, w' = on_board_store <[self := v]> w.
Proof.
  unfold Board_add_ship. run.
  destruct (Ship_margins (ship_at w ship) 1) as [margin|e1]; run; [|done].
  destruct (nonempty _); run; [done|].
  destruct (Ship_dots (ship_at w ship)) as [ds|e2]; run; [|done].
  destruct (existsb _ _); run; [done|].
  rewrite on_board_store_twice. intros [= <-]. eauto.
Qed.

Lemma add_ship_world {o : outcome unit} self ship w w' :
  Board_add_ship self ship w = (o, w') →
  w' = w ∨ ∃ v, w' = on_board_store <[self := v]> w.
Proof.
  unfold Board_add_ship. run.
  destruct (Ship_margins (ship_at w ship) 1) as [margin|e1]; run;
    [|intros [= _ <-]; by left].
  destruct (nonempty _); run; [intros [= _ <-]; by left|].
  destruct (Ship_dots (ship_at w ship)) as [ds|e2]; run;
    [|intros [= _ <-]; by left].
  destruct (existsb _ _); run; [intros [= _ <-]; by left|].
  rewrite on_board_store_twice. intros [= _ <-]. right. eauto.
Qed.

Lemma keeps_beside_randint w0 b0 a b : invariant (keeps_beside w0 b0) (randint a b).
Proof.
  unfold randint. destruct (b <? a); [apply invariant_raise|].
  intros w o w' HP. run. intros [= _ <-]. exact HP.
Qed.

Lemma keeps_beside_new_ship w0 b0 s : invariant (keeps_beside w0 b0) (new_ship s).
Proof.
  intros w o w' [(HB & HS & Hb & Hs) Hin] [= _ <-].
  split; [split; [|split; [|split]]|]; simpl; [done|set_solver| | |done].
  - intros b Hb0. rewrite board_at_on_ship_store. by apply Hb.
  - intros r Hr. rewrite ship_at_insert_ne; [by apply Hs|].
    intros <-. apply (is_fresh (dom (ship_store w))). by apply HS.
Qed.

Lemma keeps_beside_add_ship w0 b0 ship :
  b0 ∉ dom (board_store w0) →
  invariant (keeps_beside w0 b0) (Board_add_ship b0 ship).
Proof.
  intros Hfresh w o w' [(HB & HS & Hb & Hs) Hin] E.
  apply add_ship_world in E as [->|[v ->]]; [done|].
  split; [split; [|split; [|split]]|]; simpl; [set_solver|done| | |set_solver].
  - intros b Hb0. rewrite board_at_insert_ne; [by apply Hb|]. by intros <-.
  - intros r Hr. rewrite ship_at_on_board_store. by apply Hs.
Qed.

Ltac invariant_step :=
  first
    [ apply invariant_ret | apply invariant_raise | apply invariant_gets
    | apply invariant_lift | apply keeps_beside_randint | apply keeps_beside_new_ship
    | apply invariant_bind; [|intros ?]
    | match goal with
      | |- invariant _ (if ?c then _ else _) => destruct c
      | |- invariant _ (match ?x with _ => _ end) => destruct x
      end ].

Lemma keeps_beside_place w0 b0 size t counter :
  b0 ∉ dom (board_store w0) →
  invariant (keeps_beside w0 b0) (place size b0 t counter).
Proof.
  intros Hfresh. unfold place. apply invariant_while_true. intros c.
  unfold place_pass, get_board. cbv zeta.
  destruct (_ >? _); [apply invariant_ret|].
  do 8 (apply invariant_bind; [by repeat invariant_step|intros ?]).
  apply invariant_try_except.
  - by apply keeps_beside_add_ship.
  - intros e handler. destruct e; intros [= <-]; apply invariant_ret.
  - intros _. apply invariant_ret.
Qed.

(** One call of [_random_board] leaves the boards and ships it found as
    they were; the board it returns is a new one. *)
Lemma random_board_attempt_keeps size hidden w o w' :
  Game__random_board size hidden w = (o, w') →
  keeps w w'
  ∧ ∀ b, o = Ret (Some b) → b ∈ dom (board_store w') ∧ b ∉ dom (board_store w).
Proof.
  unfold Game__random_board, Board_init.
  destruct (size <? 10); [by intros [= <- <-]; split; [apply keeps_refl|]|].
  rewrite run_bind. unfold new_board at 1. cbv beta iota zeta.
  set (b0 := fresh (dom (board_store w))).
  assert (b0 ∉ dom (board_store w)) as Hfresh by apply is_fresh.
  set (w1 := on_board_store _ w).
  assert (keeps_beside w b0 w1) as H1.
  { subst w1. split; [split; [|split; [|split]]|]; simpl;
      [set_solver|done| |done|set_solver].
    intros b Hb. apply board_at_insert_ne. by intros <-. }
  rewrite run_bind.
  destruct (for_M _ _ _ w1) as [[st| |] w2] eqn:E.
  - assert (keeps_beside w b0 w2) as [H2 Hin].
    { eapply (invariant_for_M (keeps_beside w b0)); [|exact H1|exact E].
      intros t [placing c]. destruct placing; [|apply invariant_ret].
      by apply keeps_beside_place. }
    destruct (st.1); intros [= <- <-]; (split; [done|]); [|done].
    by intros b [= <-].
  - intros [= <- <-]. split; [|done].
    eapply (invariant_for_M (keeps_beside w b0)); [|exact H1|exact E].
    intros t [placing c]. destruct placing; [|apply invariant_ret].
    by apply keeps_beside_place.
  - intros [= <- <-]. split; [|done].
    eapply (invariant_for_M (keeps_beside w b0)); [|exact H1|exact E].
    intros t [placing c]. destruct placing; [|apply invariant_ret].
    by apply keeps_beside_place.
Qed.

(** What [random_board] returns was returned by a call of [_random_board]
    that found the boards and ships of the start as they were. *)
Lemma random_board_result fuel size hidden w b w' :
  Game_random_board fuel size hidden w = (Ret b, w') →
  ∃ w0, keeps w w0 ∧ Game__random_board size hidden w0 = (Ret (Some b), w').
Proof.
  unfold Game_random_board. revert w.
  induction fuel as [|fuel IH]; intros w; simpl; [done|]. run.
  destruct (Game__random_board size hidden w) as [[[b1|]| |] w1] eqn:E; run;
    [| |done..].
  - intros [= <- <-]. exists w. split; [apply keeps_refl|done].
  - intros H. destruct (IH w1 H) as (w0 & Hk & E0).
    exists w0. split; [|done].
    eapply keeps_trans; [|exact Hk]. by apply random_board_attempt_keeps in E as [? _].
Qed.

Lemma random_board_built size hidden w board w' :
  10 ≤ size →
  Game__random_board size hidden w = (Ret (Some board), w') →
  placement_inv w' board ∧ fleet_intact w' board size hidden (ships_template size).
Proof.
  intros Hs. unfold Game__random_board. rewrite run_bind.
  destruct (Board_init size hidden w) as [[b| |] w1] eqn:Einit; [|done..].
  pose proof (placement_inv_init _ _ _ _ _ Einit) as Hinv1.
  assert (fleet_intact w1 b size hidden []) as Hfl1.
  { apply Board_init_inv in Einit as (_ & _ & ->). unfold fleet_intact.
    rewrite board_at_insert. simpl.
    split; [done|]. split; [done|]. split; [done|]. split; [done|].
    intros r Hr. by apply not_elem_of_nil in Hr. }
  cbv beta iota zeta. rewrite run_bind.
  destruct (for_M _ _ _ w1) as [[[placing c]| |] w2] eqn:E; [|done..].
  destruct placing; simpl; [|done]. intros [= <- <-].
  apply (templates_loop_built size hidden b (ships_template size) 0 w1 [] c w2);
    [apply elem_of_ships_template|lia|done..].
Qed.

Lemma fleet_kept w w' board size hidden ts :
  keeps w w' → board ∈ dom (board_store w) →
  placement_inv w board → fleet_intact w board size hidden ts →
  placement_inv w' board ∧ fleet_intact w' board size hidden ts.
Proof.
  intros (HB & HS & Hb & Hs) Hin [Ha Hapart] (H1 & H2 & H3 & H4 & H5).
  assert (∀ r, r ∈ Board.ships (board_at w board) → ship_at w' r = ship_at w r)
    as Hsame.
  { intros r Hr. apply Hs. by destruct (Ha r Hr) as [? _]. }
  unfold placement_inv, fleet_intact. rewrite (Hb board Hin).
  split; [split|].
  - intros r Hr. destruct (Ha r Hr) as (Hdom & H). split; [set_solver|].
    by rewrite (Hsame r Hr).
  - intros i j ri rj Hne Hi Hj.
    rewrite (Hsame ri), (Hsame rj) by (by eapply list_elem_of_lookup_2).
    by apply (Hapart i j).
  - split; [done|]. split; [done|]. split; [done|]. split.
    + rewrite <- H4. apply list_fmap_ext. intros i r Hr. f_equal.
      apply Hsame. by eapply list_elem_of_lookup_2.
    + intros r Hr. rewrite (Hsame r Hr). by apply H5.
Qed.

Lemma fleet_intact_live w board size hidden ts :
  fleet_intact w board size hidden ts →
  (Board_live_ships board w).1 = Ret (Z.of_nat (length ts)).
Proof.
  intros (_ & _ & _ & H4 & H5). rewrite Board_live_ships_pure. unfold live_count.
  rewrite live_loop_all_alive by done. simpl. by rewrite <- H4, length_fmap.
Qed.

(** Whenever [Game()] returns, its two players are different objects of
    the classes [Human] and [Ai], each owning the board the other fires on,
    with no last target; the two boards are different, the human one shown
    and the other hidden, and each is a full, undamaged fleet of size 10
    that was never shot at. *)
Theorem Game_init_builds_two_fleets (fuel : nat) (w w' : World) (g : Game) :
  Game_init fuel w = (Ret g, w') →
  ∃ human_board ai_board,
    human_board ≠ ai_board
    ∧ Game.human g ≠ Game.ai g
    ∧ user_at w' (Game.human g) = User.mk User.Human human_board ai_board None
    ∧ user_at w' (Game.ai g) = User.mk User.Ai ai_board human_board None
    ∧ Board.hidden (board_at w' human_board) = false
    ∧ Board.hidden (board_at w' ai_board) = true
    ∧ ∀ b, b = human_board ∨ b = ai_board →
        Board.size (board_at w' b) = 10
        ∧ Board.used_dots (board_at w' b) = ∅
        ∧ (λ r, Ship.size (ship_at w' r)) <$> Board.ships (board_at w' b)
          = ships_template 10
        ∧ (Board_live_ships b w').1 = Ret (Z.of_nat (length (ships_template 10))).
Proof.
  unfold Game_init. rewrite run_bind.
  destruct (Game_random_board fuel 10 false w) as [[bh| |] wA] eqn:EA; [|done..].
  rewrite run_bind.
  destruct (Game_random_board fuel 10 true wA) as [[ba| |] wB] eqn:EB; [|done..].
  unfold User_init, new_user. run. intros [= <- <-].
  destruct (random_board_result _ _ _ _ _ _ EA) as (w0 & _ & E0).
  destruct (random_board_result _ _ _ _ _ _ EB) as (w1 & Hk1 & E1).
  destruct (random_board_built 10 false w0 bh wA ltac:(lia) E0) as [HinvA HflA].
  destruct (random_board_built 10 true w1 ba wB ltac:(lia) E1) as [HinvB HflB].
  destruct (random_board_attempt_keeps _ _ _ _ _ E0) as [_ H0].
  destruct (H0 bh eq_refl) as [HbhA _].
  destruct (random_board_attempt_keeps _ _ _ _ _ E1) as [Hk1' H1].
  destruct (H1 ba eq_refl) as [_ Hba1].
  assert (keeps wA wB) as Hk by (by eapply keeps_trans).
  destruct (fleet_kept wA wB bh 10 false _ Hk HbhA HinvA HflA) as [_ HflA'].
  set (human := fresh (dom (user_store wB))).
  set (uh := User.mk User.Human bh ba None).
  set (ai := fresh (dom (<[human := uh]> (user_store wB)))).
  assert (human ≠ ai) as Hne.
  { intros Heq. apply (is_fresh (dom (<[human := uh]> (user_store wB)))).
    fold ai. rewrite <- Heq. set_solver. }
  set (ua := User.mk User.Ai ba bh None).
  set (wF := on_user_store <[ai := ua]> (on_user_store <[human := uh]> wB)).
  assert (fleet_intact wF bh 10 false (ships_template 10)) as HflAF by exact HflA'.
  assert (fleet_intact wF ba 10 true (ships_template 10)) as HflBF by exact HflB.
  exists bh, ba. simpl.
  split; [|split; [done|split; [|split; [|split; [|split]]]]].
  - intros ->. apply Hba1. destruct Hk1 as (HB & _). by apply HB.
  - unfold user_at, wF. simpl. rewrite lookup_total_insert_ne by done.
    by rewrite lookup_total_insert_eq.
  - unfold user_at, wF. simpl. by rewrite lookup_total_insert_eq.
  - by destruct HflAF as (_ & ? & _).
  - by destruct HflBF as (_ & ? & _).
  - intros b [-> | ->].
    + pose proof (fleet_intact_live _ _ _ _ _ HflAF) as Hlive.
      by destruct HflAF as (? & _ & ? & ? & _).
    + pose proof (fleet_intact_live _ _ _ _ _ HflBF) as Hlive.
      by destruct HflBF as (? & _ & ? & ? & _).
Qed.

Lemma Game_init_builds_two_fleets_witness :
  ∃ g w' human_board ai_board,
    Game_init 1 fleet_world = (Ret g, w')
    ∧ human_board ≠ ai_board
    ∧ user_at w' (Game.human g) = User.mk User.Human human_board ai_board None
    ∧ user_at w' (Game.ai g) = User.mk User.Ai ai_board human_board None.
Proof.
  assert ((Game_init 1 fleet_world).1 = Ret (Game.mk 0%nat 1%nat)) as E1
    by (vm_compute; reflexivity).
  destruct (Game_init 1 fleet_world) as [o wF] eqn:E. simpl in E1. subst o.
  destruct (Game_init_builds_two_fleets 1 fleet_world wF _ E)
    as (hb & ab & H1 & _ & H3 & H4 & _).
  exists (Game.mk 0%nat 1%nat), wF, hb, ab.
  split; [reflexivity|]. split; [exact H1|]. split; [exact H3 | exact H4].
Defined.

(** ** A generator that never lets [random_board] return *)

Lemma ships_template_two size :
  10 ≤ size → ∃ t1 t2 rest, ships_template size = t1 :: t2 :: rest.
Proof.
  intros Hs. assert (2 ≤ length (ships_template size))%nat as Hl.
  { unfold ships_template. rewrite !length_app, !length_replicate.
    assert (1 ≤ size `div` 8) by (apply Z.div_le_lower_bound; lia).
    assert (2 ≤ size `div` 4) by (apply Z.div_le_lower_bound; lia).
    lia. }
  destruct (ships_template size) as [|t1 [|t2 rest]]; simpl in Hl; [lia..|eauto].
Qed.

(** With a generator that only draws zeros, every pass proposes a ship at
    (0,0): once that dot is unavailable no pass can place anything. *)
Lemma zero_pass_inv size board t counter w o w' :
  (∀ n, tape w n = 0) → 1 ≤ t → 1 ≤ Board.size (board_at w board) →
  counter + 1 ≤ (size + 1) ^ 2 →
  place_pass size board t counter w = (o, w') →
  (∀ n, tape w' n = 0)
  ∧ (Dot.mk 0 0 ∈ Board.unavailable_dots (board_at w board) →
     o = Ret (Continue (counter + 1))
     ∧ Dot.mk 0 0 ∈ Board.unavailable_dots (board_at w' board))
  ∧ (o = Ret (Return (true, counter + 1)) →
     Dot.mk 0 0 ∈ Board.unavailable_dots (board_at w' board)).
Proof.
  intros Hz Ht Hb Hc. unfold place_pass.
  destruct (Z.gtb_spec (counter + 1) ((size + 1) ^ 2)); [lia|]. run.
  rewrite run_randint by lia. run.
  change (board_at (on_cursor S w) board) with (board_at w board).
  rewrite run_randint by lia. run.
  change (tape (on_cursor S w)) with (tape w).
  rewrite !Hz, !Zmod_0_l. change (0 + 0) with 0. rewrite Dot_init_Ok by done. run.
  rewrite run_randint by lia. run.
  change (tape (on_cursor S (on_cursor S w))) with (tape w).
  rewrite Hz, Zmod_0_l. change (0 + 0) with 0.
  rewrite Ship_init_Ok by lia. run. rewrite run_new_ship. run.
  set (w3 := on_cursor S (on_cursor S (on_cursor S w))).
  set (r := fresh (dom (ship_store w3))).
  set (s := Ship.mk (Dot.mk 0 0) t 0 ∅).
  set (w4 := on_ship_store <[r := s]> w3).
  assert (ship_at w4 r = s) as Hr by apply ship_at_insert.
  assert (Ship.valid s) as Hv by (repeat split; simpl; lia).
  destruct (valid_ship_geometry _ Hv) as (margin & Hds & Hm).
  assert (Dot.mk 0 0 ∈ margin) as Hin.
  { apply (cells_in_margins s 1 margin _ Hv Hm); [lia|].
    apply elem_of_cells. exists 0. split; [simpl; lia|done]. }
  rewrite <- Hr in Hds, Hm.
  rewrite run_try_except, (add_ship_cases w4 board r _ margin Hds Hm).
  change (board_at w4 board) with (board_at w board).
  destruct (nonempty _) eqn:Hov.
  { intros [= <- <-]. split; [done|]. split; [done|]. done. }
  apply nonempty_false in Hov.
  destruct (existsb _ _).
  { intros [= <- <-]. split; [done|]. split; [|done]. intros Hbl. set_solver. }
  run. intros [= <- <-]. split; [done|]. rewrite board_at_insert. simpl.
  split; [intros Hbl|intros _]; set_solver.
Qed.

Lemma zero_pass size board t counter w :
  (∀ n, tape w n = 0) → 1 ≤ t → 1 ≤ Board.size (board_at w board) →
  counter + 1 ≤ (size + 1) ^ 2 →
  ∃ w', (∀ n, tape w' n = 0)
    ∧ Board.size (board_at w' board) = Board.size (board_at w board)
    ∧ ((place_pass size board t counter w = (Ret (Continue (counter + 1)), w')
        ∧ (Dot.mk 0 0 ∈ Board.unavailable_dots (board_at w board) →
           Dot.mk 0 0 ∈ Board.unavailable_dots (board_at w' board)))
       ∨ (place_pass size board t counter w = (Ret (Return (true, counter + 1)), w')
          ∧ (Dot.mk 0 0 ∉ Board.unavailable_dots (board_at w board))
          ∧ Dot.mk 0 0 ∈ Board.unavailable_dots (board_at w' board))).
Proof.
  intros Hz Ht Hb Hc.
  pose proof (place_pass_spec size board t counter w Ht Hb) as Hp.
  destruct (Z.gtb_spec (counter + 1) ((size + 1) ^ 2)); [lia|].
  destruct Hp as (w' & Hb' & [E|E]);
    destruct (zero_pass_inv _ _ _ _ _ _ _ Hz Ht Hb Hc E) as (Hz' & Hbl & Hret);
    exists w'; (split; [done|]); (split; [done|]).
  - left. split; [done|]. intros Hin. by apply Hbl.
  - right. split; [done|]. split; [|by apply Hret].
    intros Hin. by destruct (Hbl Hin) as [[=] _].
Qed.

Lemma zero_loop fuel size board t counter w :
  (∀ n, tape w n = 0) → 1 ≤ t → 1 ≤ Board.size (board_at w board) →
  0 ≤ counter ≤ (size + 1) ^ 2 →
  (size + 1) ^ 2 + 1 - counter ≤ Z.of_nat fuel →
  ∃ placing counter' w',
    while_true fuel (place_pass size board t) counter w = (Ret (placing, counter'), w')
    ∧ (∀ n, tape w' n = 0)
    ∧ Board.size (board_at w' board) = Board.size (board_at w board)
    ∧ 0 ≤ counter' ∧ (placing = true → counter' ≤ (size + 1) ^ 2)
    ∧ (placing = true → Dot.mk 0 0 ∈ Board.unavailable_dots (board_at w' board))
    ∧ (Dot.mk 0 0 ∈ Board.unavailable_dots (board_at w board) → placing = false).
Proof.
  intros Hz Ht. revert counter w Hz.
  induction fuel as [|fuel IH]; intros counter w Hz Hb Hc Hf; [lia|].
  rewrite while_true_S. run.
  destruct (Z.gtb_spec (counter + 1) ((size + 1) ^ 2)) as [Hgt|Hle].
  - pose proof (place_pass_spec size board t counter w Ht Hb) as Hp.
    destruct (Z.gtb_spec (counter + 1) ((size + 1) ^ 2)); [|lia].
    rewrite Hp. run. exists false, (counter + 1), w.
    split; [done|]. split; [done|]. split; [done|]. split; [lia|]. done.
  - destruct (zero_pass size board t counter w Hz Ht Hb Hle)
      as (w1 & Hz1 & Hb1 & [[E Hmono]|(E & Hfree & Hblocked)]); rewrite E.
    + destruct (IH (counter + 1) w1 Hz1) as
        (placing & c' & w' & E' & Hz' & Hb' & Hc' & Hle' & Hbl' & Hstay); [lia..|].
      exists placing, c', w'. split; [done|]. split; [done|].
      split; [congruence|]. split; [done|]. split; [done|]. split; [done|].
      intros Hbl. by apply Hstay, Hmono.
    + run. exists true, (counter + 1), w1.
      split; [done|]. split; [done|]. split; [done|]. split; [lia|].
      split; [intros; lia|]. split; [done|]. intros Hbl. by destruct Hfree.
Qed.

Lemma zero_templates size board ts placing counter w :
  (∀ n, tape w n = 0) → (∀ t, t ∈ ts → 1 ≤ t) →
  1 ≤ Board.size (board_at w board) →
  0 ≤ counter → (placing = true → counter ≤ (size + 1) ^ 2) →
  ∃ placing' counter' w',
    for_M (S := bool * Z) ts
      (λ t '(placing, counter),
         if placing : bool then place size board t counter else mret (false, counter))
      (placing, counter) w = (Ret (placing', counter'), w')
    ∧ (∀ n, tape w' n = 0)
    ∧ (ts ≠ [] → Dot.mk 0 0 ∈ Board.unavailable_dots (board_at w board) →
       placing' = false)
    ∧ (placing' = true → Dot.mk 0 0 ∈ Board.unavailable_dots (board_at w' board)
                         ∨ ts = []).
Proof.
  intros Hz Hts. revert placing counter w Hz.
  induction ts as [|t ts IH]; intros placing counter w Hz Hb Hc Hle; cbn [for_M].
  - exists placing, counter, w. split; [done|]. split; [done|].
    split; [done|]. intros _. by right.
  - run. destruct placing.
    + destruct (zero_loop (Z.to_nat ((size + 1) ^ 2 + 1)) size board t counter w)
        as (p1 & c1 & w1 & E1 & Hz1 & Hb1 & Hc1 & Hle1 & Hbl1 & Hstay1);
        [done|apply Hts; by left|done|split; [done|by apply Hle]|lia|].
      unfold place. rewrite E1.
      destruct (IH (λ t' Ht', Hts t' ltac:(by right)) p1 c1 w1 Hz1)
        as (p' & c' & w' & E' & Hz' & Hbl' & Hend'); [congruence|done|done|].
      exists p', c', w'. split; [done|]. split; [done|]. split.
      * intros _ Hbl. specialize (Hstay1 Hbl). subst p1.
        revert E'. rewrite templates_loop_stopped. by intros [= <- _].
      * intros Hp. subst p'. left.
        destruct p1; [|by revert E'; rewrite templates_loop_stopped].
        destruct (Hend' eq_refl) as [Hin| ->]; [done|].
        revert E'. cbn [for_M]. run. intros [= _ <-]. by apply Hbl1.
    + run. rewrite templates_loop_stopped. exists false, counter, w.
      split; [done|]. split; [done|]. split; [done|]. done.
Qed.

Lemma zero_attempt size hidden w :
  10 ≤ size → (∀ n, tape w n = 0) →
  ∃ w', Game__random_board size hidden w = (Ret None, w') ∧ ∀ n, tape w' n = 0.
Proof.
  intros Hs Hz. unfold Game__random_board, Board_init.
  destruct (Z.ltb_spec size 10); [lia|]. rewrite run_bind.
  unfold new_board at 1. cbv beta iota zeta.
  set (board := fresh (dom (board_store w))).
  set (w1 := on_board_store _ w).
  assert (Board.size (board_at w1 board) = size) as Hb1
    by (subst w1; by rewrite board_at_insert).
  destruct (ships_template_two size Hs) as (t1 & t2 & rest & Hts).
  assert (∀ t, t ∈ t1 :: t2 :: rest → 1 ≤ t) as Hpos
    by (rewrite <- Hts; apply elem_of_ships_template).
  rewrite Hts. cbn [for_M]. run.
  destruct (zero_loop (Z.to_nat ((size + 1) ^ 2 + 1)) size board t1 0 w1)
    as (p1 & c1 & w2 & E1 & Hz2 & Hb2 & Hc1 & Hle1 & Hbl1 & _);
    [done|apply Hpos; by left|lia|lia|lia|].
  unfold place at 1. rewrite E1.
  destruct (zero_templates size board (t2 :: rest) p1 c1 w2 Hz2)
    as (p' & c' & w' & E' & Hz' & Hbl' & _);
    [intros t Ht; apply Hpos; by right|lia|done|done|].
  assert (p' = false) as ->.
  { destruct p1.
    - apply Hbl'; [done|by apply Hbl1].
    - revert E'. rewrite templates_loop_stopped. by intros [= <- _]. }
  cbn [for_M] in E'. rewrite E'. by exists w'.
Qed.

(** [random_board] has no bound of its own: with a generator that only
    draws zeros every attempt gives up (the first ship lands on (0,0) and no
    second one fits), so however many attempts are allowed, it has not
    returned when they are used up. *)
Theorem random_board_can_run_forever
    (fuel : nat) (size : Z) (hidden : bool) (w : World) :
  10 ≤ size → (∀ n, tape w n = 0) →
  ∃ w', Game_random_board fuel size hidden w = (Fuel, w').
Proof.
  intros Hs. unfold Game_random_board. revert w.
  induction fuel as [|fuel IH]; intros w Hz; simpl; [by eexists|]. run.
  destruct (zero_attempt size hidden w Hs Hz) as (w1 & -> & Hz1). run.
  by apply IH.
Qed.

Lemma random_board_can_run_forever_witness :
  ∃ w', Game_random_board 5 10 false empty_world = (Fuel, w').
Proof.
  apply (random_board_can_run_forever 5 10 false empty_world); [lia|].
  intros n. reflexivity.
Defined.

(** ** What [display] shows *)

Lemma fleet_unoccupied w fleet dot :
  (∀ r, r ∈ fleet → occupies (ship_at w r) dot = false) →
  fleet_occupies w fleet dot = false ∧ fleet_wrecked w fleet dot = false.
Proof.
  unfold fleet_occupies, fleet_wrecked.
  induction fleet as [|r fleet IH]; intros H; [done|]. simpl.
  rewrite (H r) by (by left). simpl. apply IH. intros r' Hr'. apply H. by right.
Qed.

(** The pass of [display] over a fleet whose ships share no dot. *)
Lemma draw_fleet_inside w hidden fleet g n :
  square_grid n g →
  (∀ r, r ∈ fleet →
     ∃ ds, Ship_dots (ship_at w r) = Ok ds
           ∧ ∀ dot, dot ∈ ds → 0 ≤ Dot.x dot < Z.of_nat n ∧ 0 ≤ Dot.y dot < Z.of_nat n) →
  dots_apart w fleet →
  ∃ g', for_result fleet (draw_ship w hidden) g = Ok g' ∧ square_grid n g'
        ∧ ∀ dot', Dot.valid dot' →
            grid_at g' dot' =
              if fleet_wrecked w fleet dot' then Some Wrecked
              else if negb hidden && fleet_occupies w fleet dot' then Some Hull
              else grid_at g dot'.
Proof.
  revert g. induction fleet as [|r fleet IH]; intros g Hg Hin Hapart.
  - exists g. split; [done|]. split; [done|]. intros dot' _. simpl.
    by rewrite andb_false_r.
  - destruct (Hin r) as (ds & Hds & Hds_in); [by left|].
    destruct (draw_ship_inside w hidden r ds g n Hg Hds Hds_in)
      as (g1 & E1 & Hg1 & Hat1).
    destruct (IH g1 Hg1) as (g' & E' & Hg' & Hat').
    { intros r' Hr'. apply Hin. by right. }
    { intros i j ri rj dot Hne Hi Hj. apply (Hapart (S i) (S j)); [lia|done..]. }
    exists g'. simpl. rewrite E1. split; [done|]. split; [done|].
    intros dot' Hv. rewrite (Hat' dot' Hv), (Hat1 dot' Hv).
    unfold fleet_wrecked, fleet_occupies. simpl.
    fold (fleet_wrecked w fleet dot'). fold (fleet_occupies w fleet dot').
    destruct (occupies (ship_at w r) dot') eqn:Ho; simpl; [|done].
    destruct (fleet_unoccupied w fleet dot') as [-> ->].
    { intros r' Hr'. apply list_elem_of_lookup_1 in Hr' as [j Hj].
      by apply (Hapart 0%nat (S j) r r' dot'). }
    rewrite andb_false_r, orb_false_r, andb_true_r.
    case_bool_decide; [done|]. by destruct hidden.
Qed.

Lemma placement_dots_apart w board :
  placement_inv w board → dots_apart w (Board.ships (board_at w board)).
Proof.
  intros [Ha Hb] i j ri rj dot Hne Hi Hj Ho.
  destruct (Hb i j ri rj Hne Hi Hj) as (mi & mj & Hmi & Hmj & Hdisj).
  revert Ho. unfold occupies.
  destruct (Ship_dots (ship_at w ri)) as [di|] eqn:Hdi; [|done].
  destruct (Ship_dots (ship_at w rj)) as [dj|] eqn:Hdj; [|done].
  intros Hin%bool_decide_eq_true. apply bool_decide_eq_false. intros Hin'.
  destruct (Ship_dots_valid _ _ _ Hdi Hin) as [Hx Hy].
  apply (Hdisj dot).
  - apply (elem_of_margins _ 1 di mi _ Hdi Hmi). exists dot, 0, 0.
    split; [done|]. repeat split; try lia. destruct dot; simpl; f_equal; lia.
  - apply (elem_of_margins _ 1 dj mj _ Hdj Hmj). exists dot, 0, 0.
    split; [done|]. repeat split; try lia. destruct dot; simpl; f_equal; lia.
Qed.

(** Every dot that was shot on a board used only through [add_ship] and
    [shot] is inside the board. *)
Lemma reachable_used_inside board w d :
  reachable board w →
  d ∈ Board.used_dots (board_at w board) → Board_out (board_at w board) d = false.
Proof.
  induction 1 as [w0 size hidden w Hi|w x y origin size orientation s ship w' _ IH _ _ Hn
                  |w ship w' Hr IH Hdom Hadd|w target res w' _ IH Hs].
  - apply Board_init_inv in Hi as (_ & _ & ->). rewrite board_at_insert. set_solver.
  - revert Hn. unfold new_ship. intros [= _ <-]. by rewrite board_at_on_ship_store.
  - destruct (Ship_margins (ship_at w ship) 1) as [margin|e] eqn:Hm;
      [|by unfold Board_add_ship in Hadd; revert Hadd; run; rewrite Hm; run].
    destruct (Ship_dots (ship_at w ship)) as [ds|e] eqn:Hds.
    2:{ revert Hm. unfold Ship_margins. destruct (1 <? 1); [done|]. by rewrite Hds. }
    rewrite (add_ship_cases _ _ _ _ _ Hds Hm) in Hadd.
    destruct (nonempty _); [done|]. destruct (existsb _ _); [done|].
    injection Hadd as <-. rewrite board_at_insert. exact IH.
  - apply shot_returns_inv in Hs as (Ho & _ & w1 & _ & ->).
    rewrite board_at_insert. unfold fired. simpl.
    intros [->%elem_of_singleton|Hd]%elem_of_union; [exact Ho|by apply IH].
Qed.

(** On a board used only through [add_ship] and [shot], [display] raises
    nothing and returns having changed no object; it fills a grid of [size]
    rows of [size] cells that shows, at every dot of the board: a wrecked dot
    of a ship as such; an intact dot of a ship as such if the board is not
    hidden; any other dot as shot if it was shot at, and as blank if not. *)
Theorem display_grid_shows_the_board (board : addr) (w : World) :
  reachable board w →
  ∃ g, Board_display_grid w board = Ok g
       ∧ Board_display board w = (Ret tt, on_stdout (λ l, l ++ [Display board]) w)
       ∧ length g = Z.to_nat (Board.size (board_at w board))
       ∧ Forall (λ row, length row = Z.to_nat (Board.size (board_at w board))) g
       ∧ ∀ dot, Board_out (board_at w board) dot = false →
           grid_at g dot = Some (shown w (board_at w board) dot).
Proof.
  intros Hr. pose proof (reachable_placement_inv _ _ Hr) as Hinv.
  pose proof (placement_dots_apart _ _ Hinv) as Hapart. destruct Hinv as [Hp _].
  set (b := board_at w board) in *. set (n := Z.to_nat (Board.size b)).
  assert (∀ dot, Board_out b dot = false →
            0 ≤ Dot.x dot < Z.of_nat n ∧ 0 ≤ Dot.y dot < Z.of_nat n) as Hin
    by (intros dot [??]%Board_out_false; lia).
  assert (square_grid n (replicate n (replicate n Blank))) as Hg0.
  { split; [by rewrite length_replicate|].
    apply Forall_replicate. by rewrite length_replicate. }
  destruct (puts_inside Shot (elements (Board.used_dots b)) _ n Hg0)
    as (g1 & E1 & Hg1 & Hat1).
  { intros dot Hd%elem_of_elements. apply Hin. by apply reachable_used_inside. }
  destruct (draw_fleet_inside w (Board.hidden b) (Board.ships b) g1 n Hg1)
    as (g & E & [Hl Hrows] & Hat); [|done|].
  { intros r Hr'. destruct (Hp r Hr') as (_ & ds & _ & Hds & _ & Hds_in & _).
    exists ds. split; [done|]. intros dot Hd. by apply Hin, Hds_in. }
  assert (Board_display_grid w board = Ok g) as Hgrid.
  { unfold Board_display_grid. fold b. fold n. rewrite E1.
    cbn [mbind result_bind]. exact E. }
  exists g. split; [done|].
  split; [unfold Board_display; run; rewrite Hgrid; by run|].
  split; [done|]. split; [done|].
  intros dot Ho. pose proof (Hin dot Ho) as [Hx Hy].
  assert (Dot.valid dot) as Hv by (split; lia).
  rewrite (Hat dot Hv), (Hat1 dot Hv). unfold shown.
  destruct (fleet_wrecked _ _ _); [done|].
  destruct (negb _ && _); [done|].
  destruct (decide (dot ∈ Board.used_dots b)) as [Hd|Hd].
  - rewrite (bool_decide_eq_true_2 (dot ∈ Board.used_dots b)) by done.
    by rewrite bool_decide_eq_true_2 by (by apply elem_of_elements).
  - rewrite (bool_decide_eq_false_2 (dot ∈ Board.used_dots b)) by done.
    rewrite bool_decide_eq_false_2 by (by rewrite elem_of_elements).
    unfold grid_at. rewrite lookup_replicate_2 by lia. simpl.
    by rewrite lookup_replicate_2 by lia.
Qed.

Lemma display_grid_shows_the_board_witness :
  ∃ g, Board_display_grid shot_world 0%nat = Ok g
       ∧ Board_display 0%nat shot_world
         = (Ret tt, on_stdout (λ l, l ++ [Display 0%nat]) shot_world)
       ∧ length g = Z.to_nat (Board.size (board_at shot_world 0%nat))
       ∧ Forall (λ row, length row = Z.to_nat (Board.size (board_at shot_world 0%nat))) g
       ∧ ∀ dot, Board_out (board_at shot_world 0%nat) dot = false →
           grid_at g dot = Some (shown shot_world (board_at shot_world 0%nat) dot).
Proof.
  apply (display_grid_shows_the_board 0%nat shot_world).
  pose (w1 := (Board_shot 0%nat (Dot.mk 5 5) two_ships_world).2).
  assert (reachable 0%nat w1) as R1
    by (apply (reach_shot 0%nat two_ships_world (Dot.mk 5 5) true w1
                 two_ships_world_reachable); by vm_compute).
  apply (reach_shot 0%nat w1 (Dot.mk 3 0) false shot_world R1). by vm_compute.
Defined.

(** ** What a hidden board shows *)

Lemma put_no_hull c dot g g' :
  c ≠ Hull → no_hull g → put c dot g = Ok g' → no_hull g'.
Proof.
  intros Hc Hg. unfold put.
  destruct (list_index (length g) (Dot.y dot)) as [r|] eqn:Er; [|done].
  cbn [mbind result_bind].
  destruct (list_index (length (g !!! r)) (Dot.x dot)) as [k|] eqn:Ek; [|done].
  cbn [mbind result_bind]. intros [= <-].
  apply Forall_insert; [done|]. apply Forall_insert; [|done].
  apply list_index_lt in Er.
  apply (proj1 (Forall_lookup _ _) Hg r). by apply list_lookup_lookup_total_lt.
Qed.

Lemma for_result_keeps {A S : Type} (P : S → Prop) (xs : list A) body acc acc' :
  (∀ x s s', P s → body x s = Ok s' → P s') →
  P acc → for_result xs body acc = Ok acc' → P acc'.
Proof.
  intros Hbody. revert acc. induction xs as [|x xs IH]; intros acc Hacc; simpl.
  - by intros [= <-].
  - destruct (body x acc) as [acc1|] eqn:E; [|done].
    apply IH. by eapply Hbody.
Qed.

Lemma draw_ship_no_hull w ship g g' :
  no_hull g → draw_ship w true ship g = Ok g' → no_hull g'.
Proof.
  intros Hg. unfold draw_ship.
  destruct (Ship_dots (ship_at w ship)) as [ds|e]; [|done]. simpl.
  apply for_result_keeps; [|done].
  intros dot s s' Hs. unfold draw_dot. simpl.
  case_bool_decide; [by apply put_no_hull|]. by intros [= <-].
Qed.

(** Whatever the board and its ships hold, the grid of a hidden board has
    no cell showing an intact dot of a ship. *)
Theorem hidden_grid_shows_no_hull (w : World) (self : addr) (g : grid) :
  Board.hidden (board_at w self) = true →
  Board_display_grid w self = Ok g →
  ∀ row, row ∈ g → Hull ∉ row.
Proof.
  intros Hh. unfold Board_display_grid. rewrite Hh.
  destruct (for_result (elements _) _ _) as [g1|] eqn:E1; [|done].
  cbn [mbind result_bind]. intros E.
  assert (no_hull g1) as Hg1.
  { revert E1. apply for_result_keeps.
    - intros dot s s' Hs. by apply put_no_hull.
    - apply Forall_replicate, Forall_replicate. done. }
  assert (no_hull g) as Hg.
  { revert E. apply for_result_keeps; [|done].
    intros ship s s'. apply draw_ship_no_hull. }
  intros row Hrow Hin.
  by apply (proj1 (Forall_forall _ _) (proj1 (Forall_forall _ _) Hg row Hrow) Hull).
Qed.

Lemma hidden_grid_shows_no_hull_witness :
  Board.hidden (board_at hidden_world 0%nat) = true
  ∧ grid_at (default [] (match Board_display_grid hidden_world 0%nat with
                         | Ok g => Some g
                         | _ => None
                         end)) (Dot.mk 2 2) = Some Wrecked
  ∧ Hull ∉ [Blank; Blank; Wrecked; Blank; Blank; Blank; Blank; Blank; Blank; Blank].
Proof.
  split; [reflexivity|]. split; [by vm_compute|].
  apply (hidden_grid_shows_no_hull hidden_world 0%nat
           [[Shot; Blank; Blank; Blank; Blank; Blank; Blank; Blank; Blank; Blank];
            [Blank; Blank; Blank; Blank; Blank; Blank; Blank; Blank; Blank; Blank];
            [Blank; Blank; Wrecked; Blank; Blank; Blank; Blank; Blank; Blank; Blank];
            [Blank; Blank; Blank; Blank; Blank; Blank; Blank; Blank; Blank; Blank];
            [Blank; Blank; Blank; Blank; Blank; Blank; Blank; Blank; Blank; Blank];
            [Blank; Blank; Blank; Blank; Blank; Blank; Blank; Blank; Blank; Blank];
            [Blank; Blank; Blank; Blank; Blank; Blank; Blank; Blank; Blank; Blank];
            [Blank; Blank; Blank; Blank; Blank; Blank; Blank; Blank; Blank; Blank];
            [Blank; Blank; Blank; Blank; Blank; Blank; Blank; Blank; Blank; Blank];
            [Blank; Blank; Blank; Blank; Blank; Blank; Blank; Blank; Blank; Blank]]).
  - reflexivity.
  - by vm_compute.
  - do 2 right. by left.
Defined.
